(** * oq-risklib: the classical reducers, the tiling coordinator, the
      realization statistics, the scenario-risk accumulator and the
      input collectors of [openquake.commonlib].

    The development is a shallow embedding of
    - [openquake/commonlib/calculators/classical.py],
    - [openquake/commonlib/calculators/scenario_risk.py],
    - [openquake/commonlib/readinput.py].

    Python dictionaries are finite maps ([gmap]); a dictionary is iterated
    in the order of [map_to_list].  Exceptions are the [Raise] results of
    a small error monad; the readers of the source models, of the CSV
    data and of the exposure have the exceptions of their own.  Floating
    point numbers are abstracted: the reducers are parametric in the type
    of curves, the statistics are stated over the rationals. *)

From Stdlib Require Import ZArith QArith Permutation.
From stdpp Require Import gmap strings list fin_maps pretty.

#[local] Set Warnings "-clear-no-such-hyp,-register-all".
Local Open Scope nat_scope.

(** * Part I: the embedding of the code *)

(** ** Exceptions *)

Inductive exn : Type :=
| KeyError
| IndexError
| ValueError
| IOError (msg : string).

Inductive res (A : Type) : Type :=
| Ok (a : A)
| Raise (e : exn).
Arguments Ok {A} a.
Arguments Raise {A} e.

#[global] Instance res_ret : MRet res := λ A a, Ok a.
#[global] Instance res_bind : MBind res := λ A B f m,
  match m with
  | Ok a => f a
  | Raise e => Raise e
  end.
#[global] Instance res_fmap : FMap res := λ A B f m,
  match m with
  | Ok a => Ok (f a)
  | Raise e => Raise e
  end.

(** [d[key]] on a Python dictionary. *)
Definition getitem `{Countable K} {V : Type} (d : gmap K V) (key : K) : res V :=
  match d !! key with
  | Some v => Ok v
  | None => Raise KeyError
  end.

(** The keys of a dictionary, in iteration order. *)
Definition keys `{Countable K} {V : Type} (d : gmap K V) : list K :=
  (map_to_list d).*1.

(** Keys of the hazard dictionaries: [(trt_model_id, str(gsim))]. *)
Abbreviation Key := (nat * string)%type.

(** ** The reducer of the classical calculator *)

Module Classical.

(** [openquake.hazardlib.calc.hazard_curve.agg_curves] belongs to another
    repository: the reducer is parametric in it. *)
Class AggCurves (Curves : Type) : Type :=
  agg_curves : Curves → Curves → Curves.

Section Reducer.
Context {Curves : Type} {curves_agg : AggCurves Curves}.

(** One iteration of the loop of [agg_dicts]:
    [acc[key] = agg_curves(acc[key], val[key])]. *)
Definition agg_dicts_step (val : gmap Key Curves)
    (acc : gmap Key Curves) (key : Key) : res (gmap Key Curves) :=
  a ← getitem acc key;
  v ← getitem val key;
  Ok (<[key := agg_curves a v]> acc).

(** [agg_dicts(acc, val)]: the accumulator is updated in place and
    returned; the result is the final state of that dictionary. *)
Definition agg_dicts (acc val : gmap Key Curves) : res (gmap Key Curves) :=
  foldl (λ st key, st ≫= λ acc, agg_dicts_step val acc key) (Ok acc) (keys val).

(** Modelled from the spec: [openquake.commonlib.parallel] is not among
    the sources.  The reducer "folds partials into [initial] using [merge]
    per key, in arrival order"; here [agg] is the merge step, which may
    raise. *)
Definition reduce (agg : gmap Key Curves → gmap Key Curves → res (gmap Key Curves))
    (acc : gmap Key Curves) (partials : list (gmap Key Curves)) : res (gmap Key Curves) :=
  foldl (λ st val, st ≫= λ acc, agg acc val) (Ok acc) partials.

(** The key-wise merge of two dictionaries: [agg_curves] on the common
    keys, the only value otherwise. *)
Definition merged (acc val : gmap Key Curves) : gmap Key Curves :=
  union_with (λ a v, Some (agg_curves a v)) acc val.

(** The claim of the spec on one merge step, as it is written. *)
Definition merge_spec (acc val : gmap Key Curves) : Prop :=
  ∃ acc', agg_dicts acc val = Ok acc'
    ∧ dom acc' = dom acc ∪ dom val
    ∧ (∀ k a v, acc !! k = Some a → val !! k = Some v →
         acc' !! k = Some (agg_curves a v))
    ∧ (∀ k a, acc !! k = Some a → val !! k = None → acc' !! k = Some a)
    ∧ (∀ k v, acc !! k = None → val !! k = Some v → acc' !! k = Some v).

End Reducer.

(** A composition of integers with the algebra of
    [1 - (1 - a) * (1 - b)], used on the concrete inputs below. *)
Definition compose (a b : Z) : Z := (a + b - a * b)%Z.

(** A concrete reduction: an initial accumulator and two partial results
    over its key. *)
Definition ex_initial : gmap Key Z := {[ (0, "g") := 0%Z ]}.
Definition ex_partial1 : gmap Key Z := {[ (0, "g") := 2%Z ]}.
Definition ex_partial2 : gmap Key Z := {[ (0, "g") := 3%Z ]}.

End Classical.

(** ** The tiling calculator *)

Module Tiling.

(** Modelled from the spec: [openquake.baselib.general.split_in_blocks] is
    not among the sources.  The spec asks of every partition that "the
    concatenation (as a set) of all Blocks' items equals the original item
    set exactly once each (no duplication, no loss)". *)
Definition partition_complete {A : Type}
    (split_in_blocks : list A → nat → list (list A)) : Prop :=
  ∀ sequence hint, concat (split_in_blocks sequence hint) ≡ₚ sequence.

Fixpoint chunks {A : Type} (fuel size : nat) (l : list A) : list (list A) :=
  match fuel with
  | 0 => []
  | S fuel =>
      match l with
      | [] => []
      | _ => take size l :: chunks fuel size (drop size l)
      end
  end.

(** Modelled from the spec: [openquake.baselib.general.split_in_blocks] is
    not among the sources.  For the tiles the spec says that the output
    domain is split "into [concurrency] contiguous tiles of near-equal
    size", a block holding at least one item: tiles of
    [max 1 (ceil (n / hint))] consecutive sites. *)
Definition contiguous_tiles {A : Type} (sequence : list A) (hint : nat)
    : list (list A) :=
  let n := length sequence in
  chunks n (max 1 ((n + hint - 1) / hint)) sequence.

Fixpoint enumerate_from {A : Type} (start : nat) (l : list A) : list (nat * A) :=
  match l with
  | [] => []
  | x :: l => (start, x) :: enumerate_from (S start) l
  end.

(** Python's [enumerate]. *)
Definition enumerate {A : Type} (l : list A) : list (nat * A) :=
  enumerate_from 0 l.

(** [openquake.baselib.general.split_in_blocks] is not among the sources:
    the calculator is parametric in it. *)
Class SplitInBlocks (Site : Type) : Type :=
  split_in_blocks : list Site → nat → list (list Site).

Section Execute.
Context {Site : Type} {splitter : SplitInBlocks Site}.

(** One entry of [all_args]: [(calculator, SiteCollection(tile),
    position, i, monitor)]; the calculator and the monitor are the same
    objects in every entry and are left out. *)
Record TileArgs : Type := {
  ta_sitecol : list Site;
  ta_position : nat;
  ta_tileno : nat
}.

(** [self.tiles = split_in_blocks(self.sitecol,
    self.oqparam.concurrent_tasks or 1)]. *)
Definition tiles (sitecol : list Site) (concurrent_tasks : nat)
    : list (list Site) :=
  split_in_blocks sitecol
    (if decide (concurrent_tasks = 0) then 1 else concurrent_tasks).

(** The loop of [ClassicalTilingCalculator.execute] that builds
    [all_args] with the running [position]. *)
Definition all_args_loop (tls : list (list Site)) : list TileArgs * nat :=
  foldl (λ '(all_args, position) '(i, tile),
           (all_args ++ [{| ta_sitecol := tile; ta_position := position;
                            ta_tileno := i |}],
            position + length tile))
        ([], 0) (enumerate tls).

Definition all_args (sitecol : list Site) (concurrent_tasks : nat)
    : list TileArgs :=
  (all_args_loop (tiles sitecol concurrent_tasks)).1.

(** The half-open range [[position, position + len(tile))] of a tile. *)
Definition in_range (a : TileArgs) (p : nat) : Prop :=
  ta_position a ≤ p < ta_position a + length (ta_sitecol a).

(** The entries that the loop appends from the tile [i] on, starting at
    [position]. *)
Fixpoint args_from (i position : nat) (tls : list (list Site)) : list TileArgs :=
  match tls with
  | [] => []
  | tile :: tls =>
      {| ta_sitecol := tile; ta_position := position; ta_tileno := i |}
      :: args_from (S i) (position + length tile) tls
  end.

End Execute.

(** *** The positional scatter of the tile results *)

Section Scatter.
(** [V]: the curves of one site (one row of a composite array). *)
Context {V : Type}.

(** numpy's [arr[indices] = values] for a list of indices: the indices
    are checked against the length of [arr], [values] must have one row
    per index or a single row, which is then broadcast. *)
Definition setitem_indices (arr : list V) (indices : list nat) (values : list V)
    : res (list V) :=
  if decide (Forall (λ i, i < length arr) indices) then
    if decide (length values = length indices) then
      Ok (foldl (λ arr '(i, v), <[i := v]> arr) arr (zip indices values))
    else
      match values with
      | [v] => Ok (foldl (λ arr i, <[i := v]> arr) arr indices)
      | _ => Raise ValueError
      end
  else Raise IndexError.

(** The result of one tile: a dictionary with the attribute [indices]
    set by [classical_tiling]. *)
Record TileCurves : Type := {
  tc_items : gmap Key (list V);
  tc_indices : list nat
}.

(** The arrays of the accumulator are mutable objects: the accumulator
    maps a key to the address of its array in the store. *)
Definition scatter_step (acc : gmap Key nat) (curves_by_trt_gsim : TileCurves)
    (store : gmap nat (list V)) (k : Key) : res (gmap nat (list V)) :=
  a ← getitem acc k;
  arr ← getitem store a;
  c ← getitem (tc_items curves_by_trt_gsim) k;
  arr' ← setitem_indices arr (tc_indices curves_by_trt_gsim) c;
  Ok (<[a := arr']> store).

(** [agg_curves_by_trt_gsim(acc, curves_by_trt_gsim)]: works by side
    effect on the arrays of [acc] and returns [acc]. *)
Definition agg_curves_by_trt_gsim (acc : gmap Key nat)
    (curves_by_trt_gsim : TileCurves) (store : gmap nat (list V))
    : res (gmap Key nat * gmap nat (list V)) :=
  store' ← foldl (λ st k, st ≫= λ store, scatter_step acc curves_by_trt_gsim store k)
                 (Ok store) (keys (tc_items curves_by_trt_gsim));
  Ok (acc, store').

(** The items of an accumulator, each key with its array. *)
Definition contents (r : gmap Key nat * gmap nat (list V))
    : list (Key * option (list V)) :=
  (λ '(k, a), (k, r.2 !! a)) <$> map_to_list r.1.

(** The accumulator of [ClassicalTilingCalculator.execute]:
    [{trt_gsim: zero_curves(len(self.sitecol), oq.imtls) for trt_gsim in
    calculator.rlzs_assoc}], a new array for every key. *)
Definition zero_acc_loop (zero : V) (nsites : nat) (trt_gsims : list Key)
    : gmap Key nat * gmap nat (list V) :=
  foldl (λ '(acc, store) trt_gsim,
           let a := fresh (dom store) in
           (<[trt_gsim := a]> acc, <[a := replicate nsites zero]> store))
        (∅, ∅) trt_gsims.

(** No two keys of the accumulator share an array. *)
Definition no_alias (acc : gmap Key nat) : Prop :=
  ∀ k1 k2 a, acc !! k1 = Some a → acc !! k2 = Some a → k1 = k2.

(** The array [arr] with the rows [c] written from [position] on. *)
Definition scattered (position : nat) (c arr : list V) : list V :=
  take position arr ++ c ++ drop (position + length c) arr.

End Scatter.

(** A concrete reduction step: an accumulator of two keys over four sites
    and the result of the tile of the sites 1 and 2, which holds one key. *)
Definition ex_keys : list Key := [(0, "a"); (1, "b")].
Definition ex_acc : gmap Key nat := (zero_acc_loop 0 4 ex_keys).1.
Definition ex_store : gmap nat (list nat) := (zero_acc_loop 0 4 ex_keys).2.
Definition ex_tile : TileCurves :=
  {| tc_items := {[ (0, "a") := [7; 8] ]}; tc_indices := seq 1 2 |}.

(** *** The tile task and the effective tectonic region models *)

(** A tectonic region model; only its [id] is read here
    ([trt_model.id]). *)
Record TrtModel : Type := {
  tm_id : nat;
  tm_trt : string
}.

(** [is_effective_trt_model(result_dict, trt_model)]:
    [any(trt_model.id == trt_id for trt_id, _gsim in result_dict)]. *)
Definition is_effective_trt_model {C : Type}
    (result_dict : gmap Key C) (trt_model : TrtModel) : bool :=
  existsb (λ '(trt_id, _gsim), bool_decide (tm_id trt_model = trt_id))
          (keys result_dict).

(** ['.%04d' % tileno]. *)
Definition format_tileno (tileno : nat) : string :=
  let digits := pretty tileno in
  "." +:+ String.concat "" (replicate (4 - String.length digits) "0") +:+ digits.

(** The collaborators of the calculator that live in
    [openquake.commonlib.source], [openquake.commonlib.parallel] and
    [openquake.hazardlib]; [apply_reduce] stands for
    [parallel.apply_reduce(core_func, (sources, sitecol, gsims_assoc,
    monitor), agg=agg_dicts, acc, concurrent_tasks, weight, key)]. *)
Class Collaborators (Site Source V CSM RlzsAssoc GsimsAssoc : Type) : Type := {
  get_sources : CSM → list Source;
  get_rlzs_assoc : CSM → (TrtModel → bool) → RlzsAssoc;
  rlzs_assoc_keys : RlzsAssoc → list Key;
  get_gsims_by_trt_id : RlzsAssoc → GsimsAssoc;
  zero_curves : nat → list V;
  apply_reduce :
    list Source → list Site → GsimsAssoc → gmap Key (list V) → nat →
    res (gmap Key (list V))
}.

Section ClassicalTiling.
Context {Site Source V CSM RlzsAssoc GsimsAssoc : Type}.
Context {collaborators : Collaborators Site Source V CSM RlzsAssoc GsimsAssoc}.

Record Calculator : Type := {
  concurrent_tasks : nat;
  sitecol : list Site;
  tileno : string;
  composite_source_model : CSM;
  rlzs_assoc : RlzsAssoc
}.

(** [ClassicalCalculator.execute]: all the sources of the composite
    source model, the current site collection.  A site collection built
    from a tile is complete: [len(self.sitecol.complete)] is its
    length. *)
Definition execute (self : Calculator) : res (gmap Key (list V)) :=
  let sources := get_sources (composite_source_model self) in
  let zc := zero_curves (length (sitecol self)) in
  let zerodict : gmap Key (list V) :=
    list_to_map ((λ key, (key, zc)) <$> rlzs_assoc_keys (rlzs_assoc self)) in
  let gsims_assoc := get_gsims_by_trt_id (rlzs_assoc self) in
  apply_reduce sources (sitecol self) gsims_assoc zerodict (concurrent_tasks self).



End ClassicalTiling.

End Tiling.

(** ** The statistics of the realizations *)

Module Statistics.

(** A composite array of curves: the values of every intensity measure
    type, point after point.  The numbers are rationals; the shape checks
    of numpy are left out, every array assigned below has the shape of
    the field it is assigned to. *)
Abbreviation Curves := (gmap string (list Q)).

(** A realization of the logic tree. *)
Record Rlz : Type := {
  ordinal : nat;
  weight : Q
}.

Record OqParam : Type := {
  individual_curves : bool;
  number_of_logic_tree_samples : nat;
  mean_hazard_curves : bool;
  quantile_hazard_curves : list Q;
  (** the dictionary [imtls], in iteration order *)
  imtls : list (string * list Q);
  hazard_maps : bool;
  uniform_hazard_spectra : bool
}.

(** [zero_curves(num_sites, imtls)] of the hazard library: a composite
    array of zeros with one field per intensity measure type. *)
Definition zero_curves (num_sites : nat) (imtls : list (string * list Q)) : Curves :=
  list_to_map ((λ '(imt, imls), (imt, replicate (num_sites * length imls) 0%Q))
                 <$> imtls).

(** [arr[imt]] and [arr[imt] = value] on a composite array. *)
Definition getfield (arr : Curves) (imt : string) : res (list Q) :=
  match arr !! imt with
  | Some a => Ok a
  | None => Raise ValueError
  end.

Definition setfield (arr : Curves) (imt : string) (value : list Q) : res Curves :=
  match arr !! imt with
  | Some _ => Ok (<[imt := value]> arr)
  | None => Raise ValueError
  end.

Definition sumQ (xs : list Q) : Q := foldr Qplus 0%Q xs.

(** Modelled from the spec: [openquake.risklib.scientific.mean_curve] is
    not among the sources.  "Weighted mean of a per-point quantity across
    realizations: [mean[i] = Σ_r weight[r] * value[r][i] / Σ_r weight[r]]
    (or unweighted arithmetic mean if the logic tree uses Monte-Carlo
    sampling with implicit equal weights — [weights = None] signals this
    mode)." *)
Definition mean_curve (values : list (list Q)) (weights : option (list Q)) : list Q :=
  let ws := default (replicate (length values) 1%Q) weights in
  (λ i, (sumQ (zip_with Qmult ws ((λ value, nth i value 0%Q) <$> values))
         / sumQ ws)%Q)
    <$> seq 0 (length (default [] (head values))).

(** [d[q] = qc] on a dictionary keyed by numbers, kept in insertion
    order. *)
Fixpoint dict_set {A : Type} (d : list (Q * A)) (q : Q) (x : A) : list (Q * A) :=
  match d with
  | [] => [(q, x)]
  | (q', x') :: d => if Qeq_bool q' q then (q', x) :: d else (q', x') :: dict_set d q x
  end.

(** The calls of the functions of [openquake.risklib.scientific]. *)
Inductive StatCall : Type :=
| MeanCurve (imt : string)
| QuantileCurve (imt : string) (q : Q).

(** The collaborators of [post_execute]:
    - [self.rlzs_assoc.combine_curves(curves_by_trt_gsim, agg_curves, zc)],
      of [openquake.commonlib.source]: the curves of every realization,
      here keyed by the ordinal of the realization;
    - [scientific.quantile_curve], whose interpolation rule the spec leaves
      open;
    - [self.hazard_maps(curves)] and [calc.make_uhs(hmaps)];
    - ['%s' % q]. *)
Class Services (HMaps UHS : Type) : Type := {
  combine_curves : gmap Key Curves → Curves → gmap nat Curves;
  quantile_curve : list (list Q) → Q → option (list Q) → list Q;
  hazard_maps_of : Curves → HMaps;
  make_uhs : HMaps → UHS;
  format_float : Q → string
}.

Section PostExecute.
Context {HMaps UHS : Type} {services : Services HMaps UHS}.

Inductive Dataset : Type :=
| DCurves (curves : Curves)
| DMaps (hmaps : HMaps)
| DUhs (uhs : UHS).

(** The calculator: its configuration, the attributes that
    [post_execute] sets, the datasets written to the datastore (in
    order) and the calls of the statistics functions (in order). *)
Record Calculator : Type := {
  persistent : bool;
  oqparam : OqParam;
  sitecol : list nat;
  sitecol_complete : list nat;
  realizations : list Rlz;
  curves_by_trt_gsim : option (gmap Key Curves);
  mean_curves : option Curves;
  quantile : option (list (Q * Curves));
  hdf5 : list (string * Dataset);
  stat_calls : list StatCall
}.

Definition set_curves_by_trt_gsim (self : Calculator) (v : gmap Key Curves)
    : Calculator :=
  {| persistent := persistent self; oqparam := oqparam self;
     sitecol := sitecol self; sitecol_complete := sitecol_complete self;
     realizations := realizations self; curves_by_trt_gsim := Some v;
     mean_curves := mean_curves self; quantile := quantile self;
     hdf5 := hdf5 self; stat_calls := stat_calls self |}.

Definition set_mean_curves (self : Calculator) (v : Curves) : Calculator :=
  {| persistent := persistent self; oqparam := oqparam self;
     sitecol := sitecol self; sitecol_complete := sitecol_complete self;
     realizations := realizations self;
     curves_by_trt_gsim := curves_by_trt_gsim self;
     mean_curves := Some v; quantile := quantile self;
     hdf5 := hdf5 self; stat_calls := stat_calls self |}.

Definition set_quantile (self : Calculator) (v : list (Q * Curves)) : Calculator :=
  {| persistent := persistent self; oqparam := oqparam self;
     sitecol := sitecol self; sitecol_complete := sitecol_complete self;
     realizations := realizations self;
     curves_by_trt_gsim := curves_by_trt_gsim self;
     mean_curves := mean_curves self; quantile := Some v;
     hdf5 := hdf5 self; stat_calls := stat_calls self |}.

Definition h5_set (self : Calculator) (name : string) (d : Dataset) : Calculator :=
  {| persistent := persistent self; oqparam := oqparam self;
     sitecol := sitecol self; sitecol_complete := sitecol_complete self;
     realizations := realizations self;
     curves_by_trt_gsim := curves_by_trt_gsim self;
     mean_curves := mean_curves self; quantile := quantile self;
     hdf5 := hdf5 self ++ [(name, d)]; stat_calls := stat_calls self |}.

Definition called (self : Calculator) (c : StatCall) : Calculator :=
  {| persistent := persistent self; oqparam := oqparam self;
     sitecol := sitecol self; sitecol_complete := sitecol_complete self;
     realizations := realizations self;
     curves_by_trt_gsim := curves_by_trt_gsim self;
     mean_curves := mean_curves self; quantile := quantile self;
     hdf5 := hdf5 self; stat_calls := stat_calls self ++ [c] |}.

(** [store_curves(dset, curves)]. *)
Definition store_curves (self : Calculator) (dset : string) (curves : Curves)
    : Calculator :=
  if negb (persistent self) then self
  else
    let oq := oqparam self in
    let self := h5_set self ("hcurves/" +:+ dset) (DCurves curves) in
    if hazard_maps oq || uniform_hazard_spectra oq then
      let hmaps := hazard_maps_of curves in
      let self := if hazard_maps oq
                  then h5_set self ("hmaps/" +:+ dset) (DMaps hmaps)
                  else self in
      if uniform_hazard_spectra oq
      then h5_set self ("uhs/" +:+ dset) (DUhs (make_uhs hmaps))
      else self
    else self.

(** [[curves_by_rlz[rlz][imt] for rlz in rlzs]]. *)
Fixpoint curves_of (curves_by_rlz : gmap nat Curves) (imt : string)
    (rlzs : list Rlz) : res (list (list Q)) :=
  match rlzs with
  | [] => Ok []
  | rlz :: rlzs =>
      c ← getitem curves_by_rlz (ordinal rlz);
      a ← getfield c imt;
      rest ← curves_of curves_by_rlz imt rlzs;
      Ok (a :: rest)
  end.

(** The loop [for imt in oq.imtls: self.mean_curves[imt] = ...]. *)
Definition mean_step (curves_by_rlz : gmap nat Curves) (rlzs : list Rlz)
    (weights : option (list Q)) (st : Calculator * Curves) (imt : string)
    : res (Calculator * Curves) :=
  values ← curves_of curves_by_rlz imt rlzs;
  mc ← setfield st.2 imt (mean_curve values weights);
  Ok (set_mean_curves (called st.1 (MeanCurve imt)) mc, mc).

Definition mean_loop (curves_by_rlz : gmap nat Curves) (rlzs : list Rlz)
    (weights : option (list Q)) (self : Calculator) (zc : Curves)
    : res Calculator :=
  fst <$> foldl (λ st imt, st ≫= λ st, mean_step curves_by_rlz rlzs weights st imt)
                (Ok (set_mean_curves self zc, zc))
                (oqparam self).(imtls).*1.

(** The loop over the quantiles and the intensity measure types; the
    [reshape((nsites, -1))] of the quantile curve changes its shape only,
    which the lists of values do not record. *)
Definition quantile_step (curves_by_rlz : gmap nat Curves) (rlzs : list Rlz)
    (weights : option (list Q)) (q : Q) (st : Calculator * Curves) (imt : string)
    : res (Calculator * Curves) :=
  curves ← curves_of curves_by_rlz imt rlzs;
  qc ← setfield st.2 imt (quantile_curve curves q weights);
  Ok (set_quantile (called st.1 (QuantileCurve imt q))
          (dict_set (default [] (quantile st.1)) q qc), qc).

Definition quantile_loop (curves_by_rlz : gmap nat Curves) (rlzs : list Rlz)
    (weights : option (list Q)) (self : Calculator) (zc : Curves)
    : res Calculator :=
  foldl (λ st q, st ≫= λ self,
           fst <$> foldl (λ st imt, st ≫= λ st,
                            quantile_step curves_by_rlz rlzs weights q st imt)
                         (Ok (set_quantile self
                                (dict_set (default [] (quantile self)) q zc), zc))
                         (oqparam self).(imtls).*1)
        (Ok (set_quantile self [])) (oqparam self).(quantile_hazard_curves).

(** [weights = (None if oq.number_of_logic_tree_samples else
    [rlz.weight for rlz in rlzs])]. *)
Definition statistics_weights (oq : OqParam) (rlzs : list Rlz) : option (list Q) :=
  if decide (number_of_logic_tree_samples oq ≠ 0) then None
  else Some (weight <$> rlzs).

(** [ClassicalCalculator.post_execute(curves_by_trt_gsim)]. *)
Definition post_execute (self : Calculator) (result : gmap Key Curves)
    : res Calculator :=
  let self := set_curves_by_trt_gsim self result in
  let oq := oqparam self in
  let zc := zero_curves (length (sitecol_complete self)) (imtls oq) in
  let curves_by_rlz := combine_curves result zc in
  let rlzs := realizations self in
  let self :=
    if individual_curves oq
    then foldl (λ self '(rlz, curves),
                  store_curves self ("rlz-" +:+ pretty rlz) curves)
               self (map_to_list curves_by_rlz)
    else self in
  if decide (length rlzs = 1) then
    match (map_to_list curves_by_rlz).*2 with
    | [curves] => Ok (set_mean_curves self curves)
    | _ => Raise ValueError
    end
  else
    let weights := statistics_weights oq rlzs in
    let mean := mean_hazard_curves oq in
    self ← (if mean then mean_loop curves_by_rlz rlzs weights self zc
            else Ok self);
    self ← quantile_loop curves_by_rlz rlzs weights self zc;
    let self := if mean
                then store_curves self "mean" (default ∅ (mean_curves self))
                else self in
    Ok (foldl (λ self '(q, qc),
                   store_curves self ("quantile-" +:+ format_float q) qc)
                self (default [] (quantile self))).

(** *** The mean curves *)

(** The values of a realization for an intensity measure type, and the
    weight that the mean gives to the realization. *)
Definition rlz_curve (curves_by_rlz : gmap nat Curves) (imt : string) (rlz : Rlz)
    : list Q :=
  default [] (curves_by_rlz !! ordinal rlz ≫= λ c, c !! imt).

Definition rlz_weight (oq : OqParam) (rlz : Rlz) : Q :=
  if decide (number_of_logic_tree_samples oq ≠ 0) then 1%Q else weight rlz.

End PostExecute.

(** *** Concrete runs: one site, one intensity measure type, one level *)

Definition ex_oqparam : OqParam :=
  {| individual_curves := true; number_of_logic_tree_samples := 0;
     mean_hazard_curves := true; quantile_hazard_curves := [];
     imtls := [("PGA", [(1 # 10)%Q])];
     hazard_maps := false; uniform_hazard_spectra := false |}.

Definition ex_calculator (rlzs : list Rlz) : @Calculator unit unit :=
  {| persistent := true; oqparam := ex_oqparam; sitecol := [0];
     sitecol_complete := [0]; realizations := rlzs;
     curves_by_trt_gsim := None; mean_curves := None; quantile := None;
     hdf5 := []; stat_calls := [] |}.

Definition ex_rlz0 : Rlz := {| ordinal := 0; weight := (6 # 10)%Q |}.
Definition ex_rlz1 : Rlz := {| ordinal := 1; weight := (4 # 10)%Q |}.

(** The curves by realization of the two runs. *)
Definition ex_combine_one (_ : gmap Key Curves) (_ : Curves) : gmap nat Curves :=
  {[ 0 := {[ "PGA" := [1%Q] ]} ]}.
Definition ex_combine_two (_ : gmap Key Curves) (_ : Curves) : gmap nat Curves :=
  <[ 0 := {[ "PGA" := [1%Q] ]} ]> {[ 1 := {[ "PGA" := [2%Q] ]} ]}.

Definition ex_quantile_curve (values : list (list Q)) (_ : Q) (_ : option (list Q))
    : list Q :=
  default [] (head values).

Definition ex_services
    (combine : gmap Key Curves → Curves → gmap nat Curves) : Services unit unit :=
  {| combine_curves := combine; quantile_curve := ex_quantile_curve;
     hazard_maps_of := λ _, (); make_uhs := λ _, (); format_float := λ _, "q" |}.

Definition ex_post_execute (combine : gmap Key Curves → Curves → gmap nat Curves)
    (rlzs : list Rlz) : res (@Calculator unit unit) :=
  post_execute (services := ex_services combine) (ex_calculator rlzs) ∅.

End Statistics.

(** ** The accumulator of the scenario risk calculator *)

Module ScenarioRisk.

Record Asset : Type := {
  (** [asset.id] *)
  asset_id : string
}.

(** The numbers of the loss matrices, with numpy's mean and standard
    deviation ([ddof=1]) of a row and the sum of two arrays. *)
Class Numpy (F : Type) : Type := {
  row_mean : list F → F;
  row_std : list F → F;
  array_add : list F → list F → list F
}.

Section Core.
Context {F : Type} {numpy : Numpy F}.

(** [lpa(assets, means, stddevs)]:
    [[(a.id, m, s) for a, m, s in zip(assets, means, stddevs)]]; [zip]
    stops at the end of its shortest argument. *)
Fixpoint lpa {M : Type} (assets : list Asset) (means : list M) (stddevs : list F)
    : list (string * M * F) :=
  match assets, means, stddevs with
  | a :: assets, m :: means, s :: stddevs => (asset_id a, m, s) :: lpa assets means stddevs
  | _, _, _ => []
  end.

(** An output of [riskmodel.gen_outputs]; the loss matrices have one row
    per asset. *)
Record Output : Type := {
  hid : nat;
  loss_type : string;
  assets : list Asset;
  loss_matrix : list (list F);
  aggregate_losses : list F;
  insured_loss_matrix : option (list (list F));
  insured_losses : list F
}.

(** The values of the accumulator: a Python list of triples whose mean
    is the whole array of the means, or an array of losses. *)
Inductive Value : Type :=
| Triples (l : list (string * list F * F))
| Losses (a : list F).

(** [x + y] on these values: lists are concatenated, arrays are summed;
    the sum of a list of triples and an array of numbers is an error. *)
Definition value_add (x y : Value) : res Value :=
  match x, y with
  | Triples a, Triples b => Ok (Triples (a ++ b))
  | Losses a, Losses b => Ok (Losses (array_add a b))
  | _, _ => Raise ValueError
  end.

(** Modelled from the spec: [openquake.baselib.general.AccumDict] is not
    among the sources.  "Accumulators compose: merging two Accumulators
    merges values for keys present in both and unions keys present in
    only one": [self += {key: value}] adds [value] to the value of [key],
    or sets it when [self] has no such key. *)
Definition accum_iadd (self : gmap (string * string) Value)
    (key : string * string) (value : Value) : res (gmap (string * string) Value) :=
  match self !! key with
  | Some x => y ← value_add x value; Ok (<[key := y]> self)
  | None => Ok (<[key := value]> self)
  end.

(** [result[hid] += {key: value}]. *)
Definition iadd_at (result : gmap nat (gmap (string * string) Value))
    (h : nat) (key : string * string) (value : Value)
    : res (gmap nat (gmap (string * string) Value)) :=
  d ← getitem result h;
  d ← accum_iadd d key value;
  Ok (<[h := d]> result).

(** The body of the inner loop of [scenario_risk]; [means] is a tuple
    of one element, the array of the means. *)
Definition out_step (result : gmap nat (gmap (string * string) Value))
    (out : Output) : res (gmap nat (gmap (string * string) Value)) :=
  let assets := assets out in
  let means := [row_mean <$> loss_matrix out] in
  let stddevs := row_std <$> loss_matrix out in
  result ← iadd_at result (hid out) ("asset-loss", loss_type out)
             (Triples (lpa assets means stddevs));
  result ← iadd_at result (hid out) ("agg", loss_type out)
             (Losses (aggregate_losses out));
  match insured_loss_matrix out with
  | Some insured =>
      let means := [row_mean <$> insured] in
      let stddevs := row_std <$> insured in
      result ← iadd_at result (hid out) ("asset-ins", loss_type out)
                 (Triples (lpa assets means stddevs));
      iadd_at result (hid out) ("ins", loss_type out)
              (Losses (insured_losses out))
  | None => Ok result
  end.

(** [scenario_risk]: [realizations] are the ordinals of
    [rlzs_assoc.realizations], [outputs] the lists yielded by
    [riskmodel.gen_outputs]. *)
Definition scenario_risk (realizations : list nat) (outputs : list (list Output))
    : res (gmap nat (gmap (string * string) Value)) :=
  let result : gmap nat (gmap (string * string) Value) :=
    list_to_map ((λ ordinal, (ordinal, ∅)) <$> realizations) in
  foldl (λ st out_by_rlz,
           foldl (λ st out, st ≫= λ result, out_step result out) st out_by_rlz)
        (Ok result) outputs.

(** The list of triples stored under a key, empty when there is none. *)
Definition triples_at (result : gmap nat (gmap (string * string) Value))
    (h : nat) (key : string * string) : list (string * list F * F) :=
  match result !! h ≫= λ d, d !! key with
  | Some (Triples l) => l
  | _ => []
  end.

(** The claim on the asset losses as it is written: for every output
    with assets, the list under its key holds exactly one triple. *)
Definition one_triple_spec (outputs : list (list Output))
    (result : gmap nat (gmap (string * string) Value)) : Prop :=
  ∀ out, out ∈ concat outputs → assets out ≠ [] →
    length (triples_at result (hid out) ("asset-loss", loss_type out)) = 1
    ∧ (is_Some (insured_loss_matrix out) →
       length (triples_at result (hid out) ("asset-ins", loss_type out)) = 1).

(** The triples that one output adds under ['asset-loss'] and under
    ['asset-ins']. *)
Definition loss_triples (out : Output) : list (string * list F * F) :=
  lpa (assets out) [row_mean <$> loss_matrix out] (row_std <$> loss_matrix out).

Definition insured_triples (out : Output) : list (string * list F * F) :=
  match insured_loss_matrix out with
  | Some insured => lpa (assets out) [row_mean <$> insured] (row_std <$> insured)
  | None => []
  end.

(** The keys with lists of triples and the keys with arrays. *)
Definition kind_ok (key_type : string) (v : Value) : Prop :=
  match v with
  | Triples _ => key_type = "asset-loss" ∨ key_type = "asset-ins"
  | Losses _ => key_type = "agg" ∨ key_type = "ins"
  end.

Definition kinds (result : gmap nat (gmap (string * string) Value)) : Prop :=
  ∀ h d kt lt v, result !! h = Some d → d !! (kt, lt) = Some v → kind_ok kt v.

Definition triples_of (v : Value) : list (string * list F * F) :=
  match v with
  | Triples l => l
  | Losses _ => []
  end.

End Core.

(** *** A concrete run: two risk inputs for the realization 0 *)

Definition ex_mean (row : list Z) : Z := (foldr Z.add 0 row / Z.of_nat (length row))%Z.
Definition ex_std (row : list Z) : Z := 0%Z.
Definition ex_add (a b : list Z) : list Z := zip_with Z.add a b.
Definition ex_numpy : Numpy Z :=
  {| row_mean := ex_mean; row_std := ex_std; array_add := ex_add |}.

Definition ex_out1 : @Output Z :=
  {| hid := 0; loss_type := "structural";
     assets := [ {| asset_id := "a1" |}; {| asset_id := "a2" |} ];
     loss_matrix := [[10; 20]; [30; 50]]%Z;
     aggregate_losses := [40; 70]%Z;
     insured_loss_matrix := None; insured_losses := [] |}.

Definition ex_out2 : @Output Z :=
  {| hid := 0; loss_type := "structural";
     assets := [ {| asset_id := "a3" |} ];
     loss_matrix := [[1; 3]]%Z;
     aggregate_losses := [1; 3]%Z;
     insured_loss_matrix := None; insured_losses := [] |}.

Definition ex_outputs : list (list (@Output Z)) := [[ex_out1]; [ex_out2]].

End ScenarioRisk.

(** ** The collectors of [readinput] *)

Module ReadInput.

(** A directory tree: an entry is a file or a directory with its entries,
    in the order of [os.listdir]. *)
Inductive Entry : Type :=
| File (fname : string)
| Dir (fname : string) (entries : list Entry).

Definition slash : Ascii.ascii := Ascii.ascii_of_nat 47.

Fixpoint endswith_slash (s : string) : bool :=
  match s with
  | EmptyString => false
  | String c EmptyString => Ascii.eqb c slash
  | String _ rest => endswith_slash rest
  end.

(** [os.path.join(dirpath, fname)] for a name given by [os.listdir]. *)
Definition join (dirpath fname : string) : string :=
  match dirpath with
  | EmptyString => fname
  | _ => if endswith_slash dirpath then dirpath +:+ fname
         else dirpath +:+ "/" +:+ fname
  end.

(** The default condition, [lambda fullname: True]. *)
Definition accept_all (fullname : string) : bool := true.

(** The body of the loop of [collect_files] for one name of
    [os.listdir(dirpath)]; the recursive call is [collect_files(fullname)],
    with the default condition. *)
Fixpoint collect_entry (dirpath : string) (cond : string → bool) (e : Entry)
    : list string :=
  match e with
  | File fname =>
      let fullname := join dirpath fname in
      if cond fullname then [fullname] else []
  | Dir fname sub =>
      let fullname := join dirpath fname in
      flat_map (collect_entry fullname accept_all) sub
  end.

(** [collect_files(dirpath, cond)], on the entries of [dirpath]. *)
Definition collect_files (dirpath : string) (cond : string → bool)
    (entries : list Entry) : list string :=
  flat_map (collect_entry dirpath cond) entries.

(** The full names of the files below a directory, at any depth. *)
Inductive file_below : string → list Entry → string → Prop :=
| file_here (dirpath : string) (entries : list Entry) (fname : string) :
    File fname ∈ entries → file_below dirpath entries (join dirpath fname)
| file_deeper (dirpath : string) (entries : list Entry) (fname : string)
    (sub : list Entry) (fullname : string) :
    Dir fname sub ∈ entries →
    file_below (join dirpath fname) sub fullname →
    file_below dirpath entries fullname.

(** *** The configuration files *)

(** [s.endswith(suffix)]. *)
Definition endswith (s suffix : string) : bool :=
  let n := String.length s in
  let m := String.length suffix in
  (m <=? n) && String.eqb (String.substring (n - m) m s) suffix.

Fixpoint basename_from (path last : string) : string :=
  match path with
  | EmptyString => last
  | String c rest =>
      if Ascii.eqb c slash then basename_from rest ""
      else basename_from rest (last +:+ String c "")
  end.

(** [os.path.basename(path)]: what follows the last slash. *)
Definition basename (path : string) : string := basename_from path "".

(** The file system as [get_params] sees it: [os.path.exists], and the
    extraction of an archive into a new temporary directory, which gives
    the directory and its entries, or the error of [zipfile.ZipFile]. *)
Record FileSystem : Type := {
  fs_exists : string → bool;
  fs_unzip : string → res (string * list Entry)
}.

(** [extract_from_zip(path, candidates)]. *)
Definition extract_from_zip (fs : FileSystem) (path : string)
    (candidates : list string) : res (list string) :=
  '(temp_dir, entries) ← fs_unzip fs path;
  Ok (filter (λ f, basename f ∈ candidates)
             (collect_files temp_dir accept_all entries)).

(** The end of [get_params], from [cp.read(job_inis)] on: it is given
    the list [job_inis] and the files that the parser could open, the
    others being skipped by [ConfigParser.read]. *)
Class Populate (Params : Type) : Type :=
  populate : list string → list string → res Params.

Section GetParams.
Context {Params : Type} {populate_params : Populate Params}.

(** [get_params(job_inis)]. *)
Definition get_params (fs : FileSystem) (job_inis : list string) : res Params :=
  job_inis ←
    match job_inis with
    | [ini] =>
        if endswith ini ".zip"
        then extract_from_zip fs ini
               ["job_hazard.ini"; "job_haz.ini"; "job.ini"; "job_risk.ini"]
        else Ok job_inis
    | _ => Ok job_inis
    end;
  let not_found := filter (λ ini, fs_exists fs ini = false) job_inis in
  if decide (length not_found = length job_inis) then
    (* raise IOError('File not found: %s' % not_found[0]) *)
    match not_found with
    | ini :: _ => Raise (IOError ("File not found: " +:+ ini))
    | [] => Raise IndexError
    end
  else populate job_inis (filter (λ ini, fs_exists fs ini = true) job_inis).

(** The lists that are not a single archive. *)
Definition plain (job_inis : list string) : Prop :=
  match job_inis with
  | [ini] => endswith ini ".zip" = false
  | _ => True
  end.

End GetParams.

End ReadInput.

(** ** The reduction of the tile results *)

Module TilingReduce.
Import Tiling.

Section Reduce.
Context {Site V : Type}.

(** The result of the task of one entry of [all_args]: the curves of the
    tile with [indices = range(position, position + len(sitecol))], as
    [classical_tiling] sets them. *)
Definition tile_result (a : @TileArgs Site) (curves_by_trt_gsim : gmap Key (list V))
    : @TileCurves V :=
  {| tc_items := curves_by_trt_gsim;
     tc_indices := seq (ta_position a) (length (ta_sitecol a)) |}.

(** [parallel.starmap(classical_tiling, all_args).reduce(
    agg_curves_by_trt_gsim, acc)]: the results of the tasks are folded
    into the accumulator with [agg_curves_by_trt_gsim], one after the
    other. *)
Definition reduce_tiles (acc : gmap Key nat) (store : gmap nat (list V))
    (results : list (@TileCurves V)) : res (gmap Key nat * gmap nat (list V)) :=
  foldl (λ st result, st ≫= λ '(acc, store), agg_curves_by_trt_gsim acc result store)
        (Ok (acc, store)) results.

(** What the task of a tile must return for the reduction: the keys of
    the accumulator, each with one curve per site of the tile. *)
Definition tile_curves_ok (keys : gset Key) (a : @TileArgs Site)
    (curves_by_trt_gsim : gmap Key (list V)) : Prop :=
  dom curves_by_trt_gsim = keys
  ∧ ∀ k c, curves_by_trt_gsim !! k = Some c → length c = length (ta_sitecol a).

(** A result whose indices are a range inside arrays of [N] rows, with
    the keys [keys] and one curve per index. *)
Definition result_fits (keys : gset Key) (N : nat) (r : @TileCurves V) : Prop :=
  ∃ position T, tc_indices r = seq position T ∧ position + T ≤ N
    ∧ dom (tc_items r) = keys
    ∧ ∀ k c, tc_items r !! k = Some c → length c = T.

(** Results that write at different positions. *)
Definition ranges_disjoint (r1 r2 : @TileCurves V) : Prop :=
  ∀ i, i ∈ tc_indices r1 → i ∉ tc_indices r2.

Definition pairwise_disjoint (results : list (@TileCurves V)) : Prop :=
  ∀ i j r1 r2, i ≠ j → results !! i = Some r1 → results !! j = Some r2 →
    ranges_disjoint r1 r2.

(** Every key of the accumulator owns an array of [N] rows. *)
Definition arrays_ok (acc : gmap Key nat) (N : nat) (store : gmap nat (list V))
    : Prop :=
  ∀ k a, acc !! k = Some a → ∃ arr, store !! a = Some arr ∧ length arr = N.

End Reduce.

(** Two tiles of five sites: the curves that their tasks return for the
    keys of [ex_keys]. *)
Definition ex_tile_curves : list (gmap Key (list nat)) :=
  [ <[ (0, "a") := [1; 2; 3] ]> {[ (1, "b") := [4; 5; 6] ]};
    <[ (0, "a") := [7; 8] ]> {[ (1, "b") := [9; 10] ]} ].

End TilingReduce.

(** ** The totals of [scenario_risk] *)

Module ScenarioRiskTotals.
Import ScenarioRisk.

Section Totals.
Context {F : Type} {numpy : Numpy F}.

(** [result[h][key]], when both keys are present. *)
Definition value_at (result : gmap nat (gmap (string * string) (@Value F)))
    (h : nat) (key : string * string) : option (@Value F) :=
  result !! h ≫= λ d, d !! key.



(** The value left by [+=] under a key that held [o]. *)
Definition merge_value (o : option (@Value F)) (v : @Value F) : @Value F :=
  match o, v with
  | Some (Triples a), Triples b => Triples (a ++ b)
  | Some (Losses a), Losses b => Losses (array_add a b)
  | _, _ => v
  end.

(** The updates [result[out.hid] += {(key_type, out.loss_type): value}]
    of one turn of the inner loop, in order. *)
Definition out_items (out : @Output F)
    : list (nat * (string * string) * @Value F) :=
  [ (hid out, ("asset-loss", loss_type out), Triples (loss_triples out));
    (hid out, ("agg", loss_type out), Losses (aggregate_losses out)) ]
  ++ match insured_loss_matrix out with
     | Some _ =>
         [ (hid out, ("asset-ins", loss_type out), Triples (insured_triples out));
           (hid out, ("ins", loss_type out), Losses (insured_losses out)) ]
     | None => []
     end.

Definition add_items (result : res (gmap nat (gmap (string * string) (@Value F))))
    (items : list (nat * (string * string) * @Value F))
    : res (gmap nat (gmap (string * string) (@Value F))) :=
  foldl (λ st '(h, key, v), st ≫= λ result, iadd_at result h key v) result items.

(** The outputs of the realization [h] and the loss type [lt]. *)
Definition outputs_of (h : nat) (lt : string) (outputs : list (list (@Output F)))
    : list (@Output F) :=
  filter (λ out, hid out = h ∧ loss_type out = lt) (concat outputs).


End Totals.

Definition ex_out3 : @Output Z :=
  {| hid := 0; loss_type := "structural";
     assets := [ {| asset_id := "a3" |} ];
     loss_matrix := [[1; 3]]%Z;
     aggregate_losses := [1; 3]%Z;
     insured_loss_matrix := Some [[0; 2]]%Z; insured_losses := [0; 2]%Z |}.

Definition ex_result : gmap nat (gmap (string * string) (@Value Z)) :=
  match scenario_risk (numpy := ex_numpy) [0; 1] [[ex_out1]; [ex_out3]] with
  | Ok result => result
  | Raise _ => ∅
  end.

Definition ex_out4 : @Output Z :=
  {| hid := 7; loss_type := "structural";
     assets := [ {| asset_id := "a1" |} ];
     loss_matrix := [[1; 3]]%Z;
     aggregate_losses := [1; 3]%Z;
     insured_loss_matrix := None; insured_losses := [] |}.

End ScenarioRiskTotals.

(** ** The core function of the classical calculator *)

Module ClassicalCore.
Import Classical.

(** The sources and the ground shaking intensity models of the hazard
    library, as [classical] uses them: [src.trt_model_id], [str(gsim)]
    and [hazard_curves_per_trt], which gives one array of curves per
    model; the sites, the levels, the filters and the monitor are the
    same in every call and are left out. *)
Class Hazardlib (Source Gsim Curves : Type) : Type := {
  trt_model_id : Source → nat;
  gsim_str : Gsim → string;
  hazard_curves_per_trt : list Source → list Gsim → list Curves
}.

(** [{k: v for k, v in items}]: a later item replaces an earlier one of
    the same key. *)
Definition dict_of `{Countable K} {V : Type} (items : list (K * V)) : gmap K V :=
  foldl (λ d '(k, v), <[k := v]> d) ∅ items.

Section Core.
Context {Source Gsim Curves : Type} {hazardlib : Hazardlib Source Gsim Curves}
        {curves_agg : AggCurves Curves}.

(** [classical(sources, sitecol, gsims_assoc, monitor)]. *)
Definition classical (sources : list Source) (gsims_assoc : gmap nat (list Gsim))
    : res (gmap Key Curves) :=
  match sources with
  | [] => Raise IndexError
  | src :: _ =>
      let trt_model_id := trt_model_id src in
      gsims ← getitem gsims_assoc trt_model_id;
      let curves_by_gsim := hazard_curves_per_trt sources gsims in
      Ok (dict_of ((λ '(gsim, curves), ((trt_model_id, gsim_str gsim), curves))
                     <$> zip gsims curves_by_gsim))
  end.

(** [ClassicalCalculator.execute].  [rlzs_assoc] is the sequence of the
    keys of [self.rlzs_assoc], [zc] the zero curves and [gsims_assoc]
    the dictionary [self.rlzs_assoc.get_gsims_by_trt_id()].

    Modelled from the spec: [openquake.commonlib.parallel] is not among
    the sources.  A block is "an ordered sequence of WorkItems assigned
    to one worker invocation", and the reducer "folds partials into
    [initial] using [merge] per key, in arrival order"; "if one Block's
    [coreFn] invocation raises, [dispatch]/[reduce] must raise".  The
    blocks are given in the order of arrival of their results. *)
Definition execute (rlzs_assoc : list Key) (zc : Curves)
    (gsims_assoc : gmap nat (list Gsim)) (blocks : list (list Source))
    : res (gmap Key Curves) :=
  let zerodict : gmap Key Curves := dict_of ((λ key, (key, zc)) <$> rlzs_assoc) in
  foldl (λ st block, st ≫= λ acc,
           val ← classical block gsims_assoc; agg_dicts acc val)
        (Ok zerodict) blocks.

End Core.

(** A hazard library on numbers: a source is its [trt_model_id], a model
    is its name, and the curves of a model are the number of sources. *)
Definition ex_hazardlib : Hazardlib nat string Z :=
  {| trt_model_id := λ src, src;
     gsim_str := λ gsim, gsim;
     hazard_curves_per_trt := λ sources gsims, (λ _, Z.of_nat (length sources)) <$> gsims |}.

Definition ex_gsims_assoc : gmap nat (list string) :=
  <[ 0 := ["a"; "b"] ]> {[ 1 := ["c"] ]}.

Definition ex_classical : gmap Key Z :=
  match classical (hazardlib := ex_hazardlib) [0; 0; 1] ex_gsims_assoc with
  | Ok d => d
  | Raise _ => ∅
  end.

End ClassicalCore.

(** ** The statistics of a calculator that is not persistent *)

Module StatisticsStore.
Import Statistics.

(** The calculator of a tile, built with [persistent=False], on the
    configuration of the runs above with the quantile 1/2. *)
Definition ex_tile_oqparam : OqParam :=
  {| individual_curves := true; number_of_logic_tree_samples := 0;
     mean_hazard_curves := true; quantile_hazard_curves := [(1 # 2)%Q];
     imtls := [("PGA", [(1 # 10)%Q])];
     hazard_maps := true; uniform_hazard_spectra := true |}.

Definition ex_tile_calculator : @Calculator unit unit :=
  {| persistent := false; oqparam := ex_tile_oqparam; sitecol := [0];
     sitecol_complete := [0]; realizations := [ex_rlz0; ex_rlz1];
     curves_by_trt_gsim := None; mean_curves := None; quantile := None;
     hdf5 := []; stat_calls := [] |}.

Definition ex_tile_post_execute : res (@Calculator unit unit) :=
  post_execute (services := ex_services ex_combine_two) ex_tile_calculator ∅.


End StatisticsStore.

(** ** The source models of [readinput] *)

Module SourceModels.
Import ReadInput.

(** The exceptions of these functions: a [ValueError] with its message,
    the [ValueError] of [get_source_models] with the arguments of its
    message ("Found in %r a tectonic region type %r inconsistent with
    the ones in %r"), the [InvalidFile] of [get_source_models] with the
    file name and the message of the parser, the [RuntimeError] of
    [get_composite_source_model], the division by zero, and any other
    exception of a collaborator. *)
Inductive Exc : Type :=
| ValueError (msg : string)
| ValueError_inconsistent_trt (sm trt fname : string)
| InvalidFile_obsolete_model (fname msg : string)
| RuntimeError_prefilter
| ZeroDivisionError
| OtherError (name : string).

Inductive outcome (A : Type) : Type :=
| Return (a : A)
| Throw (e : Exc).
Arguments Return {A} a.
Arguments Throw {A} e.

#[global] Instance outcome_bind : MBind outcome := λ A B f m,
  match m with
  | Return a => f a
  | Throw e => Throw e
  end.

(** A source: [src.source_id], [src.trt_model_id] and [src.weight], which
    is [None] or a number. *)
Record Source : Type := {
  source_id : string;
  trt_model_id : nat;
  weight : option Q
}.

Section Models.
Context {Gsim GsimLt : Type}.

(** A [TrtModel]: iterating on it gives its sources. *)
Record TrtModel : Type := {
  trt : string;
  sources : list Source;
  id : nat;
  gsims : list Gsim
}.

(** A realization of the source model logic tree. *)
Record LtRlz : Type := {
  value : string;
  lt_path : list string;
  rlz_weight : Q
}.

(** [SourceModel(name, weight, path, trt_models, gsim_lt, ordinal,
    samples)]. *)
Record SourceModel : Type := {
  name : string;
  sm_weight : Q;
  path : list string;
  trt_models : list TrtModel;
  gsim_lt : GsimLt;
  ordinal : nat;
  samples : nat
}.

(** [CompositeSourceModel(source_model_lt, smodels)]; of the logic tree
    the tectonic region types are kept, which [get_source_models]
    updates. *)
Record CompositeSourceModel : Type := {
  tectonic_region_types : gset string;
  smodels : list SourceModel
}.

(** What the generators yield: the source models, the tectonic region
    types of the logic tree at the end, and the exception that ended
    the iteration, if any. *)
Abbreviation Yielded := (list SourceModel * gset string * option Exc)%type.

(** The collaborators:
    - [os.path.exists] and [writetmp(gzip.open(fname).read())];
    - [os.path.join(oqparam.base_path, sm)];
    - [logictree.get_effective_rlzs(source_model_lt)] and
      [source_model_lt.samples_by_lt_path()[smpath]];
    - [source.parse_source_model(fname, converter, apply_unc)], where
      [apply_unc] is made from [smpath], and the collection of the
      models without their sources,
      [TrtModel.collect(read_nodes(fname, ...).next())]; both build new
      objects at every call;
    - [oqparam.inputs.get('gsim_logic_tree')], [get_gsim_lt(oqparam,
      trts)], [gsim_lt.values], [gsim_lt.get_num_paths()] and
      [logictree.DummyGsimLogicTree()];
    - the source models that [get_composite_source_model] builds when
      it prefilters, from [get_filtered_source_models] and
      [split_sources_and_count_ruptures]. *)
Class SourceReader : Type := {
  exists_ : string → bool;
  gunzip_to_tmp : string → outcome string;
  join_base_path : string → string;
  get_effective_rlzs : list LtRlz;
  samples_by_lt_path : list string → outcome nat;
  parse_source_model : string → list string → outcome (list TrtModel);
  collect_trt_models : string → outcome (list TrtModel);
  has_gsim_logic_tree : bool;
  get_gsim_lt : list string → outcome GsimLt;
  gsim_lt_values : GsimLt → gmap string (list Gsim);
  get_num_paths : GsimLt → nat;
  DummyGsimLogicTree : GsimLt;
  prefiltered_source_models : outcome CompositeSourceModel
}.

Context {reader : SourceReader}.

(** [possibly_gunzip(fname)]. *)
Definition possibly_gunzip (fname : string) : outcome string :=
  let is_gz := exists_ fname && endswith fname ".gz" in
  let there_is_gz := negb (exists_ fname) && exists_ (fname +:+ ".gz") in
  if is_gz then gunzip_to_tmp fname
  else if there_is_gz then gunzip_to_tmp (fname +:+ ".gz")
  else Return fname.

(** The messages of the parser that [get_source_models] turns into an
    [InvalidFile]. *)
Definition obsolete_messages : list string :=
  [ "Surface does not conform with Aki & Richards convention";
    "Edges points are not in the right order" ].

(** The models of a file: [source.parse_source_model] and the handler
    of its [ValueError] when the sources are kept in memory, the
    collection of the models otherwise. *)
Definition read_trt_models (in_memory : bool) (fname : string)
    (smpath : list string) : outcome (list TrtModel) :=
  if in_memory then
    match parse_source_model fname smpath with
    | Throw (ValueError e) =>
        if decide (e ∈ obsolete_messages)
        then Throw (InvalidFile_obsolete_model fname e)
        else Throw (ValueError e)
    | r => r
    end
  else collect_trt_models fname.

(** The loop [for trt_model in trt_models] of the check of the tectonic
    region types, which sets [trt_model.gsims]. *)
Fixpoint check_trts (sm fname : string) (values : gmap string (list Gsim))
    (trt_models : list TrtModel) : outcome (list TrtModel) :=
  match trt_models with
  | [] => Return []
  | trt_model :: trt_models =>
      match values !! trt trt_model with
      | None => Throw (ValueError_inconsistent_trt sm (trt trt_model) fname)
      | Some gs =>
          trt_models ← check_trts sm fname values trt_models;
          Return ({| trt := trt trt_model; sources := sources trt_model;
                     id := id trt_model; gsims := gs |} :: trt_models)
      end
  end.

(** [trt_model.id = trt_id], and [src.trt_model_id = trt_id] for its
    sources. *)
Definition set_ids (trt_id : nat) (trt_model : TrtModel) : TrtModel :=
  {| trt := trt trt_model;
     sources := (λ src, {| source_id := source_id src; trt_model_id := trt_id;
                           weight := weight src |}) <$> sources trt_model;
     id := trt_id; gsims := gsims trt_model |}.

(** The loop that numbers the models of a source model, from [trt_id]
    on; it gives the models and the next number. *)
Fixpoint number_trt_models (trt_models : list TrtModel) (trt_id : nat)
    : list TrtModel * nat :=
  match trt_models with
  | [] => ([], trt_id)
  | trt_model :: trt_models =>
      let '(rest, next) := number_trt_models trt_models (S trt_id) in
      (set_ids trt_id trt_model :: rest, next)
  end.

(** [rlz.weight / num_samples]. *)
Definition divide (w : Q) (n : nat) : outcome Q :=
  if decide (n = 0) then Throw ZeroDivisionError
  else Return (w / inject_Z (Z.of_nat n))%Q.

(** One turn of the loop of [get_source_models]: the tectonic region
    types of the logic tree after it, and the next number with the
    source model that is yielded, or the exception. *)
Definition source_model_of (in_memory : bool) (trt_id : nat) (types : gset string)
    (i : nat) (rlz : LtRlz) : gset string * outcome (nat * SourceModel) :=
  let sm := value rlz in
  let smpath := lt_path rlz in
  match (num_samples ← samples_by_lt_path smpath;
         fname ← possibly_gunzip (join_base_path sm);
         trt_models ← read_trt_models in_memory fname smpath;
         Return (num_samples, fname, trt_models)) with
  | Throw e => (types, Throw e)
  | Return (num_samples, fname, trt_models) =>
      let trts := trt <$> trt_models in
      (types ∪ list_to_set trts,
       '(trt_models, gsim_lt) ←
         (if has_gsim_logic_tree then
            gsim_lt ← get_gsim_lt trts;
            trt_models ← check_trts sm fname (gsim_lt_values gsim_lt) trt_models;
            Return (trt_models, gsim_lt)
          else Return (trt_models, DummyGsimLogicTree));
       weight ← divide (rlz_weight rlz) num_samples;
       let '(trt_models, trt_id) := number_trt_models trt_models trt_id in
       Return (trt_id,
               {| name := sm; sm_weight := weight; path := smpath;
                  trt_models := trt_models; gsim_lt := gsim_lt; ordinal := i;
                  samples := num_samples |}))
  end.

Fixpoint source_models_from (in_memory : bool) (trt_id : nat) (types : gset string)
    (rlzs : list (nat * LtRlz)) : Yielded :=
  match rlzs with
  | [] => ([], types, None)
  | (i, rlz) :: rlzs =>
      match source_model_of in_memory trt_id types i rlz with
      | (types, Throw e) => ([], types, Some e)
      | (types, Return (trt_id, source_model)) =>
          let '(rest, types, err) := source_models_from in_memory trt_id types rlzs in
          (source_model :: rest, types, err)
      end
  end.

(** [get_source_models(oqparam, source_model_lt, sitecol, in_memory)];
    [types] are the tectonic region types of the logic tree at the
    call. *)
Definition get_source_models (in_memory : bool) (types : gset string) : Yielded :=
  source_models_from in_memory 0 types (Tiling.enumerate get_effective_rlzs).

(** The loop of [get_composite_source_model] on the models of a source
    model when it does not prefilter: [trt_model.id = trt_id]. *)
Fixpoint renumber_trt_models (trt_models : list TrtModel) (trt_id : nat)
    : list TrtModel * nat :=
  match trt_models with
  | [] => ([], trt_id)
  | trt_model :: trt_models =>
      let '(rest, next) := renumber_trt_models trt_models (S trt_id) in
      ({| trt := trt trt_model; sources := sources trt_model; id := trt_id;
          gsims := gsims trt_model |} :: rest, next)
  end.

Fixpoint renumber (source_models : list SourceModel) (trt_id : nat)
    : list SourceModel :=
  match source_models with
  | [] => []
  | source_model :: source_models =>
      let '(trt_models, next) := renumber_trt_models (trt_models source_model) trt_id in
      {| name := name source_model; sm_weight := sm_weight source_model;
         path := path source_model; trt_models := trt_models;
         gsim_lt := gsim_lt source_model; ordinal := ordinal source_model;
         samples := samples source_model |} :: renumber source_models next
  end.

(** [get_composite_source_model(oqparam, sitecol, prefilter,
    in_memory)]; [types] are the tectonic region types of the logic tree
    that [get_source_model_lt] reads. *)
Definition get_composite_source_model (prefilter in_memory : bool)
    (types : gset string) : outcome CompositeSourceModel :=
  if prefilter && negb in_memory then Throw RuntimeError_prefilter
  else if prefilter then prefiltered_source_models
  else
    match get_source_models in_memory types with
    | (source_models, types, None) =>
        Return {| tectonic_region_types := types;
                  smodels := renumber source_models 0 |}
    | (_, _, Some e) => Throw e
    end.

(** All the models of a sequence of source models, in order. *)
Definition all_trt_models (source_models : list SourceModel) : list TrtModel :=
  flat_map trt_models source_models.

(** The models [trt_models] are numbered from [n] on, and so are their
    sources. *)
Definition numbered_from (n : nat) (trt_models : list TrtModel) : Prop :=
  ∀ j trt_model, trt_models !! j = Some trt_model →
    id trt_model = n + j
    ∧ ∀ src, src ∈ sources trt_model → trt_model_id src = n + j.

(** *** The weights of a job *)





Definition sumQ (xs : list Q) : Q := foldr Qplus 0%Q xs.


End Models.

(** *** Grouping the sources that are close to the sites *)

Section FilterSources.
Context {Sites : Type}.

(** [src.filter_sites_by_distance_to_source(maxdist, sitecol)], for the
    distance and the sites of the call. *)
Class SiteFilter : Type :=
  filter_sites_by_distance_to_source : Source → option Sites.

Context {site_filter : SiteFilter}.

(** [filter_sources(sources, sitecol, maxdist)]; [srcs] is a
    [defaultdict(list)]. *)
Definition filter_sources (sources : list Source) : gmap nat (list Source) :=
  foldl (λ srcs src,
           match filter_sites_by_distance_to_source src with
           | Some _ =>
               <[trt_model_id src := default [] (srcs !! trt_model_id src) ++ [src]]> srcs
           | None => srcs
           end)
        ∅ sources.

End FilterSources.

End SourceModels.

(** *** A logic tree of two source models

    The first source model has two tectonic region types, the second
    one; the sources come out of the parser with the number 99. *)
Module SourceModelsExample.
Import SourceModels.

Definition ex_source (source_id : string) (w : option Q) : Source :=
  {| source_id := source_id; trt_model_id := 99; weight := w |}.

Definition ex_parse (fname : string) (smpath : list string)
    : outcome (list (@TrtModel string)) :=
  if String.eqb fname "sm1.xml" then
    Return [ {| trt := "Active Shallow Crust";
                sources := [ex_source "1" (Some 2%Q); ex_source "2" None];
                id := 0; gsims := [] |};
             {| trt := "Stable Continental";
                sources := [ex_source "3" (Some 5%Q)]; id := 0; gsims := [] |} ]
  else
    Return [ {| trt := "Subduction"; sources := [ex_source "4" (Some 1%Q)];
                id := 0; gsims := [] |} ].

Definition ex_reader : @SourceReader string unit :=
  {| exists_ := λ _, true;
     gunzip_to_tmp := λ fname, Return fname;
     join_base_path := λ sm, sm;
     get_effective_rlzs :=
       [ {| value := "sm1.xml"; lt_path := ["b1"]; rlz_weight := (1 # 2)%Q |};
         {| value := "sm2.xml"; lt_path := ["b2"]; rlz_weight := (1 # 2)%Q |} ];
     samples_by_lt_path := λ _, Return 1;
     parse_source_model := ex_parse;
     collect_trt_models := λ fname, ex_parse fname [];
     has_gsim_logic_tree := false;
     get_gsim_lt := λ _, Return ();
     gsim_lt_values := λ _, ∅;
     get_num_paths := λ _, 3;
     DummyGsimLogicTree := ();
     prefiltered_source_models := Throw (OtherError "not used") |}.

Definition ex_source_models : list (@SourceModel string unit) :=
  (get_source_models (reader := ex_reader) true ∅).1.1.

(** The sources of the model 0 are far from the sites. *)
Definition ex_site_filter : @SiteFilter unit :=
  λ src, if decide (trt_model_id src = 0) then None else Some ().


End SourceModelsExample.

(** ** The CSV data of [readinput] *)

Module CsvData.
Import ClassicalCore.

(** What a validator of [openquake.commonlib.valid] gives: the value, or
    a [ValueError] with its message. *)
Inductive checked (A : Type) : Type :=
| Valid (a : A)
| Invalid (msg : string).
Arguments Valid {A} a.
Arguments Invalid {A} msg.

(** The [ValueError]s that are raised while a row is read. *)
Inductive Cause : Type :=
| InvalidValue (msg : string)
| WrongNumber (found expected : nat).

Inductive result (E A : Type) : Type :=
| Success (a : A)
| Failure (e : E).
Arguments Success {E A} a.
Arguments Failure {E A} e.

#[global] Instance result_bind {E : Type} : MBind (result E) := λ A B f m,
  match m with
  | Success a => f a
  | Failure e => Failure e
  end.

(** [' '.join(strings)]. *)
Fixpoint join_spaces (strings : list string) : string :=
  match strings with
  | [] => ""
  | [s] => s
  | s :: strings => s +:+ " " +:+ join_spaces strings
  end.

Section Csv.
Context {Coord V : Type} `{Countable Coord}.

(** The exceptions of [get_mesh_csvdata]: the [IndexError] of a short
    row or of an empty list of types, a [KeyError], the [ValueError] and
    the [DuplicatedPoint] of a row, raised again with the line of the
    row, the [ValueError] of two types with different points (with the
    two types) and the [ValueError] of [lons, lats = zip()], when there
    is no point to unpack. *)
Inductive Exc : Type :=
| IndexError
| KeyError
| ValueError_at (cause : Cause) (line : nat)
| DuplicatedPoint_at (lon_lat : Coord * Coord) (line : nat)
| ValueError_inconsistent (imt other_imt : string)
| ValueError_unpack.

(** [geo.Mesh(numpy.array(lons), numpy.array(lats))]. *)
Record Mesh : Type := {
  lons : list Coord;
  lats : list Coord
}.

(** The collaborators: [valid.Choice( *imts)], [valid.longitude],
    [valid.latitude], the function [validvalues] of the caller, and
    [sorted] on a list of points. *)
Class Validators : Type := {
  check_imt : list string → string → checked string;
  longitude : string → checked Coord;
  latitude : string → checked Coord;
  validvalues : string → checked (list V);
  sorted : list (Coord * Coord) → list (Coord * Coord)
}.

Context {validators : Validators}.

(** A call of a validator inside the [try] of the row [line]. *)
Definition validated {A : Type} (line : nat) (c : checked A) : result Exc A :=
  match c with
  | Valid a => Success a
  | Invalid msg => Failure (ValueError_at (InvalidValue msg) line)
  end.

(** [row[i]]. *)
Definition column (row : list string) (i : nat) : result Exc string :=
  match row !! i with
  | Some s => Success s
  | None => Failure IndexError
  end.

Definition lookup_key {A : Type} (d : gmap string A) (key : string) : result Exc A :=
  match d !! key with
  | Some a => Success a
  | None => Failure KeyError
  end.

(** The body of the loop on the rows.

    Modelled from the spec: [openquake.baselib.general.AccumDict] is not
    among the sources.  "Accumulators compose: merging two Accumulators
    merges values for keys present in both and unions keys present in
    only one": [data += {imt: [values]}] appends the array to the list
    of [imt], or sets the list when [data] has no such key. *)
Definition read_row (imts : list string) (number_of_values : gmap string nat)
    (st : gmap string (gset (Coord * Coord)) * gmap string (list (list V)))
    (line : nat) (row : list string)
    : result Exc (gmap string (gset (Coord * Coord)) * gmap string (list (list V))) :=
  let '(lon_lats, data) := st in
  s ← column row 0;
  imt ← validated line (check_imt imts s);
  s ← column row 1;
  lon ← validated line (longitude s);
  s ← column row 2;
  lat ← validated line (latitude s);
  let lon_lat := (lon, lat) in
  points ← lookup_key lon_lats imt;
  if decide (lon_lat ∈ points) then Failure (DuplicatedPoint_at lon_lat line)
  else
    let lon_lats := <[imt := points ∪ {[lon_lat]}]> lon_lats in
    values ← validated line (validvalues (join_spaces (drop 3 row)));
    expected ← lookup_key number_of_values imt;
    if decide (length values ≠ expected)
    then Failure (ValueError_at (WrongNumber (length values) expected) line)
    else Success (lon_lats, <[imt := default [] (data !! imt) ++ [values]]> data).

(** The loop that compares the points of the other types with those of
    the first one. *)
Definition check_points (imt : string) (points : gset (Coord * Coord))
    (others : list (string * gset (Coord * Coord))) : result Exc unit :=
  foldl (λ st '(other_imt, other_points),
           st ≫= λ _,
             if decide (points ≠ other_points)
             then Failure (ValueError_inconsistent imt other_imt)
             else Success ())
        (Success ()) others.

(** [get_mesh_csvdata(csvfile, imts, num_values, validvalues)]; [rows]
    are the rows that [csv.reader(csvfile, delimiter=' ')] gives. *)
Definition get_mesh_csvdata (rows : list (list string)) (imts : list string)
    (num_values : list nat) : result Exc (Mesh * gmap string (list (list V))) :=
  let number_of_values : gmap string nat := dict_of (zip imts num_values) in
  let lon_lats : gmap string (gset (Coord * Coord)) :=
    dict_of ((λ imt, (imt, ∅)) <$> imts) in
  let data : gmap string (list (list V)) := ∅ in
  '(lon_lats, data) ←
    foldl (λ st '(line, row), st ≫= λ st, read_row imts number_of_values st line row)
          (Success (lon_lats, data)) (Tiling.enumerate_from 1 rows);
  imt ← match imts with
         | imt :: _ => Success imt
         | [] => Failure IndexError
         end;
  points ← lookup_key lon_lats imt;
  let lon_lats := delete imt lon_lats in
  _ ← check_points imt points (map_to_list lon_lats);
  match sorted (elements points) with
  | [] => Failure ValueError_unpack
  | lon_lats => Success ({| lons := lon_lats.*1; lats := lon_lats.*2 |}, data)
  end.

(** The state of the loop on the rows: the types with points are those
    of the call, every type has as many arrays as points, and every
    array has the expected number of values. *)
Definition rows_inv (imts : list string) (number_of_values : gmap string nat)
    (st : gmap string (gset (Coord * Coord)) * gmap string (list (list V))) : Prop :=
  dom st.1 = dom (dict_of ((λ imt : string, (imt, ∅ : gset (Coord * Coord))) <$> imts))
  ∧ (∀ imt, length (default [] (st.2 !! imt)) = size (default ∅ (st.1 !! imt)))
  ∧ ∀ imt curves n, st.2 !! imt = Some curves → number_of_values !! imt = Some n →
      Forall (λ c : list V, length c = n) curves.

(** What is asked of [sorted]: it rearranges its argument. *)
Definition sorted_permutes : Prop := ∀ points, sorted points ≡ₚ points.

End Csv.

(** A file of two points for the types PGA and PGV; the coordinates
    and the values are kept as they are written, and the rows are
    written in order. *)
Definition ex_validators : @Validators string string :=
  {| check_imt := λ imts s, if decide (s ∈ imts) then Valid s else Invalid s;
     longitude := Valid;
     latitude := Valid;
     validvalues := λ s, Valid [s];
     sorted := λ points, points |}.

Definition ex_rows : list (list string) :=
  [ ["PGA"; "0"; "0"; "0.1"];
    ["PGV"; "0"; "0"; "0.2"];
    ["PGA"; "1"; "0"; "0.3"];
    ["PGV"; "1"; "0"; "0.4"] ].

Definition ex_csvdata
    : result (@Exc string) (@Mesh string * gmap string (list (list string))) :=
  get_mesh_csvdata (validators := ex_validators) ex_rows ["PGA"; "PGV"] [1; 1].

Definition ex_mesh : @Mesh string :=
  match ex_csvdata with
  | Success (mesh, _) => mesh
  | Failure _ => {| lons := []; lats := [] |}
  end.

Definition ex_data : gmap string (list (list string)) :=
  match ex_csvdata with
  | Success (_, data) => data
  | Failure _ => ∅
  end.

End CsvData.

(** ** The exposure of [readinput] *)

Module Exposure.
Import CsvData.

(** The nodes of the exposure file.  The attributes [id] and [taxonomy]
    and the node [location], which the schema of the file requires, are
    there; the attributes [number], [area], [deductible] and
    [insuranceLimit] and the nodes [costs] and [occupancies] may be
    missing. *)
Record CostNode : Type := {
  cost_type : string;
  cost_value : Q;
  cost_deductible : option Q;
  cost_insuranceLimit : option Q
}.

Record OccupancyNode : Type := {
  period : string;
  occupants : Q
}.

Record AssetNode : Type := {
  node_id : string;
  node_taxonomy : string;
  node_number : option Q;
  node_location : Q * Q;
  node_costs : option (list CostNode);
  node_occupancies : option (list OccupancyNode);
  node_area : option Q
}.

(** [workflows.Asset(asset_id, taxonomy, number, location, values, area,
    deductibles, insurance_limits, retrofitting_values)]; the value of a
    cost type is [None] when it is missing and ignored. *)
Record Asset : Type := {
  asset_id : string;
  taxonomy : string;
  number : Q;
  location : Q * Q;
  values : gmap string (option Q);
  area : Q;
  deductibles : gmap string (option Q);
  insurance_limits : gmap string (option Q);
  retrofitting_values : gmap string (option Q)
}.

(** The exceptions of [get_exposure]: [DuplicatedID(asset_id)], the
    [KeyError] of a missing [number], the [ValueError] of the missing
    costs of an asset -- these are raised again by [context] with the
    file and the line of the node -- and the [NameError] of an asset
    without occupancies. *)
Inductive Exc : Type :=
| DuplicatedID (asset_id : string)
| KeyError_number
| ValueError_missing_cost (missing : gset string) (asset_id : string)
| NameError_occupancies.

(** [sub in s]. *)
Definition contains (sub s : string) : bool :=
  match String.index 0 sub s with
  | Some _ => true
  | None => false
  end.

(** The parameters of the call: [oqparam.calculation_mode],
    [oqparam.time_event], [oqparam.ignore_missing_costs] and
    [vulnerability_files(oqparam.inputs)]. *)
Record ExposureParams : Type := {
  calculation_mode : string;
  time_event : option string;
  ignore_missing_costs : list string;
  vulnerability_files : list string
}.

Section GetExposure.
Context {Region : Type}.

(** [geometry.Point( *location).within(region)]. *)
Class Geometry : Type :=
  within : Q * Q → Region → bool.

Context {geometry : Geometry}.

(** The loop on the costs of an asset. *)
Definition read_costs (relevant_cost_types : gset string) (costs : list CostNode)
    (st : gmap string (option Q) * gmap string (option Q) * gmap string (option Q))
    : gmap string (option Q) * gmap string (option Q) * gmap string (option Q) :=
  foldl (λ '(values, deductibles, insurance_limits) cost,
           let cost_type := cost_type cost in
           if decide (cost_type ∉ relevant_cost_types)
           then (values, deductibles, insurance_limits)
           else (<[cost_type := Some (cost_value cost)]> values,
                 <[cost_type := cost_deductible cost]> deductibles,
                 <[cost_type := cost_insuranceLimit cost]> insurance_limits))
        st costs.

(** The loop on the occupancies, which stops at the first one of the
    period. *)
Fixpoint read_occupancies (time_event : string) (occupancies : list OccupancyNode)
    (values : gmap string (option Q)) : gmap string (option Q) :=
  match occupancies with
  | [] => values
  | occupancy :: occupancies =>
      if String.eqb (period occupancy) time_event
      then <["fatalities" := Some (occupants occupancy)]> values
      else read_occupancies time_event occupancies values
  end.

(** The state of the loop on the assets: [asset_refs], [out_of_region],
    [exposure.assets] and [exposure.taxonomies]. *)
Record State : Type := {
  asset_refs : gset string;
  out_of_region : nat;
  assets : list Asset;
  taxonomies : gset string
}.

(** The body of the loop on the assets. *)
Definition read_asset (oqparam : ExposureParams) (region : option Region)
    (relevant_cost_types : gset string) (st : State) (asset : AssetNode)
    : result Exc State :=
  let values : gmap string (option Q) := ∅ in
  let asset_id := node_id asset in
  if decide (asset_id ∈ asset_refs st) then Failure (DuplicatedID asset_id)
  else
    let asset_refs := asset_refs st ∪ {[asset_id]} in
    let taxonomy := node_taxonomy asset in
    '(number, values) ←
      (if contains "damage" (calculation_mode oqparam) then
         match node_number asset with
         | Some number => Success (number, values)
         | None => Failure KeyError_number
         end
       else
         match node_number asset with
         | Some number => Success (number, <["fatalities" := Some number]> values)
         | None => Success (1%Q, values)
         end);
    let location := node_location asset in
    if match region with
       | Some region => negb (within location region)
       | None => false
       end
    then Success {| asset_refs := asset_refs; out_of_region := S (out_of_region st);
                    assets := assets st; taxonomies := taxonomies st |}
    else
      let costs := default [] (node_costs asset) in
      let '(values, deductibles, insurance_limits) :=
        read_costs relevant_cost_types costs (values, ∅, ∅) in
      let missing := relevant_cost_types ∖ dom values in
      values ←
        (if decide (missing ≠ ∅ ∧ missing ⊆ list_to_set (ignore_missing_costs oqparam))
         then Success (set_fold (λ cost_type values, <[cost_type := None]> values)
                                values missing)
         else if decide (missing ≠ ∅)
         then Failure (ValueError_missing_cost missing asset_id)
         else Success values);
      values ←
        (match time_event oqparam with
         | Some time_event =>
             if String.eqb time_event "" then Success values
             else
               match node_occupancies asset with
               | Some occupancies =>
                   Success (read_occupancies time_event occupancies values)
               | None => Failure NameError_occupancies
               end
         | None => Success values
         end);
      let area := default 1%Q (node_area asset) in
      let ass := {| asset_id := asset_id; taxonomy := taxonomy; number := number;
                    location := location; values := values; area := area;
                    deductibles := deductibles; insurance_limits := insurance_limits;
                    retrofitting_values := ∅ |} in
      Success {| asset_refs := asset_refs; out_of_region := out_of_region st;
                 assets := assets st ++ [ass];
                 taxonomies := taxonomies st ∪ {[taxonomy]} |}.

(** [get_exposure(oqparam)]: [region] is the region of
    [oqparam.region_constraint], if any, and [assets_node] are the nodes
    of the assets that [get_exposure_lazy] gives; the result is the
    state at the end, of which the exposure has the assets and the
    taxonomies. *)
Definition get_exposure (oqparam : ExposureParams) (region : option Region)
    (assets_node : list AssetNode) : result Exc State :=
  let relevant_cost_types : gset string :=
    list_to_set (vulnerability_files oqparam) ∖ {["occupants"]} in
  foldl (λ st asset, st ≫= λ st, read_asset oqparam region relevant_cost_types st asset)
        (Success {| asset_refs := ∅; out_of_region := 0; assets := [];
                    taxonomies := ∅ |})
        assets_node.

(** The nodes that are kept: all of them without a region, else those
    inside it. *)
Definition inside (region : option Region) (asset : AssetNode) : bool :=
  match region with
  | Some region => within (node_location asset) region
  | None => true
  end.

(** The state after the nodes [pre]. *)
Definition read_inv (region : option Region) (relevant_cost_types : gset string)
    (pre : list AssetNode) (st : State) : Prop :=
  asset_refs st = list_to_set (node_id <$> pre)
  ∧ NoDup (node_id <$> pre)
  ∧ asset_id <$> assets st = node_id <$> filter (λ a, inside region a = true) pre
  ∧ location <$> assets st
    = node_location <$> filter (λ a, inside region a = true) pre
  ∧ out_of_region st = length (filter (λ a, inside region a = false) pre)
  ∧ taxonomies st = list_to_set (taxonomy <$> assets st)
  ∧ ∀ ass, ass ∈ assets st → relevant_cost_types ⊆ dom (values ass).

End GetExposure.

(** An exposure of three assets, the second one outside the region
    [lon <= 10]. *)
Definition ex_geometry : @Geometry Q := λ location region, Qle_bool location.1 region.

Definition ex_asset_node (id : string) (lon : Q) : AssetNode :=
  {| node_id := id; node_taxonomy := "RC"; node_number := Some 3%Q;
     node_location := (lon, 0%Q);
     node_costs := Some [ {| cost_type := "structural"; cost_value := 100%Q;
                             cost_deductible := None; cost_insuranceLimit := None |} ];
     node_occupancies := None; node_area := None |}.

Definition ex_exposure_params : ExposureParams :=
  {| calculation_mode := "scenario_risk"; time_event := None;
     ignore_missing_costs := []; vulnerability_files := ["structural"; "occupants"] |}.

Definition ex_assets_node : list AssetNode :=
  [ex_asset_node "a1" 1%Q; ex_asset_node "a2" 20%Q; ex_asset_node "a3" 2%Q].

Definition ex_exposure : State :=
  match get_exposure (geometry := ex_geometry) ex_exposure_params (Some 10%Q)
          ex_assets_node with
  | Success st => st
  | Failure _ => {| asset_refs := ∅; out_of_region := 0; assets := [];
                    taxonomies := ∅ |}
  end.

End Exposure.

(** ** The configuration files of an archive *)

Module ReadInputArchive.
Import ReadInput.

(** The names that [get_params] looks for in an archive. *)
Definition job_ini_names : list string :=
  ["job_hazard.ini"; "job_haz.ini"; "job.ini"; "job_risk.ini"].

(** An archive of a directory with two configuration files; the end of
    [get_params] is left as the list of the files that are read. *)
Definition ex_fs : FileSystem :=
  {| fs_exists := λ _, true;
     fs_unzip := λ _, Ok ("/tmp/x",
                          [File "README";
                           Dir "demo" [File "job_hazard.ini"; File "exposure.xml";
                                       File "job_risk.ini"]]) |}.

Definition ex_populate : Populate (list string) := λ job_inis read, Ok read.

End ReadInputArchive.

(** ** The ground motion fields of [readinput] *)

Module GmfData.
Import ClassicalCore CsvData.

Definition comma : Ascii.ascii := Ascii.ascii_of_nat 44.

Fixpoint split_from (s cur : string) : list string :=
  match s with
  | EmptyString => [cur]
  | String c rest =>
      if Ascii.eqb c comma then cur :: split_from rest ""
      else split_from rest (cur +:+ String c "")
  end.

(** [line.split(',')]. *)
Definition split_commas (line : string) : list string := split_from line "".

(** The exceptions of [get_sitecol_gmfs]: the four [InvalidFile], with
    the arguments of their messages, the [IndexError] of a missing
    column or of an empty list of types, a [KeyError], and the exception
    of [expand]. *)
Inductive Exc : Type :=
| IndexError
| KeyError
| InvalidFile_indices (text : string)
| InvalidFile_floats (column : nat) (text : string)
| InvalidFile_rows (found expected : nat)
| InvalidFile_tags (tags : list string)
| ExpandError.

(** The sites of a row: [sitecol] when the row has no indices,
    [site.FilteredSiteCollection(indices, sitecol)] otherwise. *)
Inductive RowSites : Type :=
| AllSites
| FilteredSites (indices : list nat).

Section Gmfs.
Context {Array : Type}.

(** The collaborators, a result [None] standing for an exception:
    [map(valid.positiveint, text.split())], [valid.positivefloats],
    [r_sites.expand(array, 0)], [sorted] on the tags and the transposed
    array [numpy.array(arrays).T]. *)
Class GmfReader : Type := {
  positiveints : string → option (list nat);
  positivefloats : string → option (list Q);
  expand : RowSites → list Q → option Array;
  sorted_tags : list string → list string;
  transposed : list Array → list Array
}.

Context {gmf_reader : GmfReader}.

(** [row[i]]; inside the [try] of the row the [IndexError] is caught by
    the bare [except], whose message takes the same column and raises
    the [IndexError] again. *)
Definition field (row : list string) (i : nat) : result Exc string :=
  match row !! i with
  | Some s => Success s
  | None => Failure IndexError
  end.

Definition item {A : Type} (d : gmap string A) (key : string) : result Exc A :=
  match d !! key with
  | Some a => Success a
  | None => Failure KeyError
  end.

(** The loop [for i in range(len(imts))] of a row. *)
Definition read_fields (imts : list string) (row : list string) (r_sites : RowSites)
    (gmf_by_imt : gmap string (list Array)) : result Exc (gmap string (list Array)) :=
  foldl (λ st i, st ≫= λ gmf_by_imt,
           text ← field row (i + 2);
           array ← match positivefloats text with
                   | Some array => Success array
                   | None => Failure (InvalidFile_floats (i + 3) text)
                   end;
           imt ← match imts !! i with
                 | Some imt => Success imt
                 | None => Failure IndexError
                 end;
           gmfs ← item gmf_by_imt imt;
           expanded ← match expand r_sites array with
                      | Some expanded => Success expanded
                      | None => Failure ExpandError
                      end;
           Success (<[imt := gmfs ++ [expanded]]> gmf_by_imt))
        (Success gmf_by_imt) (seq 0 (length imts)).

(** The body of the loop on the lines of the file. *)
Definition read_line (imts : list string)
    (st : gmap string (list Array) * list string) (line : string)
    : result Exc (gmap string (list Array) * list string) :=
  let '(gmf_by_imt, tags) := st in
  let row := split_commas line in
  text ← field row 1;
  indices ← match positiveints text with
             | Some indices => Success indices
             | None => Failure (InvalidFile_indices text)
             end;
  let r_sites := match indices with
                 | [] => AllSites
                 | _ => FilteredSites indices
                 end in
  gmf_by_imt ← read_fields imts row r_sites gmf_by_imt;
  tag ← field row 0;
  Success (gmf_by_imt, tags ++ [tag]).

(** [get_sitecol_gmfs(oqparam)], from the lines of the file on: [imts]
    are the keys of [oqparam.imtls], [num_gmfs] is
    [oqparam.number_of_ground_motion_fields]; the site collection, which
    is returned as it is read, is left out. *)
Definition get_sitecol_gmfs (imts : list string) (num_gmfs : nat)
    (lines : list string) : result Exc (gmap string (list Array)) :=
  let gmf_by_imt : gmap string (list Array) := dict_of ((λ imt, (imt, [])) <$> imts) in
  '(gmf_by_imt, tags) ←
    foldl (λ st line, st ≫= λ st, read_line imts st line)
          (Success (gmf_by_imt, [])) lines;
  imt ← match imts with
         | imt :: _ => Success imt
         | [] => Failure IndexError
         end;
  data ← item gmf_by_imt imt;
  if decide (length data ≠ num_gmfs)
  then Failure (InvalidFile_rows (length data) num_gmfs)
  else if decide (tags ≠ sorted_tags tags) then Failure (InvalidFile_tags tags)
  else
    Success (dict_of ((λ imt, (imt, transposed (default [] (gmf_by_imt !! imt))))
                        <$> imts)).

(** The state of the loop after [n] lines: every type has [n] arrays. *)
Definition lines_inv (imts : list string) (n : nat)
    (st : gmap string (list Array) * list string) : Prop :=
  length st.2 = n
  ∧ ∀ imt, imt ∈ imts → ∃ gmfs, st.1 !! imt = Some gmfs ∧ length gmfs = n.

(** The state of the loop on the types of a row that follows [n] rows,
    after [k] types. *)
Definition fields_inv (imts : list string) (n k : nat)
    (gmf_by_imt : gmap string (list Array)) : Prop :=
  ∀ j imt, imts !! j = Some imt →
    ∃ gmfs, gmf_by_imt !! imt = Some gmfs
            ∧ length gmfs = if decide (j < k) then S n else n.

End Gmfs.

(** A file of two fields for two types on all the sites; the arrays are
    kept as they are read. *)
Definition ex_gmf_reader : @GmfReader (list Q) :=
  {| positiveints := λ _, Some [];
     positivefloats := λ text, Some [inject_Z (Z.of_nat (String.length text))];
     expand := λ _ array, Some array;
     sorted_tags := λ tags, tags;
     transposed := λ arrays, arrays |}.

Definition ex_lines : list string := ["tag1,,1,22"; "tag2,,333,4444"].

Definition ex_gmfs : gmap string (list (list Q)) :=
  match get_sitecol_gmfs (gmf_reader := ex_gmf_reader) ["PGA"; "PGV"] 2 ex_lines with
  | Success gmfs => gmfs
  | Failure _ => ∅
  end.

End GmfData.

(** ** The quantile curves *)

Module StatisticsQuantile.
Import Statistics.

(** [d[q]] on a dictionary keyed by numbers. *)
Fixpoint dict_get {A : Type} (d : list (Q * A)) (q : Q) : option A :=
  match d with
  | [] => None
  | (q', x) :: d => if Qeq_bool q' q then Some x else dict_get d q
  end.

(** Equal quantiles are written in the same way, as equal floating
    point numbers are. *)
Definition canonical (qs : list Q) : Prop :=
  ∀ q q', q ∈ qs → q' ∈ qs → Qeq_bool q q' = true → q = q'.

End StatisticsQuantile.

(** * Part II: the properties *)

(** ** Dictionaries and exceptions *)

Lemma foldl_Raise {A B : Type} (f : A → B → res A) (e : exn) (l : list B) :
  foldl (λ st x, st ≫= λ a, f a x) (Raise e) l = Raise e.
Proof. induction l as [|x l IH]; [done|]. simpl. exact IH. Qed.

Lemma NoDup_keys `{Countable K} {V : Type} (d : gmap K V) : NoDup (keys d).
Proof. apply NoDup_fst_map_to_list. Qed.

Lemma elem_of_keys `{Countable K} {V : Type} (d : gmap K V) (k : K) :
  k ∈ keys d ↔ is_Some (d !! k).
Proof.
  unfold keys. rewrite list_elem_of_fmap. split.
  - intros [[k' v] [-> Hin]]. apply elem_of_map_to_list in Hin. by exists v.
  - intros [v Hv]. exists (k, v). split; [done|]. by apply elem_of_map_to_list.
Qed.

(** ** The reducer of the classical calculator *)

Module ClassicalFacts.
Import Classical.

Section Reducer.
Context {Curves : Type} {curves_agg : AggCurves Curves}.

Lemma agg_dicts_loop (val : gmap Key Curves) (l : list Key) :
  ∀ acc, NoDup l →
    (∀ k, k ∈ l → is_Some (val !! k) ∧ is_Some (acc !! k)) →
    ∃ acc', foldl (λ st key, st ≫= λ acc, agg_dicts_step val acc key) (Ok acc) l
            = Ok acc'
      ∧ ∀ k, acc' !! k =
          if decide (k ∈ l)
          then a ← acc !! k; v ← val !! k; Some (agg_curves a v)
          else acc !! k.
Proof.
  induction l as [|k0 l IH]; intros acc Hnd Hin.
  - exists acc. split; [done|]. intros k. by rewrite decide_False by set_solver.
  - apply NoDup_cons in Hnd as [Hk0 Hnd].
    destruct (Hin k0) as [[v0 Hv0] [a0 Ha0]]; [set_solver|].
    simpl. unfold agg_dicts_step at 2, getitem. rewrite Ha0, Hv0. simpl.
    destruct (IH (<[k0 := agg_curves a0 v0]> acc) Hnd) as (acc' & Hrun & Hlk).
    { intros k Hk. destruct (Hin k) as [Hv Ha]; [set_solver|]. split; [done|].
      rewrite lookup_insert. case_decide; [by eexists|done]. }
    exists acc'. split; [exact Hrun|]. intros k. rewrite Hlk.
    destruct (decide (k = k0)) as [->|Hne].
    + rewrite decide_False by done. rewrite decide_True by set_solver.
      rewrite lookup_insert_eq, Ha0, Hv0. done.
    + rewrite lookup_insert_ne by done.
      destruct (decide (k ∈ l)).
      * rewrite decide_True by set_solver. done.
      * rewrite decide_False by set_solver. done.
Qed.

(** With every key of [val] present in [acc], the loop ends normally
    with the key-wise merge. *)
Lemma agg_dicts_merged (acc val : gmap Key Curves) :
  dom val ⊆ dom acc → agg_dicts acc val = Ok (merged acc val).
Proof.
  intros Hsub. unfold agg_dicts.
  destruct (agg_dicts_loop val (keys val) acc (NoDup_keys val)) as (acc' & Hrun & Hlk).
  { intros k Hk. apply elem_of_keys in Hk. split; [done|].
    apply elem_of_dom, Hsub, elem_of_dom, Hk. }
  rewrite Hrun. f_equal. apply map_eq. intros k. rewrite Hlk.
  unfold merged. rewrite lookup_union_with.
  destruct (decide (k ∈ keys val)) as [Hk|Hk]; rewrite elem_of_keys in Hk.
  - destruct Hk as [v Hv]. rewrite Hv.
    assert (is_Some (acc !! k)) as [a Ha]
      by (apply elem_of_dom, Hsub, elem_of_dom; by eexists).
    rewrite Ha. done.
  - apply eq_None_not_Some in Hk. rewrite Hk. by destruct (acc !! k).
Qed.

(** A key of [val] that [acc] does not hold makes [acc[key]] raise. *)
Lemma agg_dicts_loop_KeyError (val : gmap Key Curves) (l : list Key) :
  ∀ acc, (∀ k, k ∈ l → is_Some (val !! k)) →
    (∃ k, k ∈ l ∧ acc !! k = None) →
    foldl (λ st key, st ≫= λ acc, agg_dicts_step val acc key) (Ok acc) l
    = Raise KeyError.
Proof.
  induction l as [|k0 l IH]; intros acc Hval (k & Hk & Hnone).
  - set_solver.
  - simpl. unfold agg_dicts_step at 2, getitem.
    destruct (acc !! k0) as [a0|] eqn:Ha0; simpl; [|apply foldl_Raise].
    destruct (Hval k0) as [v0 Hv0]; [set_solver|]. rewrite Hv0. simpl.
    apply IH; [intros k' Hk'; apply Hval; set_solver|].
    exists k. split.
    + apply elem_of_cons in Hk as [->|Hk]; [congruence|done].
    + rewrite lookup_insert_ne; [done|]. intros ->. congruence.
Qed.

Lemma agg_dicts_KeyError (acc val : gmap Key Curves) :
  dom val ⊈ dom acc → agg_dicts acc val = Raise KeyError.
Proof.
  intros Hsub. unfold agg_dicts. apply agg_dicts_loop_KeyError.
  - intros k Hk. by apply elem_of_keys.
  - destruct (decide (Forall (λ k, k ∈ dom acc) (keys val))) as [Hall|Hex].
    + exfalso. apply Hsub. intros k Hk. rewrite Forall_forall in Hall.
      apply Hall, elem_of_keys, elem_of_dom, Hk.
    + apply not_Forall_Exists in Hex; [|apply _].
      apply Exists_exists in Hex as (k & Hk & Hnot).
      exists k. split; [done|]. by apply not_elem_of_dom.
Qed.

Lemma dom_merged (acc val : gmap Key Curves) :
  dom (merged acc val) = dom acc ∪ dom val.
Proof.
  apply set_eq. intros k. rewrite elem_of_union, !elem_of_dom.
  unfold merged. rewrite lookup_union_with.
  destruct (acc !! k), (val !! k); simpl; split; intros; try done;
    try (by left); try (by right); try (by eexists).
  - destruct H as [[? ?]|[? ?]]; done.
Qed.

Lemma lookup_merged (acc val : gmap Key Curves) (k : Key) :
  merged acc val !! k =
    match acc !! k, val !! k with
    | Some a, Some v => Some (agg_curves a v)
    | Some a, None => Some a
    | None, o => o
    end.
Proof.
  unfold merged. rewrite lookup_union_with.
  by destruct (acc !! k), (val !! k).
Qed.

(** C1 (as amended).  [agg_dicts(acc, val)] ends normally exactly when
    every key of [val] is already a key of [acc]; it then returns the
    key-wise merge, whose key set is the union of the two key sets (that
    of [acc]), with [agg_curves] of the two values on the keys of [val]
    and the value of [acc] unchanged elsewhere.  A key of [val] missing
    from [acc] makes the lookup [acc[key]] raise [KeyError]. *)
Theorem agg_dicts_spec (acc val : gmap Key Curves) :
  agg_dicts acc val =
    (if decide (dom val ⊆ dom acc) then Ok (merged acc val) else Raise KeyError)
  ∧ dom (merged acc val) = dom acc ∪ dom val
  ∧ ∀ k, merged acc val !! k =
      match acc !! k, val !! k with
      | Some a, Some v => Some (agg_curves a v)
      | Some a, None => Some a
      | None, o => o
      end.
Proof.
  split; [|split].
  - case_decide; [by apply agg_dicts_merged | by apply agg_dicts_KeyError].
  - apply dom_merged.
  - apply lookup_merged.
Qed.

(** *** Order of the reduction *)

Lemma reduce_merged (partials : list (gmap Key Curves)) :
  ∀ acc, Forall (λ val, dom val ⊆ dom acc) partials →
    reduce agg_dicts acc partials = Ok (foldl merged acc partials).
Proof.
  unfold reduce.
  induction partials as [|val partials IH]; intros acc Hall; [done|].
  apply Forall_cons in Hall as [Hval Hall]. simpl.
  rewrite (agg_dicts_merged _ _ Hval). apply IH.
  eapply Forall_impl; [exact Hall|]. simpl. intros v Hv.
  rewrite dom_merged. set_solver.
Qed.

Section Order.
Hypothesis agg_curves_comm : ∀ a b, agg_curves a b = agg_curves b a.
Hypothesis agg_curves_assoc :
  ∀ a b c, agg_curves (agg_curves a b) c = agg_curves a (agg_curves b c).

Lemma merged_swap (acc v1 v2 : gmap Key Curves) :
  merged (merged acc v1) v2 = merged (merged acc v2) v1.
Proof using agg_curves_comm agg_curves_assoc.
  apply map_eq. intros k. rewrite !lookup_merged.
  destruct (acc !! k) as [a|], (v1 !! k) as [x|], (v2 !! k) as [y|];
    try done; f_equal.
  - rewrite !agg_curves_assoc. f_equal. apply agg_curves_comm.
  - apply agg_curves_comm.
Qed.

Lemma foldl_merged_perm (l l' : list (gmap Key Curves)) :
  l ≡ₚ l' → ∀ acc, foldl merged acc l = foldl merged acc l'.
Proof using agg_curves_comm agg_curves_assoc.
  induction 1 as [|v l l' _ IH|v1 v2 l|l1 l2 l3 _ IH1 _ IH2]; intros acc.
  - done.
  - simpl. apply IH.
  - simpl. by rewrite merged_swap.
  - by rewrite IH1.
Qed.

(** C2.  With a commutative and associative [agg_curves] and partial
    results over the key domain of the initial accumulator, the
    reduction ends normally and every permutation of the partial
    results gives the same final accumulator. *)
Theorem reduce_order_independent
    (initial : gmap Key Curves) (partials partials' : list (gmap Key Curves)) :
  Forall (λ val, dom val = dom initial) partials →
  partials ≡ₚ partials' →
  ∃ final, reduce agg_dicts initial partials = Ok final
         ∧ reduce agg_dicts initial partials' = Ok final.
Proof using agg_curves_comm agg_curves_assoc.
  intros Hdom Hperm. exists (foldl merged initial partials).
  assert (Forall (λ val, dom val ⊆ dom initial) partials) as Hsub.
  { eapply Forall_impl; [exact Hdom|]. simpl. intros v ->. done. }
  split; [by apply reduce_merged|].
  rewrite (foldl_merged_perm _ _ Hperm).
  apply reduce_merged. by rewrite <- Hperm.
Qed.
End Order.

End Reducer.

(** C1, counterexample.  Merging the partial result [{(0, "g"): 1}] into
    the empty accumulator does not succeed: the claim as written fails. *)
Lemma agg_dicts_fresh_key_fails :
  ¬ merge_spec (curves_agg := compose) (∅ : gmap Key Z) {[ (0, "g") := 1%Z ]}.
Proof.
  intros (acc' & Hrun & _).
  rewrite agg_dicts_KeyError in Hrun; [discriminate|].
  rewrite dom_empty_L, dom_singleton_L. intros Hsub.
  apply (not_elem_of_empty (C := gset Key) (0, "g")), Hsub.
  by apply elem_of_singleton.
Qed.

Lemma reduce_order_independent_witness :
  ∃ final,
    reduce (agg_dicts (curves_agg := compose)) ex_initial [ex_partial1; ex_partial2]
    = Ok final
    ∧ reduce (agg_dicts (curves_agg := compose)) ex_initial [ex_partial2; ex_partial1]
      = Ok final.
Proof.
  apply (reduce_order_independent (curves_agg := compose)).
  - intros a b. unfold agg_curves, compose. lia.
  - intros a b c. unfold agg_curves, compose. lia.
  - unfold ex_initial, ex_partial1, ex_partial2.
    repeat constructor; by rewrite !dom_singleton_L.
  - apply perm_swap.
Defined.

Example reduce_run :
  map_to_list
    <$> reduce (agg_dicts (curves_agg := compose)) ex_initial [ex_partial1; ex_partial2]
  = Ok [((0, "g"), (-1)%Z)].
Proof. vm_compute. reflexivity. Qed.

End ClassicalFacts.

(** ** The tiling calculator *)

Module TilingFacts.
Import Tiling.

Section Execute.
Context {Site : Type} {splitter : SplitInBlocks Site}.
#[local] Abbreviation TileArgs := (@Tiling.TileArgs Site).

Lemma all_args_loop_from (tls : list (list Site)) :
  ∀ acc position i,
    foldl (λ '(all_args, position) '(i, tile),
             (all_args ++ [{| ta_sitecol := tile; ta_position := position;
                              ta_tileno := i |}],
              position + length tile))
          (acc, position) (enumerate_from i tls)
    = (acc ++ args_from i position tls, position + length (concat tls)).
Proof.
  induction tls as [|tile tls IH]; intros acc position i; simpl.
  - by rewrite app_nil_r, Nat.add_0_r.
  - rewrite IH, <- app_assoc, length_app. simpl. f_equal. lia.
Qed.

Lemma all_args_loop_eq (tls : list (list Site)) :
  all_args_loop tls = (args_from 0 0 tls, length (concat tls)).
Proof. unfold all_args_loop, enumerate. by rewrite all_args_loop_from. Qed.

Lemma args_from_bounds (tls : list (list Site)) :
  ∀ i position j a, args_from i position tls !! j = Some a →
    position ≤ ta_position a
    ∧ ta_position a + length (ta_sitecol a) ≤ position + length (concat tls).
Proof.
  induction tls as [|tile tls IH]; intros i position j a Hj; [done|].
  simpl in *. rewrite length_app. destruct j as [|j]; simpl in Hj.
  - injection Hj as <-. simpl. lia.
  - apply IH in Hj. lia.
Qed.

Lemma args_from_cover (tls : list (list Site)) :
  ∀ i position p,
    position ≤ p < position + length (concat tls) →
    exists! j, ∃ a, args_from i position tls !! j = Some a ∧ in_range a p.
Proof.
  induction tls as [|tile tls IH]; intros i position p Hp; simpl in *.
  - lia.
  - rewrite length_app in Hp.
    destruct (decide (p < position + length tile)) as [Hlt|Hge].
    + exists 0. split.
      * eexists. split; [done|]. unfold in_range. simpl. lia.
      * intros [|j] (a & Hj & Hr); [done|]. simpl in Hj.
        apply args_from_bounds in Hj. unfold in_range in Hr. lia.
    + destruct (IH (S i) (position + length tile) p) as (j & (a & Hj & Hr) & Huniq);
        [lia|].
      exists (S j). split.
      * exists a. by split.
      * intros [|j'] (a' & Hj' & Hr').
        -- simpl in Hj'. injection Hj' as <-. unfold in_range in Hr'. simpl in Hr'. lia.
        -- f_equal. apply Huniq. by exists a'.
Qed.

(** C3.  For a complete partition of the sites, the ranges
    [[position, position + len(tile))] of the entries of [all_args]
    partition [[0, len(sitecol))]: every position below the number of
    sites lies in the range of exactly one entry, and no range reaches
    the number of sites or beyond. *)
Theorem tiles_partition_positions
    (Hcomplete : partition_complete split_in_blocks)
    (sitecol : list Site) (concurrent_tasks : nat) :
  (∀ p, p < length sitecol →
     exists! j, ∃ a, all_args sitecol concurrent_tasks !! j = Some a ∧ in_range a p)
  ∧ (∀ j a p, all_args sitecol concurrent_tasks !! j = Some a →
       in_range a p → p < length sitecol).
Proof.
  unfold all_args. rewrite all_args_loop_eq. simpl.
  assert (length (concat (tiles sitecol concurrent_tasks)) = length sitecol) as Hlen.
  { unfold tiles. by rewrite Hcomplete. }
  split.
  - intros p Hp. apply args_from_cover. lia.
  - intros j a p Hj Hr. apply args_from_bounds in Hj.
    unfold in_range in Hr. lia.
Qed.

End Execute.

Lemma chunks_concat {A : Type} (fuel size : nat) :
  ∀ l : list A, 1 ≤ size → length l ≤ fuel → concat (chunks fuel size l) = l.
Proof.
  induction fuel as [|fuel IH]; intros l Hsize Hfuel.
  - destruct l; [done|simpl in Hfuel; lia].
  - destruct l as [|x l]; [done|].
    cbn [chunks concat]. rewrite IH; [apply take_drop|done|].
    rewrite length_drop. simpl in *. lia.
Qed.

Lemma contiguous_tiles_complete {A : Type} :
  partition_complete (@contiguous_tiles A).
Proof.
  intros sequence hint. unfold contiguous_tiles.
  rewrite chunks_concat; [done|lia|done].
Qed.

(** C3 on a concrete input: five sites and a hint of two tiles. *)
Lemma tiles_partition_positions_witness :
  (∀ p, p < 5 →
     exists! j, ∃ a, all_args (splitter := contiguous_tiles) [10; 11; 12; 13; 14] 2 !! j = Some a
                ∧ in_range a p)
  ∧ (∀ j a p, all_args (splitter := contiguous_tiles) [10; 11; 12; 13; 14] 2 !! j = Some a →
       in_range a p → p < 5).
Proof.
  exact (tiles_partition_positions (splitter := contiguous_tiles)
           contiguous_tiles_complete [10; 11; 12; 13; 14] 2).
Defined.

Example all_args_five_sites :
  all_args (splitter := contiguous_tiles) [10; 11; 12; 13; 14] 2
  = [ {| ta_sitecol := [10; 11; 12]; ta_position := 0; ta_tileno := 0 |};
      {| ta_sitecol := [13; 14]; ta_position := 3; ta_tileno := 1 |} ].
Proof. reflexivity. Qed.

Section Scatter.
(** [V]: the curves of one site (one row of a composite array). *)
Context {V : Type}.
#[local] Abbreviation TileCurves := (@Tiling.TileCurves V).

Lemma setitem_indices_seq (c : list V) :
  ∀ arr position, position + length c ≤ length arr →
    foldl (λ arr '(i, v), <[i := v]> arr) arr (zip (seq position (length c)) c)
    = scattered position c arr.
Proof.
  unfold scattered.
  induction c as [|v c IH]; intros arr position Hlen; simpl in *.
  - by rewrite Nat.add_0_r, take_drop.
  - rewrite IH by (rewrite length_insert; lia).
    assert (position < length arr) as Hlt by lia.
    rewrite (take_S_r (<[position:=v]> arr) position v)
      by (by apply list_lookup_insert_eq).
    rewrite take_insert_ge by lia. rewrite drop_insert_lt by lia.
    rewrite <- app_assoc. cbn [app].
    by replace (S position + length c) with (position + S (length c)) by lia.
Qed.

Lemma setitem_indices_range (arr c : list V) (position : nat) :
  position + length c ≤ length arr →
  setitem_indices arr (seq position (length c)) c = Ok (scattered position c arr).
Proof.
  intros Hlen. unfold setitem_indices.
  rewrite decide_True.
  - rewrite decide_True by (by rewrite length_seq).
    by rewrite setitem_indices_seq.
  - apply Forall_forall. intros i Hi. apply elem_of_seq in Hi. lia.
Qed.

Lemma length_scattered (arr c : list V) (position : nat) :
  position + length c ≤ length arr →
  length (scattered position c arr) = length arr.
Proof.
  intros Hlen. unfold scattered.
  rewrite !length_app, length_take, length_drop. lia.
Qed.

Lemma lookup_scattered_inside (arr c : list V) (position j : nat) :
  position + length c ≤ length arr → j < length c →
  scattered position c arr !! (position + j) = c !! j.
Proof.
  intros Hlen Hj. unfold scattered.
  rewrite lookup_app_r by (rewrite length_take; lia).
  rewrite length_take, Nat.min_l by lia.
  replace (position + j - position) with j by lia.
  by rewrite lookup_app_l.
Qed.

Lemma lookup_scattered_outside (arr c : list V) (position p : nat) :
  position + length c ≤ length arr →
  p < position ∨ position + length c ≤ p →
  scattered position c arr !! p = arr !! p.
Proof.
  intros Hlen [Hp|Hp]; unfold scattered.
  - rewrite lookup_app_l by (rewrite length_take; lia).
    by rewrite lookup_take_lt.
  - rewrite lookup_app_r by (rewrite length_take; lia).
    rewrite length_take, Nat.min_l by lia.
    rewrite lookup_app_r by lia. rewrite lookup_drop. f_equal. lia.
Qed.

Lemma scatter_loop (acc : gmap Key nat) (tile : TileCurves) (position T : nat)
    (l : list Key) :
  no_alias acc → tc_indices tile = seq position T →
  ∀ store, NoDup l →
    (∀ k, k ∈ l → ∃ c a arr,
       tc_items tile !! k = Some c ∧ length c = T ∧ acc !! k = Some a
       ∧ store !! a = Some arr ∧ position + T ≤ length arr) →
    ∃ store',
      foldl (λ st k, st ≫= λ store, scatter_step acc tile store k) (Ok store) l
      = Ok store'
      ∧ (∀ k a c arr, k ∈ l → acc !! k = Some a → tc_items tile !! k = Some c →
           store !! a = Some arr → store' !! a = Some (scattered position c arr))
      ∧ (∀ a, (∀ k, k ∈ l → acc !! k ≠ Some a) → store' !! a = store !! a).
Proof.
  intros Hinj Hidx. induction l as [|k0 l IH]; intros store Hnd Hwf.
  - exists store. split; [done|]. split; [|done]. intros k a c arr Hk. set_solver.
  - apply NoDup_cons in Hnd as [Hk0 Hnd].
    destruct (Hwf k0) as (c0 & a0 & arr0 & Hc0 & Hlen0 & Ha0 & Harr0 & Hfit0);
      [set_solver|].
    simpl. unfold scatter_step at 2, getitem.
    rewrite Ha0. simpl. rewrite Harr0. simpl. rewrite Hc0. simpl.
    rewrite Hidx, <- Hlen0, setitem_indices_range by lia. simpl.
    assert (∀ k a, k ∈ l → acc !! k = Some a → a ≠ a0) as Hother.
    { intros k a Hk Ha ->. assert (k = k0) by (by eapply Hinj). set_solver. }
    destruct (IH (<[a0 := scattered position c0 arr0]> store) Hnd)
      as (store' & Hrun & Hin & Hout).
    { intros k Hk. destruct (Hwf k) as (c & a & arr & Hc & Hl & Ha & Harr & Hfit);
        [set_solver|].
      exists c, a, arr. repeat split; try done.
      rewrite lookup_insert_ne; [done|]. intros ->. by eapply Hother. }
    exists store'. split; [exact Hrun|]. split.
    + intros k a c arr Hk Ha Hc Harr. apply elem_of_cons in Hk as [->|Hk].
      * assert (a = a0) as -> by congruence.
        assert (c = c0) as -> by congruence.
        assert (arr = arr0) as -> by congruence.
        rewrite Hout; [by rewrite lookup_insert_eq|].
        intros k Hk Hak. by eapply Hother.
      * eapply Hin; try done. rewrite lookup_insert_ne; [done|].
        intros ->. by eapply Hother.
    + intros a Ha. rewrite Hout.
      * rewrite lookup_insert_ne; [done|]. intros ->. eapply Ha; [|done]. set_solver.
      * intros k Hk. apply Ha. set_solver.
Qed.

(** C4.  For an accumulator whose keys own distinct arrays and a tile
    result with [T] curves per key and the indices
    [range(position, position + T)] fitting the arrays, the reduction
    step ends normally and returns [acc]; for every key of the tile
    result the array of [acc] holds the curves of the tile at the
    positions [position .. position + T - 1] and is unchanged at every
    other position; the array of every key of [acc] absent from the tile
    result is unchanged. *)
Theorem agg_curves_by_trt_gsim_scatter
    (acc : gmap Key nat) (tile : TileCurves) (store : gmap nat (list V))
    (position T : nat) :
  no_alias acc →
  tc_indices tile = seq position T →
  (∀ k c, tc_items tile !! k = Some c →
     length c = T ∧ ∃ a arr, acc !! k = Some a ∧ store !! a = Some arr
                             ∧ position + T ≤ length arr) →
  ∃ store', agg_curves_by_trt_gsim acc tile store = Ok (acc, store')
    ∧ (∀ k c a arr, tc_items tile !! k = Some c → acc !! k = Some a →
         store !! a = Some arr →
         ∃ arr', store' !! a = Some arr' ∧ length arr' = length arr
           ∧ (∀ j, j < T → arr' !! (position + j) = c !! j)
           ∧ (∀ p, p < position ∨ position + T ≤ p → arr' !! p = arr !! p))
    ∧ (∀ k a, acc !! k = Some a → tc_items tile !! k = None →
         store' !! a = store !! a).
Proof.
  intros Hinj Hidx Hwf.
  destruct (scatter_loop acc tile position T (keys (tc_items tile)) Hinj Hidx
              store (NoDup_keys _)) as (store' & Hrun & Hin & Hout).
  { intros k Hk. apply elem_of_keys in Hk as [c Hc].
    destruct (Hwf k c Hc) as (Hl & a & arr & Ha & Harr & Hfit).
    by exists c, a, arr. }
  exists store'. split; [|split].
  - unfold agg_curves_by_trt_gsim. by rewrite Hrun.
  - intros k c a arr Hc Ha Harr.
    destruct (Hwf k c Hc) as (Hl & a' & arr' & Ha' & Harr' & Hfit).
    assert (a' = a) as -> by congruence.
    assert (arr' = arr) as -> by congruence. subst T.
    exists (scattered position c arr). split; [|split; [|split]].
    + eapply Hin; try done. apply elem_of_keys. by eexists.
    + by apply length_scattered.
    + intros j Hj. by apply lookup_scattered_inside.
    + intros p Hp. by apply lookup_scattered_outside.
  - intros k a Ha Hnone. apply Hout. intros k' Hk' Ha'.
    assert (k' = k) as -> by (by eapply Hinj).
    apply elem_of_keys in Hk' as [c Hc]. congruence.
Qed.

(** The accumulator built by [execute] owns one array per key. *)
Lemma zero_acc_loop_no_alias (zero : V) (nsites : nat) (trt_gsims : list Key) :
  no_alias (zero_acc_loop zero nsites trt_gsims).1
  ∧ ∀ k a, (zero_acc_loop zero nsites trt_gsims).1 !! k = Some a →
      (zero_acc_loop zero nsites trt_gsims).2 !! a = Some (replicate nsites zero).
Proof.
  unfold zero_acc_loop.
  set (step := λ '(acc, store) trt_gsim,
                 let a := fresh (dom store) in
                 (<[trt_gsim := a]> acc, <[a := replicate nsites zero]> store)).
  assert (∀ l (st : gmap Key nat * gmap nat (list V)),
            (no_alias st.1 ∧ ∀ k a, st.1 !! k = Some a →
               st.2 !! a = Some (replicate nsites zero)) →
            no_alias (foldl step st l).1 ∧ ∀ k a, (foldl step st l).1 !! k = Some a →
               (foldl step st l).2 !! a = Some (replicate nsites zero)) as Hinv.
  { induction l as [|k0 l IH]; intros [acc store] [Hinj Halloc]; [done|].
    simpl. apply IH. simpl in *.
    pose proof (is_fresh (dom store)) as Hfresh.
    assert (∀ k, acc !! k ≠ Some (fresh (dom store))) as Hnew.
    { intros k Hk. apply Hfresh, elem_of_dom. rewrite (Halloc _ _ Hk). by eexists. }
    split.
    - intros k1 k2 a H1 H2.
      destruct (decide (k1 = k0)) as [->|N1], (decide (k2 = k0)) as [->|N2];
        [done|..].
      + rewrite lookup_insert_eq in H1. rewrite lookup_insert_ne in H2 by done.
        injection H1 as <-. by destruct (Hnew k2).
      + rewrite lookup_insert_ne in H1 by done. rewrite lookup_insert_eq in H2.
        injection H2 as <-. by destruct (Hnew k1).
      + rewrite lookup_insert_ne in H1, H2 by done. by eapply Hinj.
    - intros k a Hk. destruct (decide (k = k0)) as [->|N].
      + rewrite lookup_insert_eq in Hk. injection Hk as <-.
        by rewrite lookup_insert_eq.
      + rewrite lookup_insert_ne in Hk by done.
        rewrite lookup_insert_ne; [by eapply Halloc|].
        intros <-. by destruct (Hnew k). }
  apply (Hinv trt_gsims (∅, ∅)). simpl. split.
  - intros k1 k2 a. by rewrite lookup_empty.
  - intros k a. by rewrite lookup_empty.
Qed.

End Scatter.

Example ex_scatter_run :
  contents <$> agg_curves_by_trt_gsim ex_acc ex_tile ex_store
  = Ok [((0, "a"), Some [0; 7; 8; 0]); ((1, "b"), Some [0; 0; 0; 0])].
Proof. vm_compute. reflexivity. Qed.

(** Two keys that share one array: the step for the first key changes
    what the second key holds, which is why the accumulator must own one
    array per key. *)
Example ex_shared_array :
  contents <$> agg_curves_by_trt_gsim
                 (<[ (0, "a") := 0 ]> {[ (1, "b") := 0 ]}) ex_tile
                 {[ 0 := [0; 0; 0; 0] ]}
  = Ok [((0, "a"), Some [0; 7; 8; 0]); ((1, "b"), Some [0; 7; 8; 0])].
Proof. vm_compute. reflexivity. Qed.

(** C4 on the concrete step. *)
Lemma agg_curves_by_trt_gsim_scatter_witness :
  ∃ store', agg_curves_by_trt_gsim ex_acc ex_tile ex_store = Ok (ex_acc, store')
    ∧ (∀ k c a arr, tc_items ex_tile !! k = Some c → ex_acc !! k = Some a →
         ex_store !! a = Some arr →
         ∃ arr', store' !! a = Some arr' ∧ length arr' = length arr
           ∧ (∀ j, j < 2 → arr' !! (1 + j) = c !! j)
           ∧ (∀ p, p < 1 ∨ 1 + 2 ≤ p → arr' !! p = arr !! p))
    ∧ (∀ k a, ex_acc !! k = Some a → tc_items ex_tile !! k = None →
         store' !! a = ex_store !! a).
Proof.
  apply (agg_curves_by_trt_gsim_scatter ex_acc ex_tile ex_store 1 2).
  - apply (zero_acc_loop_no_alias 0 4 ex_keys).
  - reflexivity.
  - intros k c Hc. unfold ex_tile in Hc. cbn [tc_items] in Hc.
    apply lookup_singleton_Some in Hc as [<- <-].
    split; [reflexivity|]. exists 0, [0; 0; 0; 0].
    split; [vm_compute; reflexivity|]. split; [vm_compute; reflexivity|].
    simpl. lia.
Defined.

Section ClassicalTiling.
Context {Site Source V CSM RlzsAssoc GsimsAssoc : Type}.
Context {collaborators : Collaborators Site Source V CSM RlzsAssoc GsimsAssoc}.
#[local] Abbreviation Calculator := (@Tiling.Calculator Site CSM RlzsAssoc).



End ClassicalTiling.

Example is_effective_trt_model_run :
  let result_dict : gmap Key nat := {[ (1, "BooreAtkinson2008()") := 0 ]} in
  is_effective_trt_model result_dict {| tm_id := 1; tm_trt := "active" |} = true
  ∧ is_effective_trt_model result_dict {| tm_id := 2; tm_trt := "stable" |} = false.
Proof. vm_compute. done. Qed.

Example format_tileno_run : format_tileno 7 = ".0007".
Proof. reflexivity. Qed.

End TilingFacts.

(** ** The statistics of the realizations *)

Module StatisticsFacts.
Import Statistics.

Section PostExecute.
Context {HMaps UHS : Type} {services : Services HMaps UHS}.
#[local] Abbreviation Calculator := (@Statistics.Calculator HMaps UHS).

(** *** What the stores and the loops leave unchanged *)

Lemma store_curves_frame (self : Calculator) (dset : string) (curves : Curves) :
  oqparam (store_curves self dset curves) = oqparam self
  ∧ mean_curves (store_curves self dset curves) = mean_curves self
  ∧ quantile (store_curves self dset curves) = quantile self
  ∧ stat_calls (store_curves self dset curves) = stat_calls self.
Proof.
  unfold store_curves.
  destruct (persistent self), (hazard_maps (oqparam self)),
    (uniform_hazard_spectra (oqparam self)); done.
Qed.

Lemma store_all_frame {A : Type} (name : A → string)
    (l : list (A * Curves)) :
  ∀ self,
    let self' := foldl (λ self '(x, curves), store_curves self (name x) curves)
                       self l in
    oqparam self' = oqparam self
    ∧ mean_curves self' = mean_curves self
    ∧ quantile self' = quantile self
    ∧ stat_calls self' = stat_calls self.
Proof.
  induction l as [|[x c] l IH]; intros self; [done|]. simpl.
  destruct (IH (store_curves self (name x) c)) as (-> & -> & -> & ->).
  apply store_curves_frame.
Qed.

(** C5.  With exactly one realization, whose curves are the only entry
    of the curves by realization, [post_execute] ends normally with
    these curves as [mean_curves]; the attribute [quantile] is not
    set, no function of the statistics is called, and the only datasets
    written are those of the individual curves of the realization,
    when they are asked for. *)
Theorem single_realization_passthrough
    (self : Calculator) (result : gmap Key Curves) (rlz : Rlz) (curves : Curves) :
  realizations self = [rlz] →
  combine_curves result
    (zero_curves (length (sitecol_complete self)) (imtls (oqparam self)))
    = {[ ordinal rlz := curves ]} →
  ∃ self', post_execute self result = Ok self'
    ∧ mean_curves self' = Some curves
    ∧ quantile self' = quantile self
    ∧ stat_calls self' = stat_calls self
    ∧ hdf5 self'
      = hdf5 (if individual_curves (oqparam self)
              then store_curves self ("rlz-" +:+ pretty (ordinal rlz)) curves
              else self).
Proof.
  intros Hrlzs Hcombine. unfold post_execute. cbn [set_curves_by_trt_gsim
    oqparam sitecol_complete realizations].
  rewrite Hcombine, Hrlzs, map_to_list_singleton. cbn [length fmap list_fmap snd].
  rewrite decide_True by done. eexists. split; [reflexivity|].
  destruct (individual_curves (oqparam self)); cbn [foldl].
  - destruct (store_curves_frame (set_curves_by_trt_gsim self result)
                ("rlz-" +:+ pretty (ordinal rlz)) curves) as (_ & _ & Hq & Hs).
    cbn [mean_curves quantile stat_calls hdf5 set_mean_curves].
    rewrite Hq, Hs. repeat split; try done.
    unfold store_curves. cbn.
    destruct (persistent self), (hazard_maps (oqparam self)),
      (uniform_hazard_spectra (oqparam self)); done.
  - done.
Qed.

Lemma zero_curves_field (n : nat) (imtls : list (string * list Q)) (imt : string) :
  imt ∈ imtls.*1 → is_Some (zero_curves n imtls !! imt).
Proof.
  intros Hin. unfold zero_curves.
  destruct (list_to_map _ !! imt) eqn:Hlk; [by eexists|].
  apply not_elem_of_list_to_map in Hlk. exfalso. apply Hlk.
  rewrite <- list_fmap_compose.
  apply list_elem_of_fmap in Hin as ([i l] & -> & Hin).
  apply list_elem_of_fmap. by exists (i, l).
Qed.

Lemma curves_of_ok (curves_by_rlz : gmap nat Curves) (imt : string)
    (rlzs : list Rlz) :
  (∀ rlz, rlz ∈ rlzs →
     ∃ c a, curves_by_rlz !! ordinal rlz = Some c ∧ c !! imt = Some a) →
  curves_of curves_by_rlz imt rlzs = Ok (rlz_curve curves_by_rlz imt <$> rlzs).
Proof.
  induction rlzs as [|rlz rlzs IH]; intros Hall; [done|].
  destruct (Hall rlz) as (c & a & Hc & Ha); [set_solver|].
  cbn [curves_of]. unfold getitem, getfield. rewrite Hc. simpl. rewrite Ha. simpl.
  rewrite IH by (intros r Hr; apply Hall; set_solver). simpl.
  unfold rlz_curve at 2. rewrite Hc. simpl. by rewrite Ha.
Qed.


Lemma mean_fold_spec (curves_by_rlz : gmap nat Curves) (rlzs : list Rlz)
    (weights : option (list Q)) (l : list string) :
  ∀ st : Calculator * Curves,
    mean_curves st.1 = Some st.2 →
    (∀ imt, imt ∈ l → is_Some (st.2 !! imt)
       ∧ ∃ values, curves_of curves_by_rlz imt rlzs = Ok values) →
    ∃ st', foldl (λ st imt, st ≫= λ st, mean_step curves_by_rlz rlzs weights st imt)
                 (Ok st) l = Ok st'
      ∧ oqparam st'.1 = oqparam st.1
      ∧ quantile st'.1 = quantile st.1
      ∧ mean_curves st'.1 = Some st'.2
      ∧ (∀ imt, imt ∉ l → st'.2 !! imt = st.2 !! imt)
      ∧ (∀ imt values, imt ∈ l → curves_of curves_by_rlz imt rlzs = Ok values →
           st'.2 !! imt = Some (mean_curve values weights)).
Proof.
  induction l as [|imt0 l IH]; intros st Hmc Hall.
  - exists st. repeat split; try done. intros imt values Hin. set_solver.
  - destruct (Hall imt0) as ([old Hold] & values0 & Hvalues0); [set_solver|].
    cbn [foldl mbind res_bind]. unfold mean_step at 2, setfield.
    rewrite Hvalues0. cbn [mbind res_bind]. rewrite Hold. cbn [mbind res_bind].
    match goal with |- context [foldl _ (Ok ?x) l] => destruct (IH x) as
      (st' & Hrun & Hoq & Hq & Hmc' & Hout & Hin) end.
    { done. }
    { intros imt Himt. destruct (Hall imt) as [Hs Hv]; [set_solver|]. split; [|done].
      cbn [snd]. by apply lookup_insert_is_Some'; right. }
    exists st'. split; [exact Hrun|]. cbn [fst snd] in *.
    repeat split; try done.
    + intros imt Himt. rewrite Hout by set_solver.
      rewrite lookup_insert_ne; [done|]. set_solver.
    + intros imt values Himt Hvalues. destruct (decide (imt ∈ l)) as [Hl|Hl].
      * by apply Hin.
      * assert (imt = imt0) as -> by set_solver.
        rewrite Hout by done. rewrite lookup_insert_eq. congruence.
Qed.




End PostExecute.

(** C5 on a concrete run with the single realization 0. *)
Lemma single_realization_passthrough_witness :
  ∃ self', ex_post_execute ex_combine_one [ex_rlz0] = Ok self'
    ∧ mean_curves self' = Some {[ "PGA" := [1%Q] ]}
    ∧ quantile self' = None
    ∧ stat_calls self' = []
    ∧ hdf5 self' = [("hcurves/rlz-0", DCurves {[ "PGA" := [1%Q] ]})].
Proof.
  exact (single_realization_passthrough (services := ex_services ex_combine_one)
           (ex_calculator [ex_rlz0]) ∅ ex_rlz0 {[ "PGA" := [1%Q] ]} eq_refl eq_refl).
Defined.


Example mean_curves_scenario_run :
  match ex_post_execute ex_combine_two [ex_rlz0; ex_rlz1] with
  | Ok self =>
      (Qred <$> default [] (default ∅ (mean_curves self) !! "PGA"),
       stat_calls self, (hdf5 self).*1)
  | Raise _ => ([], [], [])
  end
  = ([(7 # 5)%Q], [MeanCurve "PGA"],
     ["hcurves/rlz-1"; "hcurves/rlz-0"; "hcurves/mean"]).
Proof. vm_compute. reflexivity. Qed.

End StatisticsFacts.

(** ** The accumulator of the scenario risk calculator *)

Module ScenarioRiskFacts.
Import ScenarioRisk.

Section Core.
Context {F : Type} {numpy : Numpy F}.
#[local] Abbreviation Output := (@ScenarioRisk.Output F).
#[local] Abbreviation Value := (@ScenarioRisk.Value F).

Lemma lpa_one_mean {M : Type} (assets : list Asset) (m : M) (stddevs : list F) :
  lpa assets [m] stddevs =
    match assets, stddevs with
    | a :: _, s :: _ => [(asset_id a, m, s)]
    | _, _ => []
    end.
Proof. destruct assets as [|a [|a' assets]], stddevs as [|s [|s' stddevs]]; done. Qed.

Lemma iadd_at_spec (result : gmap nat (gmap (string * string) Value))
    (h : nat) (kt lt : string) (v : Value) :
  is_Some (result !! h) → kinds result → kind_ok kt v →
  ∃ result', iadd_at result h (kt, lt) v = Ok result'
    ∧ kinds result'
    ∧ (∀ h', is_Some (result !! h') → is_Some (result' !! h'))
    ∧ ∀ h' key,
        triples_at result' h' key
        = triples_at result h' key
          ++ (if decide (h' = h ∧ key = (kt, lt)) then triples_of v else []).
Proof.
  intros [d Hd] Hkinds Hv. unfold iadd_at, getitem. rewrite Hd. cbn [mbind res_bind].
  assert (∃ y, accum_iadd d (kt, lt) v = Ok (<[(kt, lt) := y]> d)
               ∧ kind_ok kt y
               ∧ triples_of y
                 = triples_of (default (Losses []) (d !! (kt, lt))) ++ triples_of v)
    as (y & Hrun & Hy & Hty).
  { unfold accum_iadd. destruct (d !! (kt, lt)) as [x|] eqn:Hx.
    - pose proof (Hkinds h d kt lt x Hd Hx) as Hkx.
      destruct x as [a|a], v as [b|b]; simpl in *.
      + eexists. split; [done|]. split; [done|]. done.
      + exfalso. destruct Hkx as [->| ->], Hv as [?|?]; done.
      + exfalso. destruct Hkx as [->| ->], Hv as [?|?]; done.
      + eexists. split; [done|]. split; [done|]. done.
    - exists v. split; [done|]. split; [done|]. done. }
  rewrite Hrun. cbn [mbind res_bind]. eexists. split; [done|]. split; [|split].
  - intros h' d' kt' lt' v' Hd' Hv'.
    destruct (decide (h' = h)) as [->|Hne].
    + rewrite lookup_insert_eq in Hd'. injection Hd' as <-.
      destruct (decide ((kt', lt') = (kt, lt))) as [[= -> ->]|Hk].
      * rewrite lookup_insert_eq in Hv'. by injection Hv' as <-.
      * rewrite lookup_insert_ne in Hv' by done. by eapply Hkinds.
    + rewrite lookup_insert_ne in Hd' by done. by eapply Hkinds.
  - intros h' Hs. destruct (decide (h' = h)) as [->|Hne].
    + rewrite lookup_insert_eq. by eexists.
    + by rewrite lookup_insert_ne.
  - intros h' key. unfold triples_at.
    destruct (decide (h' = h)) as [->|Hne].
    + rewrite lookup_insert_eq, Hd. cbn [mbind option_bind].
      destruct (decide (key = (kt, lt))) as [->|Hk].
      * rewrite lookup_insert_eq, decide_True by done.
        fold (triples_of y). rewrite Hty.
        by destruct (d !! (kt, lt)) as [[a|a]|].
      * rewrite lookup_insert_ne by done.
        rewrite decide_False by (intros [_ ?]; done). by rewrite app_nil_r.
    + rewrite lookup_insert_ne by done.
      rewrite decide_False by (intros [? _]; done). by rewrite app_nil_r.
Qed.

Lemma out_step_spec (result : gmap nat (gmap (string * string) Value))
    (out : Output) :
  is_Some (result !! hid out) → kinds result →
  ∃ result', out_step result out = Ok result'
    ∧ kinds result'
    ∧ (∀ h, is_Some (result !! h) → is_Some (result' !! h))
    ∧ ∀ h lt,
        triples_at result' h ("asset-loss", lt)
        = triples_at result h ("asset-loss", lt)
          ++ (if decide (hid out = h ∧ loss_type out = lt)
              then loss_triples out else [])
        ∧ triples_at result' h ("asset-ins", lt)
          = triples_at result h ("asset-ins", lt)
            ++ (if decide (hid out = h ∧ loss_type out = lt)
                then insured_triples out else []).
Proof.
  intros Hh Hkinds. unfold out_step.
  destruct (iadd_at_spec result (hid out) "asset-loss" (loss_type out)
              (Triples (loss_triples out)) Hh Hkinds)
    as (r1 & Hrun1 & Hk1 & Hs1 & Ht1); [by left|].
  unfold loss_triples in Hrun1. rewrite Hrun1. cbn [mbind res_bind].
  destruct (iadd_at_spec r1 (hid out) "agg" (loss_type out)
              (Losses (aggregate_losses out)) (Hs1 _ Hh) Hk1)
    as (r2 & Hrun2 & Hk2 & Hs2 & Ht2); [by left|].
  rewrite Hrun2. cbn [mbind res_bind].
  assert (∀ h lt,
            triples_at r2 h ("asset-loss", lt)
            = triples_at result h ("asset-loss", lt)
              ++ (if decide (hid out = h ∧ loss_type out = lt)
                  then loss_triples out else [])
            ∧ triples_at r2 h ("asset-ins", lt)
              = triples_at result h ("asset-ins", lt)) as H12.
  { intros h lt. rewrite !Ht2, !Ht1. split.
    - rewrite (decide_False (P := h = hid out ∧ ("asset-loss", lt) = ("agg", _)))
        by (intros [_ ?]; done).
      rewrite app_nil_r. f_equal. simpl.
      destruct (decide (hid out = h ∧ loss_type out = lt)) as [[<- <-]|Hn].
      + by rewrite decide_True.
      + rewrite decide_False; [done|]. intros [-> [= ->]]. by apply Hn.
    - rewrite (decide_False (P := h = hid out ∧ ("asset-ins", lt) = ("agg", _)))
        by (intros [_ ?]; done).
      rewrite (decide_False (P := h = hid out ∧ ("asset-ins", lt) = ("asset-loss", _)))
        by (intros [_ ?]; done).
      by rewrite !app_nil_r. }
  destruct (insured_loss_matrix out) as [insured|] eqn:Hins.
  - destruct (iadd_at_spec r2 (hid out) "asset-ins" (loss_type out)
                (Triples (insured_triples out)) (Hs2 _ (Hs1 _ Hh)) Hk2)
      as (r3 & Hrun3 & Hk3 & Hs3 & Ht3); [by right|].
    unfold insured_triples in Hrun3. rewrite Hins in Hrun3.
    rewrite Hrun3. cbn [mbind res_bind].
    destruct (iadd_at_spec r3 (hid out) "ins" (loss_type out)
                (Losses (insured_losses out)) (Hs3 _ (Hs2 _ (Hs1 _ Hh))) Hk3)
      as (r4 & Hrun4 & Hk4 & Hs4 & Ht4); [by right|].
    exists r4. split; [exact Hrun4|]. split; [exact Hk4|]. split; [by auto|].
    intros h lt. destruct (H12 h lt) as [Hloss Hi]. rewrite !Ht4, !Ht3, Hloss, Hi.
    split.
    + rewrite (decide_False (P := h = hid out ∧ ("asset-loss", lt) = ("ins", _)))
        by (intros [_ ?]; done).
      rewrite (decide_False (P := h = hid out ∧ ("asset-loss", lt) = ("asset-ins", _)))
        by (intros [_ ?]; done).
      by rewrite !app_nil_r.
    + rewrite (decide_False (P := h = hid out ∧ ("asset-ins", lt) = ("ins", _)))
        by (intros [_ ?]; done).
      rewrite app_nil_r. f_equal. simpl.
      destruct (decide (hid out = h ∧ loss_type out = lt)) as [[<- <-]|Hn].
      * by rewrite decide_True.
      * rewrite decide_False; [done|]. intros [-> [= ->]]. by apply Hn.
  - exists r2. split; [done|]. split; [exact Hk2|]. split; [by auto|].
    intros h lt. destruct (H12 h lt) as [Hloss Hi]. split; [exact Hloss|].
    rewrite Hi. unfold insured_triples. rewrite Hins.
    destruct (decide (hid out = h ∧ loss_type out = lt)); by rewrite app_nil_r.
Qed.

Lemma out_loop_spec (outs : list Output) :
  ∀ result : gmap nat (gmap (string * string) Value),
    (∀ out, out ∈ outs → is_Some (result !! hid out)) → kinds result →
    ∃ result',
      foldl (λ st out, st ≫= λ result, out_step result out) (Ok result) outs
      = Ok result'
      ∧ ∀ h lt,
          triples_at result' h ("asset-loss", lt)
          = triples_at result h ("asset-loss", lt)
            ++ flat_map (λ out, if decide (hid out = h ∧ loss_type out = lt)
                                then loss_triples out else []) outs
          ∧ triples_at result' h ("asset-ins", lt)
            = triples_at result h ("asset-ins", lt)
              ++ flat_map (λ out, if decide (hid out = h ∧ loss_type out = lt)
                                  then insured_triples out else []) outs.
Proof.
  induction outs as [|out outs IH]; intros result Hhids Hkinds.
  - exists result. split; [done|]. intros h lt. by rewrite !app_nil_r.
  - destruct (out_step_spec result out) as (r1 & Hrun1 & Hk1 & Hs1 & Ht1);
      [apply Hhids; set_solver|done|].
    cbn [foldl mbind res_bind]. rewrite Hrun1.
    destruct (IH r1) as (r' & Hrun' & Ht'); [|done|].
    { intros o Ho. apply Hs1, Hhids. set_solver. }
    exists r'. split; [exact Hrun'|]. intros h lt.
    destruct (Ht' h lt) as [-> ->]. destruct (Ht1 h lt) as [-> ->].
    cbn [flat_map]. by rewrite <- !app_assoc.
Qed.

Lemma nested_foldl_concat {A B : Type} (f : A → B → A) (ls : list (list B)) :
  ∀ a, foldl (λ a l, foldl f a l) a ls = foldl f a (concat ls).
Proof.
  induction ls as [|l ls IH]; intros a; [done|].
  cbn [foldl concat]. by rewrite foldl_app, IH.
Qed.

Lemma flat_map_filter {A B : Type} (P : A → Prop) `{∀ x, Decision (P x)}
    (f : A → list B) (l : list A) :
  flat_map (λ x, if decide (P x) then f x else []) l = flat_map f (filter P l).
Proof.
  induction l as [|x l IH]; [done|]. cbn [flat_map].
  rewrite filter_cons. destruct (decide (P x)); cbn [flat_map]; by rewrite IH.
Qed.

(** The lists of triples at the end of [scenario_risk]. *)
Lemma scenario_risk_triples
    (realizations : list nat) (outputs : list (list Output)) :
  (∀ out, out ∈ concat outputs → hid out ∈ realizations) →
  ∃ result, scenario_risk realizations outputs = Ok result
    ∧ ∀ h lt,
        triples_at result h ("asset-loss", lt)
        = flat_map loss_triples
            (filter (λ out, hid out = h ∧ loss_type out = lt) (concat outputs))
        ∧ triples_at result h ("asset-ins", lt)
          = flat_map insured_triples
              (filter (λ out, hid out = h ∧ loss_type out = lt) (concat outputs)).
Proof.
  intros Hhids. unfold scenario_risk. rewrite nested_foldl_concat.
  set (result0 := list_to_map ((λ ordinal, (ordinal, ∅)) <$> realizations)
                  : gmap nat (gmap (string * string) Value)).
  assert (∀ h, h ∈ realizations → result0 !! h = Some ∅) as Hinit.
  { intros h Hh. destruct (result0 !! h) as [d|] eqn:Hd.
    - apply elem_of_list_to_map_2, list_elem_of_fmap in Hd as (o & [= -> ->] & _).
      done.
    - apply not_elem_of_list_to_map in Hd. exfalso. apply Hd.
      rewrite <- list_fmap_compose. apply list_elem_of_fmap. by exists h. }
  assert (∀ h d, result0 !! h = Some d → d = ∅) as Hempty.
  { intros h d Hd.
    by apply elem_of_list_to_map_2, list_elem_of_fmap in Hd as (o & [= -> ->] & _). }
  destruct (out_loop_spec (concat outputs) result0) as (result & Hrun & Ht).
  { intros out Hout. rewrite Hinit; [by eexists|by apply Hhids]. }
  { intros h d kt lt v Hd Hv. apply Hempty in Hd as ->. by rewrite lookup_empty in Hv. }
  exists result. split; [exact Hrun|].
  intros h lt. destruct (Ht h lt) as [-> ->].
  assert (∀ key, triples_at result0 h key = []) as Hnil.
  { intros key. unfold triples_at. destruct (result0 !! h) as [d|] eqn:Hd; [|done].
    apply Hempty in Hd as ->. cbn. by rewrite lookup_empty. }
  rewrite !Hnil. cbn [app].
  by rewrite !(flat_map_filter (λ out, hid out = h ∧ loss_type out = lt)).
Qed.

(** C8 (as amended).  When every output belongs to a realization,
    [scenario_risk] ends normally, and under [('asset-loss', loss_type)]
    (and under [('asset-ins', loss_type)]) the accumulator of a
    realization holds, in order, the triples contributed by the outputs
    of that realization and loss type; an output whose loss matrix has
    one row per asset and at least one asset contributes exactly one
    triple -- the id of its first asset, the whole array of the means
    and the first standard deviation -- however many assets it has. *)
Theorem asset_losses_one_triple_per_output
    (realizations : list nat) (outputs : list (list Output)) :
  (∀ out, out ∈ concat outputs → hid out ∈ realizations) →
  ∃ result, scenario_risk realizations outputs = Ok result
    ∧ (∀ h lt,
         triples_at result h ("asset-loss", lt)
         = flat_map loss_triples
             (filter (λ out, hid out = h ∧ loss_type out = lt) (concat outputs))
         ∧ triples_at result h ("asset-ins", lt)
           = flat_map insured_triples
               (filter (λ out, hid out = h ∧ loss_type out = lt) (concat outputs)))
    ∧ (∀ out a rest, out ∈ concat outputs → assets out = a :: rest →
         (length (loss_matrix out) = length (assets out) →
          loss_triples out
          = [(asset_id a, row_mean <$> loss_matrix out,
              row_std (default [] (head (loss_matrix out))))])
         ∧ (∀ insured, insured_loss_matrix out = Some insured →
              length insured = length (assets out) →
              insured_triples out
              = [(asset_id a, row_mean <$> insured,
                  row_std (default [] (head insured)))])).
Proof.
  intros Hhids.
  destruct (scenario_risk_triples realizations outputs Hhids) as (result & Hrun & Ht).
  exists result. split; [exact Hrun|]. split; [exact Ht|].
  intros out a rest _ Hassets. split.
  - intros Hrows. unfold loss_triples. rewrite lpa_one_mean, Hassets.
    rewrite Hassets in Hrows. by destruct (loss_matrix out).
  - intros insured Hins Hrows. unfold insured_triples.
    rewrite Hins, lpa_one_mean, Hassets. rewrite Hassets in Hrows.
    by destruct insured.
Qed.

End Core.

(** C8, counterexample.  Two outputs of the same realization and loss
    type leave two triples under ['asset-loss']: the list does not hold
    exactly one triple. *)
Lemma asset_losses_two_outputs :
  ∃ result, scenario_risk (numpy := ex_numpy) [0] ex_outputs = Ok result
    ∧ ¬ one_triple_spec ex_outputs result.
Proof.
  destruct (scenario_risk_triples (numpy := ex_numpy) [0] ex_outputs)
    as (result & Hrun & Htriples).
  - intros out Hout. cbn in Hout.
    apply elem_of_cons in Hout as [->|Hout]; [apply list_elem_of_here|].
    apply list_elem_of_singleton in Hout as ->. apply list_elem_of_here.
  - exists result. split; [exact Hrun|].
    intros Hspec. destruct (Hspec ex_out1) as [Hone _].
    + apply list_elem_of_here.
    + discriminate.
    + rewrite (proj1 (Htriples _ _)) in Hone. vm_compute in Hone. discriminate.
Qed.

(** C8 (as amended) on the same run: one triple for each output, that of
    its first asset with the array of all the means. *)
Lemma asset_losses_one_triple_per_output_witness :
  ∃ result, scenario_risk (numpy := ex_numpy) [0] ex_outputs = Ok result
    ∧ triples_at result 0 ("asset-loss", "structural")
      = [("a1", [15; 40], 0); ("a3", [2], 0)]%Z.
Proof.
  destruct (asset_losses_one_triple_per_output (numpy := ex_numpy) [0] ex_outputs)
    as (result & Hrun & Htriples & _).
  - intros out Hout. cbn in Hout.
    apply elem_of_cons in Hout as [->|Hout]; [apply list_elem_of_here|].
    apply list_elem_of_singleton in Hout as ->. apply list_elem_of_here.
  - exists result. split; [exact Hrun|].
    rewrite (proj1 (Htriples 0 "structural")). vm_compute. reflexivity.
Defined.

End ScenarioRiskFacts.

(** ** The collectors of [readinput] *)

Module ReadInputFacts.
Import ReadInput.

Lemma entry_ind (P : Entry → Prop) :
  (∀ fname, P (File fname)) →
  (∀ fname sub, Forall P sub → P (Dir fname sub)) →
  ∀ e, P e.
Proof.
  intros Hfile Hdir. fix IH 1. intros [fname|fname sub].
  - apply Hfile.
  - apply Hdir. induction sub as [|e sub IHsub]; constructor; [apply IH|exact IHsub].
Qed.

Lemma collect_files_cons (dirpath : string) (cond : string → bool)
    (e : Entry) (rest : list Entry) :
  collect_files dirpath cond (e :: rest)
  = collect_entry dirpath cond e ++ collect_files dirpath cond rest.
Proof. reflexivity. Qed.

Lemma file_below_cons (dirpath : string) (e : Entry) (rest : list Entry)
    (fullname : string) :
  file_below dirpath (e :: rest) fullname
  ↔ match e with
    | File fname => fullname = join dirpath fname
    | Dir fname sub => file_below (join dirpath fname) sub fullname
    end ∨ file_below dirpath rest fullname.
Proof.
  split.
  - intros Hb. inversion Hb as [d es f Hin|d es f sub full Hin Hsub]; subst.
    + apply elem_of_cons in Hin as [<-|Hin]; [by left|].
      right. by apply file_here.
    + apply elem_of_cons in Hin as [<-|Hin]; [by left|].
      right. by eapply file_deeper.
  - intros [He|Hrest].
    + destruct e as [fname|fname sub].
      * subst. apply file_here. apply list_elem_of_here.
      * eapply file_deeper; [apply list_elem_of_here|done].
    + inversion Hrest as [d es f Hin|d es f sub full Hin Hsub]; subst.
      * apply file_here. by apply list_elem_of_further.
      * eapply file_deeper; [by apply list_elem_of_further|done].
Qed.

(** Without a condition every file below the directory is collected. *)
Lemma collect_entry_all (e : Entry) :
  ∀ dirpath fullname,
    fullname ∈ collect_entry dirpath accept_all e
    ↔ match e with
      | File fname => fullname = join dirpath fname
      | Dir fname sub => file_below (join dirpath fname) sub fullname
      end.
Proof.
  induction e as [fname|fname sub IH] using entry_ind; intros dirpath fullname.
  - cbn [collect_entry accept_all]. apply list_elem_of_singleton.
  - cbn [collect_entry]. generalize (join dirpath fname). intros d.
    induction IH as [|e sub He _ IHsub].
    + split; [set_solver|]. intros Hb. inversion Hb; set_solver.
    + cbn [flat_map]. by rewrite file_below_cons, elem_of_app, He, IHsub.
Qed.

Lemma collect_files_all (entries : list Entry) (dirpath fullname : string) :
  fullname ∈ collect_files dirpath accept_all entries
  ↔ file_below dirpath entries fullname.
Proof.
  induction entries as [|e rest IH].
  - split; [set_solver|]. intros Hb. inversion Hb; set_solver.
  - by rewrite collect_files_cons, file_below_cons, elem_of_app, collect_entry_all, IH.
Qed.

(** C9.  [collect_files(dirpath, cond)] holds a full name exactly when it
    is that of a file directly in [dirpath] that satisfies [cond], or
    that of a file below a subdirectory of [dirpath], at any depth,
    whatever [cond] says of it. *)
Theorem collect_files_cond_top_level_only
    (dirpath : string) (cond : string → bool) (entries : list Entry)
    (fullname : string) :
  fullname ∈ collect_files dirpath cond entries
  ↔ (∃ fname, File fname ∈ entries ∧ fullname = join dirpath fname
              ∧ cond fullname = true)
    ∨ (∃ fname sub, Dir fname sub ∈ entries
                    ∧ file_below (join dirpath fname) sub fullname).
Proof.
  induction entries as [|e rest IH].
  - split; [set_solver|]. intros [(f & Hin & _)|(f & sub & Hin & _)]; set_solver.
  - rewrite collect_files_cons, elem_of_app, IH; clear IH.
    destruct e as [fname|fname sub]; cbn [collect_entry].
    + split.
      * intros [Hhere|[(f & Hin & Hf)|(f & sub & Hin & Hsub)]].
        -- destruct (cond (join dirpath fname)) eqn:Hc; [|set_solver].
           apply list_elem_of_singleton in Hhere as ->.
           left. exists fname. split; [apply list_elem_of_here|done].
        -- left. exists f. split; [by apply list_elem_of_further|done].
        -- right. exists f, sub. split; [by apply list_elem_of_further|done].
      * intros [(f & Hin & -> & Hc)|(f & sub & Hin & Hsub)].
        -- apply elem_of_cons in Hin as [[= ->]|Hin].
           ++ left. rewrite Hc. apply list_elem_of_here.
           ++ right. left. by exists f.
        -- apply elem_of_cons in Hin as [?|Hin]; [done|].
           right. right. by exists f, sub.
    + fold (collect_files (join dirpath fname) accept_all sub).
      rewrite collect_files_all. split.
      * intros [Hsub|[(f & Hin & Hf)|(f & sub' & Hin & Hsub)]].
        -- right. exists fname, sub. split; [apply list_elem_of_here|done].
        -- left. exists f. split; [by apply list_elem_of_further|done].
        -- right. exists f, sub'. split; [by apply list_elem_of_further|done].
      * intros [(f & Hin & Hf)|(f & sub' & Hin & Hsub)].
        -- apply elem_of_cons in Hin as [?|Hin]; [done|].
           right. left. by exists f.
        -- apply elem_of_cons in Hin as [[= -> ->]|Hin]; [by left|].
           right. right. by exists f, sub'.
Qed.

(** A tree with a file rejected by the condition at both levels. *)
Example collect_files_run :
  collect_files "/tmp/x" (λ fullname, String.eqb fullname "/tmp/x/job.ini")
    [File "job.ini"; File "notes.txt"; Dir "sub" [File "notes.txt"; Dir "deep" [File "a"]]]
  = ["/tmp/x/job.ini"; "/tmp/x/sub/notes.txt"; "/tmp/x/sub/deep/a"].
Proof. reflexivity. Qed.

Section GetParams.
Context {Params : Type} {populate_params : Populate Params}.

Lemma filter_length_all {A : Type} (P : A → Prop) `{∀ x, Decision (P x)}
    (l : list A) :
  length (filter P l) = length l ↔ Forall P l.
Proof.
  induction l as [|x l IH]; [by split|].
  rewrite filter_cons, Forall_cons. destruct (decide (P x)) as [HP|HP]; simpl.
  - split; [intros [= Hl]; split; [done|by apply IH] | intros [_ Hl]; f_equal; by apply IH].
  - pose proof (length_filter P l). split; [lia|]. by intros [? _].
Qed.

(** An archive that holds none of the expected configuration files
    leads to the same state. *)
Lemma get_params_archive_without_ini (fs : FileSystem) (path temp_dir : string)
    (entries : list Entry) :
  endswith path ".zip" = true →
  fs_unzip fs path = Ok (temp_dir, entries) →
  Forall (λ f, basename f ∉ ["job_hazard.ini"; "job_haz.ini"; "job.ini"; "job_risk.ini"])
         (collect_files temp_dir accept_all entries) →
  get_params fs [path] = Raise IndexError.
Proof.
  intros Hzip Hunzip Hnone. unfold get_params, extract_from_zip.
  rewrite Hzip, Hunzip. cbn [mbind res_bind].
  assert (filter (λ f, basename f ∈ ["job_hazard.ini"; "job_haz.ini"; "job.ini"; "job_risk.ini"])
            (collect_files temp_dir accept_all entries) = []) as ->; [|done].
  induction Hnone as [|f l Hf _ IH]; [done|].
  rewrite filter_cons. by rewrite decide_False.
Qed.

(** On a list with at least one path that is not a single archive, the
    check raises [IOError] for the first path exactly when no path
    exists; otherwise the parsing goes on with the paths that exist. *)
Lemma get_params_plain (fs : FileSystem) (ini : string) (job_inis : list string) :
  plain (ini :: job_inis) →
  get_params fs (ini :: job_inis) =
    if decide (Forall (λ ini, fs_exists fs ini = false) (ini :: job_inis))
    then Raise (IOError ("File not found: " +:+ ini))
    else populate (ini :: job_inis)
           (filter (λ ini, fs_exists fs ini = true) (ini :: job_inis)).
Proof.
  intros Hplain. unfold get_params.
  assert (match ini :: job_inis with
          | [ini] =>
              if endswith ini ".zip"
              then extract_from_zip fs ini
                     ["job_hazard.ini"; "job_haz.ini"; "job.ini"; "job_risk.ini"]
              else Ok (ini :: job_inis)
          | _ => Ok (ini :: job_inis)
          end = Ok (ini :: job_inis)) as ->.
  { destruct job_inis; [|done]. simpl in Hplain. by rewrite Hplain. }
  cbn [mbind res_bind].
  destruct (decide (Forall (λ ini, fs_exists fs ini = false) (ini :: job_inis)))
    as [Hall|Hsome].
  - rewrite decide_True by (by apply filter_length_all).
    rewrite filter_cons, decide_True; [done|]. by apply Forall_cons in Hall as [? _].
  - rewrite decide_False; [done|]. by rewrite filter_length_all.
Qed.

(** C10.  On the empty list [not_found] is empty like [job_inis]: the
    branch of the missing files is taken and [not_found[0]] raises
    [IndexError] before any [IOError] is built, although none of the given
    files exists.  On every other list that is not a single archive
    [IOError] is raised, for the first path, exactly when no path exists;
    when some path exists the missing ones are skipped and the parsing
    goes on. *)
Theorem get_params_existence_check (fs : FileSystem) :
  get_params fs [] = Raise IndexError
  ∧ ∀ ini job_inis,
      plain (ini :: job_inis) →
      get_params fs (ini :: job_inis) =
        if decide (Forall (λ ini, fs_exists fs ini = false) (ini :: job_inis))
        then Raise (IOError ("File not found: " +:+ ini))
        else populate (ini :: job_inis)
               (filter (λ ini, fs_exists fs ini = true) (ini :: job_inis)).
Proof.
  split.
  - reflexivity.
  - intros ini job_inis Hplain. by apply get_params_plain.
Qed.

End GetParams.

End ReadInputFacts.

(** ** The reduction of the tile results *)

Module TilingReduceFacts.
Import Tiling TilingReduce.

Section Reduce.
Context {Site V : Type}.
#[local] Abbreviation TileArgs := (@Tiling.TileArgs Site).
#[local] Abbreviation TileCurves := (@Tiling.TileCurves V).

Lemma scattered_after_prefix (pre c rest : list V) :
  length c ≤ length rest →
  scattered (length pre) c (pre ++ rest) = pre ++ c ++ drop (length c) rest.
Proof.
  intros Hlen. unfold scattered.
  rewrite take_app_length. f_equal. f_equal.
  rewrite drop_app_ge by lia. f_equal. lia.
Qed.

Lemma zero_acc_loop_dom (zero : V) (nsites : nat) (trt_gsims : list Key) :
  dom (zero_acc_loop zero nsites trt_gsims).1 = list_to_set trt_gsims.
Proof.
  unfold zero_acc_loop.
  set (step := λ '(acc, store) trt_gsim,
                 let a := fresh (dom store) in
                 (<[trt_gsim := a]> acc, <[a := replicate nsites zero]> store)).
  assert (∀ l (st : gmap Key nat * gmap nat (list V)),
            dom (foldl step st l).1 = dom st.1 ∪ list_to_set l) as Hgen.
  { induction l as [|k l IH]; intros [acc store]; simpl.
    - set_solver.
    - rewrite IH. simpl. rewrite dom_insert_L. set_solver. }
  rewrite Hgen. simpl. rewrite dom_empty_L. set_solver.
Qed.

Lemma tile_curves_length (keys : gset Key) (k : Key) (tls : list (list Site)) :
  ∀ (curves : list (gmap Key (list V))) (i position : nat),
    Forall2 (tile_curves_ok keys) (args_from i position tls) curves →
    k ∈ keys →
    length (concat ((λ c, default [] (c !! k)) <$> curves)) = length (concat tls).
Proof.
  induction tls as [|tile tls IH]; intros curves i position Hok Hk.
  - cbn [args_from] in Hok. by apply Forall2_nil_inv_l in Hok as ->.
  - cbn [args_from] in Hok.
    apply Forall2_cons_inv_l in Hok as (c0 & curves' & [Hdom Hlen] & Hok & ->).
    cbn [fmap list_fmap concat]. rewrite !length_app, (IH _ _ _ Hok Hk). f_equal.
    assert (is_Some (c0 !! k)) as [c Hc] by (apply elem_of_dom; by rewrite Hdom).
    rewrite Hc. cbn. by apply (Hlen k).
Qed.

(** One tile after the other: the arrays hold what the tiles before have
    written, then the curves of the tiles, then what was there. *)
Lemma reduce_tiles_from (acc : gmap Key nat) (N : nat) (tls : list (list Site)) :
  no_alias acc →
  ∀ (curves : list (gmap Key (list V))) (i position : nat)
    (store : gmap nat (list V)) (pre : Key → list V),
    Forall2 (tile_curves_ok (dom acc)) (args_from i position tls) curves →
    position + length (concat tls) ≤ N →
    (∀ k a, acc !! k = Some a →
       ∃ rest, store !! a = Some (pre k ++ rest)
               ∧ length (pre k) = position ∧ length (pre k ++ rest) = N) →
    ∃ store',
      reduce_tiles acc store (zip_with tile_result (args_from i position tls) curves)
      = Ok (acc, store')
      ∧ ∀ k a, acc !! k = Some a →
          ∃ rest,
            store' !! a
            = Some (pre k ++ concat ((λ c, default [] (c !! k)) <$> curves) ++ rest)
            ∧ length (pre k ++ concat ((λ c, default [] (c !! k)) <$> curves) ++ rest)
              = N.
Proof.
  intros Hinj. induction tls as [|tile tls IH];
    intros curves i position store pre Hok Hfit Hstore.
  - cbn [args_from] in *. apply Forall2_nil_inv_l in Hok as ->.
    exists store. split; [done|]. intros k a Ha.
    destruct (Hstore k a Ha) as (rest & Hs & Hp & Hl). by exists rest.
  - cbn [args_from concat] in *. rewrite length_app in Hfit.
    apply Forall2_cons_inv_l in Hok as (c0 & curves' & [Hdom Hlen] & Hok & ->).
    cbn [zip_with]. unfold reduce_tiles. cbn [foldl mbind res_bind].
    unfold agg_curves_by_trt_gsim at 2. cbn [tc_items tile_result].
    destruct (TilingFacts.scatter_loop acc
                (tile_result {| ta_sitecol := tile; ta_position := position;
                                ta_tileno := i |} c0)
                position (length tile) (keys c0) Hinj eq_refl store (NoDup_keys _))
      as (store1 & Hrun1 & Hin1 & Hout1).
    { intros k Hk. apply elem_of_keys in Hk as [c Hc].
      assert (is_Some (acc !! k)) as [a Ha]
        by (apply elem_of_dom; rewrite <- Hdom; apply elem_of_dom; by eexists).
      destruct (Hstore k a Ha) as (rest & Hs & Hp & Hl).
      exists c, a, (pre k ++ rest). repeat split; try done.
      - by apply (Hlen k).
      - cbn in Hl. lia. }
    cbn [tc_items tile_result] in Hrun1. rewrite Hrun1. cbn [mbind res_bind].
    destruct (IH curves' (S i) (position + length tile) store1
                (λ k, pre k ++ default [] (c0 !! k)) Hok) as (store' & Hrun & Hfinal).
    { lia. }
    { intros k a Ha.
      assert (is_Some (c0 !! k)) as [c Hc]
        by (apply elem_of_dom; rewrite Hdom; apply elem_of_dom; by eexists).
      destruct (Hstore k a Ha) as (rest & Hs & Hp & Hl).
      pose proof (Hlen k c Hc) as Hc_len. cbn in Hc_len.
      rewrite length_app in Hl.
      exists (drop (length c) rest). rewrite Hc. cbn [default].
      rewrite (Hin1 k a c (pre k ++ rest)); try done;
        [|apply elem_of_keys; by eexists].
      rewrite <- Hp, scattered_after_prefix by lia.
      rewrite <- app_assoc. split; [done|]. unfold id.
      rewrite !length_app, length_drop. split; lia. }
    exists store'. split; [exact Hrun|].
    intros k a Ha. destruct (Hfinal k a Ha) as (rest & Hs & Hl).
    exists rest. cbn [fmap list_fmap concat].
    rewrite <- !app_assoc in Hs, Hl. by rewrite <- !app_assoc.
Qed.

(** *** The order of the results *)

Lemma lookup_scattered (position : nat) (c arr : list V) (i : nat) :
  position + length c ≤ length arr →
  scattered position c arr !! i
  = if decide (position ≤ i < position + length c) then c !! (i - position)
    else arr !! i.
Proof.
  intros Hfit. case_decide as Hi.
  - replace i with (position + (i - position)) at 1 by lia.
    apply TilingFacts.lookup_scattered_inside; lia.
  - apply TilingFacts.lookup_scattered_outside; lia.
Qed.

Lemma scattered_comm (p1 p2 : nat) (c1 c2 arr : list V) :
  p1 + length c1 ≤ length arr → p2 + length c2 ≤ length arr →
  (∀ i, p1 ≤ i < p1 + length c1 → ¬ p2 ≤ i < p2 + length c2) →
  scattered p2 c2 (scattered p1 c1 arr) = scattered p1 c1 (scattered p2 c2 arr).
Proof.
  intros H1 H2 Hdisj. apply list_eq. intros i.
  rewrite !lookup_scattered by (rewrite ?TilingFacts.length_scattered; lia).
  repeat case_decide; try done. exfalso. by eapply Hdisj.
Qed.

Lemma agg_step (acc : gmap Key nat) (N : nat) (r : TileCurves)
    (store : gmap nat (list V)) (position T : nat) :
  no_alias acc → arrays_ok acc N store →
  tc_indices r = seq position T → position + T ≤ N →
  dom (tc_items r) = dom acc →
  (∀ k c, tc_items r !! k = Some c → length c = T) →
  ∃ store', agg_curves_by_trt_gsim acc r store = Ok (acc, store')
    ∧ arrays_ok acc N store'
    ∧ (∀ k a c arr, acc !! k = Some a → tc_items r !! k = Some c →
         store !! a = Some arr → store' !! a = Some (scattered position c arr))
    ∧ (∀ a, a ∉ (map_img acc : gset nat) → store' !! a = store !! a).
Proof.
  intros Hinj Hok Hidx Hfit Hdom Hlen.
  destruct (TilingFacts.scatter_loop acc r position T (keys (tc_items r)) Hinj Hidx
              store (NoDup_keys _)) as (store' & Hrun & Hin & Hout).
  { intros k Hk. apply elem_of_keys in Hk as [c Hc].
    assert (is_Some (acc !! k)) as [a Ha]
      by (apply elem_of_dom; rewrite <- Hdom; apply elem_of_dom; by eexists).
    destruct (Hok k a Ha) as (arr & Harr & HN).
    exists c, a, arr. repeat split; try done; [by eapply Hlen|lia]. }
  exists store'. unfold agg_curves_by_trt_gsim. rewrite Hrun.
  assert (∀ k a c arr, acc !! k = Some a → tc_items r !! k = Some c →
            store !! a = Some arr → store' !! a = Some (scattered position c arr))
    as Hin'.
  { intros k a c arr Ha Hc Harr. eapply Hin; try done.
    apply elem_of_keys. by eexists. }
  split; [done|]. split; [|split; [exact Hin'|]].
  - intros k a Ha. destruct (Hok k a Ha) as (arr & Harr & HN).
    assert (is_Some (tc_items r !! k)) as [c Hc]
      by (apply elem_of_dom; rewrite Hdom; apply elem_of_dom; by eexists).
    exists (scattered position c arr). split; [by eapply Hin'|].
    rewrite TilingFacts.length_scattered; [done|]. rewrite (Hlen k c Hc). lia.
  - intros a Ha. apply Hout. intros k _ Hk. apply Ha.
    apply elem_of_map_img. by exists k.
Qed.

Lemma agg_commute (acc : gmap Key nat) (N : nat) (r1 r2 : TileCurves)
    (store : gmap nat (list V)) :
  no_alias acc → arrays_ok acc N store →
  result_fits (dom acc) N r1 → result_fits (dom acc) N r2 →
  ranges_disjoint r1 r2 →
  reduce_tiles acc store [r1; r2] = reduce_tiles acc store [r2; r1].
Proof.
  intros Hinj Hok (p1 & T1 & Hi1 & Hf1 & Hd1 & Hl1) (p2 & T2 & Hi2 & Hf2 & Hd2 & Hl2)
    Hdisj.
  unfold reduce_tiles. cbn [foldl mbind res_bind].
  destruct (agg_step acc N r1 store p1 T1) as (s1 & -> & Hok1 & Hin1 & Hout1);
    try done.
  destruct (agg_step acc N r2 store p2 T2) as (s2 & -> & Hok2 & Hin2 & Hout2);
    try done.
  cbn [mbind res_bind].
  destruct (agg_step acc N r2 s1 p2 T2) as (s12 & -> & _ & Hin12 & Hout12);
    try done.
  destruct (agg_step acc N r1 s2 p1 T1) as (s21 & -> & _ & Hin21 & Hout21);
    try done.
  do 2 f_equal. apply map_eq. intros a.
  destruct (decide (a ∈ (map_img acc : gset nat))) as [Ha|Ha].
  - apply elem_of_map_img in Ha as [k Ha].
    destruct (Hok k a Ha) as (arr & Harr & HN).
    assert (is_Some (tc_items r1 !! k)) as [c1 Hc1]
      by (apply elem_of_dom; rewrite Hd1; apply elem_of_dom; by eexists).
    assert (is_Some (tc_items r2 !! k)) as [c2 Hc2]
      by (apply elem_of_dom; rewrite Hd2; apply elem_of_dom; by eexists).
    pose proof (Hl1 k c1 Hc1) as Hlen1. pose proof (Hl2 k c2 Hc2) as Hlen2.
    rewrite (Hin12 k a c2 _ Ha Hc2 (Hin1 k a c1 arr Ha Hc1 Harr)).
    rewrite (Hin21 k a c1 _ Ha Hc1 (Hin2 k a c2 arr Ha Hc2 Harr)).
    f_equal. apply scattered_comm; [lia..|].
    intros i Hi1' Hi2'. apply (Hdisj i).
    + rewrite Hi1. apply elem_of_seq. lia.
    + rewrite Hi2. apply elem_of_seq. lia.
  - by rewrite Hout12, Hout1, Hout21, Hout2.
Qed.

Lemma pairwise_disjoint_perm (l l' : list TileCurves) :
  l ≡ₚ l' → pairwise_disjoint l → pairwise_disjoint l'.
Proof.
  intros Hperm Hpw. symmetry in Hperm.
  apply Permutation_inj in Hperm as [_ (f & Hf & Hlk)].
  intros i j r1 r2 Hij H1 H2. rewrite Hlk in H1, H2.
  eapply (Hpw (f i) (f j)); try done. intros Heq. by apply Hf in Heq.
Qed.

Lemma reduce_tiles_ok (acc : gmap Key nat) (N : nat) (l : list TileCurves) :
  no_alias acc →
  ∀ store, arrays_ok acc N store → Forall (result_fits (dom acc) N) l →
    ∃ store', reduce_tiles acc store l = Ok (acc, store') ∧ arrays_ok acc N store'.
Proof.
  intros Hinj. induction l as [|r l IH]; intros store Hok Hfits.
  - by exists store.
  - apply Forall_cons in Hfits as [(p & T & Hi & Hf & Hd & Hl) Hfits].
    destruct (agg_step acc N r store p T) as (s1 & Hrun & Hok1 & _); try done.
    unfold reduce_tiles. cbn [foldl mbind res_bind]. rewrite Hrun.
    by apply IH.
Qed.

(** The results of any two orders of arrival leave the same arrays. *)
Lemma reduce_tiles_perm (acc : gmap Key nat) (N : nat) (l l' : list TileCurves) :
  no_alias acc → l ≡ₚ l' →
  Forall (result_fits (dom acc) N) l → pairwise_disjoint l →
  ∀ store, arrays_ok acc N store →
    reduce_tiles acc store l = reduce_tiles acc store l'.
Proof.
  intros Hinj Hperm.
  induction Hperm as [|r l l' Hperm IH|r1 r2 l|l1 l2 l3 Hp12 IH12 Hp23 IH23];
    intros Hfits Hpw store Hok.
  - done.
  - apply Forall_cons in Hfits as [(p & T & Hi & Hf & Hd & Hl) Hfits].
    destruct (agg_step acc N r store p T) as (s1 & Hrun & Hok1 & _); try done.
    unfold reduce_tiles. cbn [foldl mbind res_bind]. rewrite Hrun.
    apply IH; [done| |done].
    intros i j x y Hij Hx Hy. by apply (Hpw (S i) (S j) x y); [lia|..].
  - apply Forall_cons in Hfits as [Hf2 Hfits].
    apply Forall_cons in Hfits as [Hf1 Hfits].
    assert (ranges_disjoint r2 r1) as Hdisj by (by apply (Hpw 0 1)).
    pose proof (agg_commute acc N r2 r1 store Hinj Hok Hf2 Hf1 Hdisj) as Hcomm.
    unfold reduce_tiles in *. cbn [foldl] in *. by rewrite Hcomm.
  - rewrite IH12 by done. apply IH23; [|by eapply pairwise_disjoint_perm|done].
    by rewrite <- Hp12.
Qed.

Lemma args_from_ordered (tls : list (list Site)) :
  ∀ i position j1 j2 a1 a2, j1 < j2 →
    args_from i position tls !! j1 = Some a1 →
    args_from i position tls !! j2 = Some a2 →
    ta_position a1 + length (ta_sitecol a1) ≤ ta_position a2.
Proof.
  induction tls as [|tile tls IH]; intros i position j1 j2 a1 a2 Hlt H1 H2; [done|].
  destruct j2 as [|j2]; [lia|]. destruct j1 as [|j1]; simpl in H1, H2.
  - injection H1 as <-. apply TilingFacts.args_from_bounds in H2. simpl. lia.
  - eapply (IH _ _ j1 j2); [lia|done..].
Qed.

(** The results of the tiles fit the arrays and write at different
    positions. *)
Lemma tile_results_fit (keys : gset Key) (N : nat) (tls : list (list Site))
    (curves : list (gmap Key (list V))) (i position : nat) :
  Forall2 (tile_curves_ok keys) (args_from i position tls) curves →
  position + length (concat tls) ≤ N →
  Forall (result_fits keys N) (zip_with tile_result (args_from i position tls) curves)
  ∧ pairwise_disjoint (zip_with tile_result (args_from i position tls) curves).
Proof.
  intros Hok HN. split.
  - apply Forall_lookup. intros j r Hr.
    apply lookup_zip_with_Some in Hr as (a & c & -> & Ha & Hc).
    destruct (Forall2_lookup_lr _ _ _ _ _ _ Hok Ha Hc) as [Hdom Hlen].
    apply TilingFacts.args_from_bounds in Ha.
    exists (ta_position a), (length (ta_sitecol a)). cbn. repeat split; [lia|done..].
  - intros j1 j2 r1 r2 Hne H1 H2 p Hp1 Hp2.
    apply lookup_zip_with_Some in H1 as (a1 & c1 & -> & Ha1 & _).
    apply lookup_zip_with_Some in H2 as (a2 & c2 & -> & Ha2 & _).
    cbn in Hp1, Hp2. apply elem_of_seq in Hp1, Hp2.
    destruct (decide (j1 < j2)).
    + pose proof (args_from_ordered _ _ _ _ _ _ _ l Ha1 Ha2). lia.
    + assert (j2 < j1) as Hlt by lia.
      pose proof (args_from_ordered _ _ _ _ _ _ _ Hlt Ha2 Ha1). lia.
Qed.

End Reduce.

Section Execute.
Context {Site V : Type} {splitter : SplitInBlocks Site}.

(** X1.  Reducing the results of all the tiles rebuilds the full arrays:
    when [split_in_blocks] is complete and the task of every tile returns,
    for every key of the accumulator, one curve per site of the tile, the
    reduction ends normally and the array of every key is the
    concatenation of the curves of the tiles, in the order of the tiles;
    no zero of the initial accumulator is left and nothing is written
    twice. *)
Theorem tiling_reduce_concat
    (Hcomplete : partition_complete split_in_blocks)
    (zero : V) (sitecol : list Site) (concurrent_tasks : nat)
    (trt_gsims : list Key) (curves : list (gmap Key (list V))) :
  Forall2 (tile_curves_ok (list_to_set trt_gsims))
          (all_args sitecol concurrent_tasks) curves →
  ∃ store',
    reduce_tiles (zero_acc_loop zero (length sitecol) trt_gsims).1
                 (zero_acc_loop zero (length sitecol) trt_gsims).2
                 (zip_with tile_result (all_args sitecol concurrent_tasks) curves)
    = Ok ((zero_acc_loop zero (length sitecol) trt_gsims).1, store')
    ∧ ∀ k, k ∈ trt_gsims →
        ∃ a, (zero_acc_loop zero (length sitecol) trt_gsims).1 !! k = Some a
             ∧ store' !! a = Some (concat ((λ c, default [] (c !! k)) <$> curves))
             ∧ length (concat ((λ c, default [] (c !! k)) <$> curves))
               = length sitecol.
Proof.
  intros Hok.
  destruct (TilingFacts.zero_acc_loop_no_alias zero (length sitecol) trt_gsims)
    as [Hinj Halloc].
  pose proof (zero_acc_loop_dom zero (length sitecol) trt_gsims) as Hdom.
  set (acc := (zero_acc_loop zero (length sitecol) trt_gsims).1) in *.
  set (store := (zero_acc_loop zero (length sitecol) trt_gsims).2) in *.
  unfold all_args in *. rewrite TilingFacts.all_args_loop_eq in *. cbn [fst] in *.
  assert (length (concat (tiles sitecol concurrent_tasks)) = length sitecol) as Hlen.
  { unfold tiles. by rewrite Hcomplete. }
  rewrite <- Hdom in Hok.
  destruct (reduce_tiles_from acc (length sitecol) (tiles sitecol concurrent_tasks)
              Hinj curves 0 0 store (λ _, []) Hok) as (store' & Hrun & Hfinal).
  { lia. }
  { intros k a Ha. exists (replicate (length sitecol) zero).
    rewrite (Halloc k a Ha). cbn. by rewrite length_replicate. }
  exists store'. split; [exact Hrun|].
  intros k Hk.
  assert (is_Some (acc !! k)) as [a Ha].
  { apply elem_of_dom. rewrite Hdom. by apply elem_of_list_to_set. }
  exists a. split; [done|].
  destruct (Hfinal k a Ha) as (rest & Hs & Hl). cbn [app] in Hs, Hl.
  assert (length (concat ((λ c, default [] (c !! k)) <$> curves)) = length sitecol)
    as Hcat.
  { rewrite <- Hlen. eapply tile_curves_length; [exact Hok|].
    apply elem_of_dom. by eexists. }
  rewrite length_app, Hcat in Hl.
  assert (rest = []) as -> by (apply length_zero_iff_nil; lia).
  rewrite app_nil_r in Hs. done.
Qed.

(** X2.  The order in which the tasks of the tiles return does not matter:
    when [split_in_blocks] is complete and the task of every tile returns,
    for every key of the accumulator, one curve per site of the tile, the
    reduction of the results in any order of arrival ends in the same
    accumulator and the same arrays as the reduction in the order of the
    tiles. *)
Theorem tiling_reduce_any_order
    (Hcomplete : partition_complete split_in_blocks)
    (zero : V) (sitecol : list Site) (concurrent_tasks : nat)
    (trt_gsims : list Key) (curves : list (gmap Key (list V)))
    (results : list TileCurves) :
  Forall2 (tile_curves_ok (list_to_set trt_gsims))
          (all_args sitecol concurrent_tasks) curves →
  results ≡ₚ zip_with tile_result (all_args sitecol concurrent_tasks) curves →
  reduce_tiles (zero_acc_loop zero (length sitecol) trt_gsims).1
               (zero_acc_loop zero (length sitecol) trt_gsims).2 results
  = reduce_tiles (zero_acc_loop zero (length sitecol) trt_gsims).1
                 (zero_acc_loop zero (length sitecol) trt_gsims).2
                 (zip_with tile_result (all_args sitecol concurrent_tasks) curves).
Proof.
  intros Hok Hperm.
  destruct (TilingFacts.zero_acc_loop_no_alias zero (length sitecol) trt_gsims)
    as [Hinj Halloc].
  pose proof (zero_acc_loop_dom zero (length sitecol) trt_gsims) as Hdom.
  set (acc := (zero_acc_loop zero (length sitecol) trt_gsims).1) in *.
  set (store := (zero_acc_loop zero (length sitecol) trt_gsims).2) in *.
  unfold all_args in *. rewrite TilingFacts.all_args_loop_eq in *. cbn [fst] in *.
  assert (length (concat (tiles sitecol concurrent_tasks)) = length sitecol) as Hlen.
  { unfold tiles. by rewrite Hcomplete. }
  rewrite <- Hdom in Hok.
  destruct (tile_results_fit (dom acc) (length sitecol)
              (tiles sitecol concurrent_tasks) curves 0 0 Hok) as [Hfits Hpw]; [lia|].
  symmetry. apply (reduce_tiles_perm acc (length sitecol)); try done.
  intros k a Ha. exists (replicate (length sitecol) zero).
  by rewrite (Halloc k a Ha), length_replicate.
Qed.

End Execute.

Lemma ex_tile_curves_ok :
  Forall2 (tile_curves_ok (list_to_set ex_keys))
          (all_args (splitter := contiguous_tiles) [10; 11; 12; 13; 14] 2)
          ex_tile_curves.
Proof.
  assert (∀ (x y : list nat),
            dom (<[ (0, "a") := x ]> ({[ (1, "b") := y ]} : gmap Key (list nat)))
            = list_to_set ex_keys) as Hdom.
  { intros x y. rewrite dom_insert_L, dom_singleton_L. cbn. set_solver. }
  repeat constructor; try apply Hdom.
  - intros k c Hc. apply lookup_insert_Some in Hc as [[_ <-]|[_ Hc]]; [done|].
    by apply lookup_singleton_Some in Hc as [_ <-].
  - intros k c Hc. apply lookup_insert_Some in Hc as [[_ <-]|[_ Hc]]; [done|].
    by apply lookup_singleton_Some in Hc as [_ <-].
Qed.

(** X1 on two tiles of five sites. *)
Lemma tiling_reduce_concat_witness :
  ∃ store',
    reduce_tiles (zero_acc_loop 0 5 ex_keys).1 (zero_acc_loop 0 5 ex_keys).2
      (zip_with tile_result
         (all_args (splitter := contiguous_tiles) [10; 11; 12; 13; 14] 2)
         ex_tile_curves)
    = Ok ((zero_acc_loop 0 5 ex_keys).1, store')
    ∧ ∀ k, k ∈ ex_keys →
        ∃ a, (zero_acc_loop 0 5 ex_keys).1 !! k = Some a
             ∧ store' !! a
               = Some (concat ((λ c, default [] (c !! k)) <$> ex_tile_curves))
             ∧ length (concat ((λ c, default [] (c !! k)) <$> ex_tile_curves)) = 5.
Proof.
  exact (tiling_reduce_concat (splitter := contiguous_tiles)
           TilingFacts.contiguous_tiles_complete 0 [10; 11; 12; 13; 14] 2
           ex_keys ex_tile_curves ex_tile_curves_ok).
Defined.

(** X2 on the same tiles, the second one returning first. *)
Lemma tiling_reduce_any_order_witness :
  reduce_tiles (zero_acc_loop 0 5 ex_keys).1 (zero_acc_loop 0 5 ex_keys).2
    (reverse (zip_with tile_result
                (all_args (splitter := contiguous_tiles) [10; 11; 12; 13; 14] 2)
                ex_tile_curves))
  = reduce_tiles (zero_acc_loop 0 5 ex_keys).1 (zero_acc_loop 0 5 ex_keys).2
      (zip_with tile_result
         (all_args (splitter := contiguous_tiles) [10; 11; 12; 13; 14] 2)
         ex_tile_curves).
Proof.
  apply (tiling_reduce_any_order (splitter := contiguous_tiles)
           TilingFacts.contiguous_tiles_complete 0 [10; 11; 12; 13; 14] 2
           ex_keys ex_tile_curves _ ex_tile_curves_ok).
  apply reverse_Permutation.
Defined.

Example reduce_tiles_run :
  contents
    <$> reduce_tiles (zero_acc_loop 0 5 ex_keys).1 (zero_acc_loop 0 5 ex_keys).2
          (zip_with tile_result
             (all_args (splitter := contiguous_tiles) [10; 11; 12; 13; 14] 2)
             ex_tile_curves)
  = Ok [((0, "a"), Some [1; 2; 3; 7; 8]); ((1, "b"), Some [4; 5; 6; 9; 10])].
Proof. vm_compute. reflexivity. Qed.

End TilingReduceFacts.

(** ** The totals of [scenario_risk] *)

Module ScenarioRiskTotalsFacts.
Import ScenarioRisk ScenarioRiskTotals.

Lemma filter_ext_in {A : Type} (P Q : A → Prop)
    `{∀ x, Decision (P x)} `{∀ x, Decision (Q x)} (l : list A) :
  (∀ x, x ∈ l → P x ↔ Q x) → filter P l = filter Q l.
Proof.
  induction l as [|x l IH]; intros Hiff; [done|].
  rewrite !filter_cons, IH by (intros y Hy; apply Hiff; by right).
  destruct (decide (P x)) as [HP|HP], (decide (Q x)) as [HQ|HQ]; try done.
  - exfalso. apply HQ, Hiff; [by left|done].
  - exfalso. apply HP, Hiff; [by left|done].
Qed.

Lemma filter_none {A : Type} (P : A → Prop) `{∀ x, Decision (P x)} (l : list A) :
  (∀ x, x ∈ l → ¬ P x) → filter P l = [].
Proof.
  induction l as [|x l IH]; intros Hno; [done|].
  rewrite filter_cons, IH by (intros y Hy; apply Hno; by right).
  rewrite decide_False; [done|]. apply Hno. by left.
Qed.

Section Totals.
Context {F : Type} {numpy : Numpy F}.
#[local] Abbreviation Output := (@ScenarioRisk.Output F).
#[local] Abbreviation Value := (@ScenarioRisk.Value F).
#[local] Abbreviation Item := (nat * (string * string) * Value)%type.

Lemma out_step_items (result : gmap nat (gmap (string * string) Value))
    (out : Output) :
  out_step result out = add_items (Ok result) (out_items out).
Proof.
  unfold out_step, out_items, add_items, insured_triples, loss_triples.
  cbn [app foldl mbind res_bind].
  destruct (iadd_at result _ _ _) as [r1|e]; cbn [mbind res_bind].
  - destruct (iadd_at r1 _ _ _) as [r2|e]; cbn [mbind res_bind].
    + destruct (insured_loss_matrix out); cbn [foldl mbind res_bind]; [|done].
      by destruct (iadd_at r2 _ _ _).
    + by destruct (insured_loss_matrix out).
  - by destruct (insured_loss_matrix out).
Qed.

Lemma add_items_Raise (e : exn) (items : list Item) :
  add_items (Raise e) items = Raise e.
Proof. induction items as [|[[h key] v] items IH]; [done|]. exact IH. Qed.

Lemma add_items_app (st : res (gmap nat (gmap (string * string) Value)))
    (l1 l2 : list Item) :
  add_items st (l1 ++ l2) = add_items (add_items st l1) l2.
Proof. unfold add_items. by rewrite foldl_app. Qed.

Lemma out_loop_items (outs : list Output) :
  ∀ st, foldl (λ st out, st ≫= λ result, out_step result out) st outs
        = add_items st (flat_map out_items outs).
Proof.
  induction outs as [|out outs IH]; intros st; [done|].
  cbn [foldl flat_map]. rewrite IH, add_items_app. f_equal.
  destruct st as [result|e]; cbn [mbind res_bind].
  - apply out_step_items.
  - by rewrite add_items_Raise.
Qed.

Lemma scenario_risk_items (realizations : list nat) (outputs : list (list Output)) :
  scenario_risk realizations outputs
  = add_items (Ok (list_to_map ((λ ordinal, (ordinal, ∅)) <$> realizations)))
              (flat_map out_items (concat outputs)).
Proof.
  unfold scenario_risk.
  rewrite (ScenarioRiskFacts.nested_foldl_concat
             (λ st out, st ≫= λ result, out_step result out)).
  apply out_loop_items.
Qed.

Lemma iadd_at_value (result : gmap nat (gmap (string * string) Value))
    (h : nat) (kt lt : string) (v : Value) :
  is_Some (result !! h) → kinds result → kind_ok kt v →
  ∃ result', iadd_at result h (kt, lt) v = Ok result'
    ∧ kinds result'
    ∧ dom result' = dom result
    ∧ ∀ h' key,
        value_at result' h' key
        = if decide (h' = h ∧ key = (kt, lt))
          then Some (merge_value (value_at result h' key) v)
          else value_at result h' key.
Proof.
  intros [d Hd] Hkinds Hv.
  destruct (ScenarioRiskFacts.iadd_at_spec result h kt lt v) as (r' & Hrun & Hk' & _);
    [by eexists|done..|].
  exists r'. split; [exact Hrun|]. split; [exact Hk'|].
  unfold iadd_at, getitem in Hrun. rewrite Hd in Hrun. cbn [mbind res_bind] in Hrun.
  assert (accum_iadd d (kt, lt) v
          = Ok (<[(kt, lt) := merge_value (d !! (kt, lt)) v]> d)) as Hacc.
  { unfold accum_iadd. destruct (d !! (kt, lt)) as [x|] eqn:Hx; [|by destruct v].
    pose proof (Hkinds h d kt lt x Hd Hx) as Hkx.
    destruct x as [a|a], v as [b|b]; simpl in *; try done.
    - exfalso. destruct Hkx as [->| ->], Hv as [?|?]; done.
    - exfalso. destruct Hkx as [->| ->], Hv as [?|?]; done. }
  rewrite Hacc in Hrun. cbn [mbind res_bind] in Hrun. injection Hrun as <-.
  split.
  - rewrite dom_insert_L. apply elem_of_dom_2 in Hd. set_solver.
  - intros h' key. unfold value_at.
    destruct (decide (h' = h)) as [->|Hne].
    + rewrite lookup_insert_eq, Hd. cbn [mbind option_bind].
      destruct (decide (key = (kt, lt))) as [->|Hk].
      * by rewrite lookup_insert_eq, decide_True.
      * rewrite lookup_insert_ne by done.
        by rewrite decide_False by (intros [_ ?]; done).
    + rewrite lookup_insert_ne by done.
      by rewrite decide_False by (intros [? _]; done).
Qed.

(** The value under every key after a sequence of updates. *)
Lemma add_items_spec (items : list Item) :
  ∀ result : gmap nat (gmap (string * string) Value),
    Forall (λ it, it.1.1 ∈ dom result ∧ kind_ok it.1.2.1 it.2) items →
    kinds result →
    ∃ result', add_items (Ok result) items = Ok result'
      ∧ kinds result'
      ∧ dom result' = dom result
      ∧ ∀ h key,
          value_at result' h key
          = foldl (λ o v, Some (merge_value o v)) (value_at result h key)
                  ((filter (λ it, it.1 = (h, key)) items).*2).
Proof.
  induction items as [|[[h [kt lt]] v] items IH]; intros result Hitems Hkinds.
  - by exists result.
  - apply Forall_cons in Hitems as [[Hh Hv] Hitems]. cbn in Hh, Hv.
    destruct (iadd_at_value result h kt lt v) as (r1 & Hrun1 & Hk1 & Hd1 & Hv1);
      [by apply elem_of_dom|done..|].
    unfold add_items. cbn [foldl mbind res_bind]. rewrite Hrun1.
    destruct (IH r1) as (r' & Hrun' & Hk' & Hd' & Hv'); [|done|].
    { rewrite Hd1. exact Hitems. }
    exists r'. split; [exact Hrun'|]. split; [exact Hk'|].
    split; [by rewrite Hd', Hd1|].
    intros h' key. rewrite Hv', Hv1, filter_cons. cbn [fst].
    destruct (decide (h' = h ∧ key = (kt, lt))) as [[-> ->]|Hn].
    + by rewrite decide_True.
    + rewrite decide_False; [done|]. intros [= -> <-]. by apply Hn.
Qed.

(** The first update of a realization that is not a key fails, and the
    failure ends the run. *)
Lemma add_items_KeyError (items : list Item) :
  ∀ result : gmap nat (gmap (string * string) Value),
    Forall (λ it, kind_ok it.1.2.1 it.2) items → kinds result →
    Exists (λ it, it.1.1 ∉ dom result) items →
    add_items (Ok result) items = Raise KeyError.
Proof.
  induction items as [|[[h [kt lt]] v] items IH]; intros result Hitems Hkinds Hbad.
  - by apply Exists_nil in Hbad.
  - apply Forall_cons in Hitems as [Hv Hitems]. cbn in Hv.
    unfold add_items. cbn [foldl mbind res_bind].
    destruct (decide (h ∈ dom result)) as [Hh|Hh].
    + destruct (iadd_at_value result h kt lt v) as (r1 & -> & Hk1 & Hd1 & _);
        [by apply elem_of_dom|done..|].
      apply IH; [done..|]. apply Exists_cons in Hbad as [Hbad|Hbad]; [done|].
      by rewrite Hd1.
    + apply not_elem_of_dom in Hh.
      replace (iadd_at result h (kt, lt) v) with (@Raise (gmap nat (gmap (string * string) Value)) KeyError)
        by (unfold iadd_at, getitem; by rewrite Hh).
      apply add_items_Raise.
Qed.

Lemma out_items_kind_ok (outs : list Output) :
  Forall (λ it : Item, kind_ok it.1.2.1 it.2) (flat_map out_items outs).
Proof.
  apply Forall_flat_map, Forall_forall. intros out _. unfold out_items.
  destruct (insured_loss_matrix out); repeat apply Forall_cons_2;
    try apply Forall_nil_2; cbn; auto.
Qed.

Lemma out_items_hid (out : Output) (it : Item) :
  it ∈ out_items out → it.1.1 = hid out.
Proof.
  unfold out_items. intros Hit.
  destruct (insured_loss_matrix out); cbn in Hit;
    repeat (apply elem_of_cons in Hit as [->|Hit]; [done|]);
    by apply elem_of_nil in Hit.
Qed.

(** The arrays that the outputs add under a key of arrays. *)
Lemma filter_out_items (outs : list Output) (h : nat) (kt lt : string) :
  (filter (λ it : Item, it.1 = (h, (kt, lt))) (flat_map out_items outs)).*2
  = flat_map (λ out, (filter (λ it : Item, it.1.2.1 = kt) (out_items out)).*2)
             (filter (λ out, hid out = h ∧ loss_type out = lt) outs).
Proof.
  induction outs as [|out outs IH]; [done|].
  cbn [flat_map]. rewrite filter_app, fmap_app, IH, (filter_cons _ out).
  assert (∀ it : Item, it ∈ out_items out → it.1.1 = hid out ∧ it.1.2.2 = loss_type out)
    as Hit.
  { intros it Hin. unfold out_items in Hin.
    destruct (insured_loss_matrix out); cbn in Hin;
      repeat (apply elem_of_cons in Hin as [->|Hin]; [done|]);
      by apply elem_of_nil in Hin. }
  destruct (decide (hid out = h ∧ loss_type out = lt)) as [[Hh Hlt]|Hn].
  - cbn [flat_map]. f_equal. f_equal. apply filter_ext_in.
    intros [[h' [kt' lt']] v] Hin.
    destruct (Hit _ Hin) as [Hh' Hlt']. cbn in *. subst. split; [by intros [= ->]|].
    by intros ->.
  - rewrite (filter_none _ (out_items out)); [done|].
    intros [[h' [kt' lt']] v] Hin [= -> -> ->].
    destruct (Hit _ Hin) as [Hh' Hlt']. cbn in *. by apply Hn.
Qed.



Lemma initial_result (realizations : list nat) :
  dom (list_to_map ((λ ordinal, (ordinal, ∅)) <$> realizations)
       : gmap nat (gmap (string * string) Value))
  = list_to_set realizations
  ∧ kinds (list_to_map ((λ ordinal, (ordinal, ∅)) <$> realizations)
           : gmap nat (gmap (string * string) Value))
  ∧ ∀ h key,
      value_at (list_to_map ((λ ordinal, (ordinal, ∅)) <$> realizations)
                : gmap nat (gmap (string * string) Value)) h key = None.
Proof.
  set (result0 := list_to_map ((λ ordinal, (ordinal, ∅)) <$> realizations)
                  : gmap nat (gmap (string * string) Value)).
  assert (∀ h d, result0 !! h = Some d → d = ∅) as Hempty.
  { intros h d Hd.
    by apply elem_of_list_to_map_2, list_elem_of_fmap in Hd as (o & [= -> ->] & _). }
  split; [|split].
  - unfold result0. rewrite dom_list_to_map_L, <- list_fmap_compose.
    f_equal. by rewrite <- (list_fmap_id realizations) at 2.
  - intros h d kt lt v Hd Hv. apply Hempty in Hd as ->. by rewrite lookup_empty in Hv.
  - intros h key. unfold value_at. destruct (result0 !! h) as [d|] eqn:Hd; [|done].
    apply Hempty in Hd as ->. cbn. by rewrite lookup_empty.
Qed.

Lemma elem_of_flat_map {A B : Type} (f : A → list B) (l : list A) (y : B) :
  y ∈ flat_map f l ↔ ∃ x, x ∈ l ∧ y ∈ f x.
Proof.
  induction l as [|x l IH]; cbn [flat_map].
  - split; [by intros ?%elem_of_nil|by intros (x & ?%elem_of_nil & _)].
  - rewrite elem_of_app, IH. split.
    + intros [Hy|(x' & Hx' & Hy)]; [exists x|exists x']; split; try done;
        [by left|by right].
    + intros (x' & [->|Hx']%elem_of_cons & Hy); [by left|right; by exists x'].
Qed.

Lemma out_items_fit (realizations : list nat) (outs : list Output) :
  (∀ out, out ∈ outs → hid out ∈ realizations) →
  Forall (λ it : Item,
            it.1.1 ∈ dom (list_to_map ((λ ordinal, (ordinal, ∅)) <$> realizations)
                          : gmap nat (gmap (string * string) Value))
            ∧ kind_ok it.1.2.1 it.2)
         (flat_map out_items outs).
Proof.
  intros Hhids. apply Forall_forall. intros it Hit. split.
  - apply elem_of_flat_map in Hit as (out & Hout & Hit).
    rewrite (out_items_hid out it Hit), (proj1 (initial_result realizations)).
    apply elem_of_list_to_set. by apply Hhids.
  - by apply (proj1 (Forall_forall _ _) (out_items_kind_ok outs)).
Qed.

(** The run of [scenario_risk] when every output belongs to a
    realization: the value under every key. *)
Lemma scenario_risk_values (realizations : list nat) (outputs : list (list Output)) :
  (∀ out, out ∈ concat outputs → hid out ∈ realizations) →
  ∃ result, scenario_risk realizations outputs = Ok result
    ∧ dom result = list_to_set realizations
    ∧ ∀ h kt lt,
        value_at result h (kt, lt)
        = foldl (λ o v, Some (merge_value o v)) None
            (flat_map (λ out, (filter (λ it : Item, it.1.2.1 = kt) (out_items out)).*2)
                      (outputs_of h lt outputs)).
Proof.
  intros Hhids. rewrite scenario_risk_items.
  destruct (initial_result realizations) as (Hdom0 & Hkinds0 & Hnone0).
  destruct (add_items_spec (flat_map out_items (concat outputs)) _
              (out_items_fit realizations _ Hhids) Hkinds0)
    as (result & Hrun & _ & Hdom & Hval).
  exists result. split; [exact Hrun|]. split; [by rewrite Hdom|].
  intros h kt lt. by rewrite Hval, Hnone0, filter_out_items.
Qed.

(** An output of an unknown realization ends the run with [KeyError]. *)
Lemma scenario_risk_KeyError (realizations : list nat) (outputs : list (list Output)) :
  (∃ out, out ∈ concat outputs ∧ hid out ∉ realizations) →
  scenario_risk realizations outputs = Raise KeyError.
Proof.
  intros (out & Hout & Hbad). rewrite scenario_risk_items.
  destruct (initial_result realizations) as (Hdom0 & Hkinds0 & _).
  apply add_items_KeyError; [apply out_items_kind_ok|done|].
  apply Exists_exists.
  exists (hid out, ("asset-loss", loss_type out), Triples (loss_triples out)).
  split.
  - apply elem_of_flat_map. exists out. split; [done|]. unfold out_items. by left.
  - cbn. rewrite Hdom0. by intros ?%elem_of_list_to_set.
Qed.



Lemma foldl_merge_is_Some (vs : list Value) :
  is_Some (foldl (λ o v, Some (merge_value o v)) None vs) ↔ vs ≠ [].
Proof.
  split.
  - intros Hs ->. by destruct Hs.
  - intros Hne. destruct vs as [|v vs]; [done|]. clear Hne. cbn [foldl].
    generalize (merge_value None v).
    induction vs as [|w vs IH]; intros x; [by eexists|]. cbn [foldl]. apply IH.
Qed.


(** X4.  The keys of the dictionary returned by [scenario_risk]: one
    entry for every realization, also for those without outputs, and in
    the entry of a realization the key [(key_type, loss_type)] is present
    exactly when an output of that realization and loss type was
    processed, with the key types ['asset-loss'] and ['agg'] for every
    output and ['asset-ins'] and ['ins'] only for an output with an
    insured loss matrix. *)
Theorem scenario_risk_keys
    (realizations : list nat) (outputs : list (list Output))
    (result : gmap nat (gmap (string * string) Value)) :
  scenario_risk realizations outputs = Ok result →
  dom result = list_to_set realizations
  ∧ ∀ h d kt lt, result !! h = Some d →
      (is_Some (d !! (kt, lt)) ↔
       ∃ out, out ∈ concat outputs ∧ hid out = h ∧ loss_type out = lt
              ∧ (kt = "asset-loss" ∨ kt = "agg"
                 ∨ (is_Some (insured_loss_matrix out)
                    ∧ (kt = "asset-ins" ∨ kt = "ins")))).
Proof.
  intros Hrun.
  destruct (decide (Forall (λ out, hid out ∈ realizations) (concat outputs)))
    as [Hall|Hbad].
  2: { apply not_Forall_Exists in Hbad; [|apply _].
       apply Exists_exists in Hbad as (out & Hout & Hbad).
       rewrite scenario_risk_KeyError in Hrun; [done|by exists out]. }
  destruct (scenario_risk_values realizations outputs) as (r & Hrun' & Hdom & Hval).
  { intros out Hout. by apply (proj1 (Forall_forall _ _) Hall). }
  rewrite Hrun in Hrun'. injection Hrun' as <-. split; [exact Hdom|].
  intros h d kt lt Hd.
  assert (d !! (kt, lt) = value_at result h (kt, lt)) as ->
    by (unfold value_at; by rewrite Hd).
  rewrite Hval, foldl_merge_is_Some. split.
  - intros Hne.
    destruct (flat_map _ _) as [|v vs] eqn:Hfm in Hne; [done|]. clear Hne.
    assert (v ∈ flat_map
              (λ out, (filter (λ it : Item, it.1.2.1 = kt) (out_items out)).*2)
              (outputs_of h lt outputs)) as Hv by (rewrite Hfm; by left).
    apply elem_of_flat_map in Hv as (out & Hout & Hv).
    apply list_elem_of_filter in Hout as [[Hh Hlt] Hout].
    exists out. repeat split; try done.
    apply list_elem_of_fmap in Hv as (it & _ & Hit).
    apply list_elem_of_filter in Hit as [Hkt Hit]. unfold out_items in Hit.
    destruct (insured_loss_matrix out) as [insured|]; cbn in Hit;
      repeat (apply elem_of_cons in Hit as [->|Hit];
              [cbn in Hkt; subst kt; eauto 6|]);
      by apply elem_of_nil in Hit.
  - intros (out & Hout & Hh & Hlt & Hkt) Hnil.
    assert (∃ v, (hid out, (kt, loss_type out), v) ∈ out_items out) as [v Hv].
    { unfold out_items.
      destruct Hkt as [->|[->|[[insured ->] [->| ->]]]]; eexists; cbn;
        repeat first [by left|right]. }
    assert (v ∈ flat_map
              (λ out, (filter (λ it : Item, it.1.2.1 = kt) (out_items out)).*2)
              (outputs_of h lt outputs)) as Hin.
    { apply elem_of_flat_map. exists out. split.
      - by apply list_elem_of_filter.
      - apply list_elem_of_fmap. exists (hid out, (kt, loss_type out), v).
        split; [done|]. by apply list_elem_of_filter. }
    rewrite Hnil in Hin. by apply elem_of_nil in Hin.
Qed.


End Totals.


Lemma ex_result_run :
  scenario_risk (numpy := ex_numpy) [0; 1] [[ex_out1]; [ex_out3]] = Ok ex_result.
Proof.
  destruct (scenario_risk_values (numpy := ex_numpy) [0; 1] [[ex_out1]; [ex_out3]])
    as (result & Hrun & _).
  - intros out Hout. cbn in Hout.
    apply elem_of_cons in Hout as [->|Hout]; [apply list_elem_of_here|].
    apply list_elem_of_singleton in Hout as ->. apply list_elem_of_here.
  - unfold ex_result. by rewrite Hrun.
Qed.

(** X4 on the same run: the realization 1 has an entry, without keys. *)
Lemma scenario_risk_keys_witness :
  dom ex_result = list_to_set [0; 1]
  ∧ ∀ d kt lt, ex_result !! 1 = Some d → ¬ is_Some (d !! (kt, lt)).
Proof.
  destruct (scenario_risk_keys (numpy := ex_numpy) [0; 1] [[ex_out1]; [ex_out3]]
              ex_result ex_result_run) as [Hdom Hkeys].
  split; [exact Hdom|].
  intros d kt lt Hd Hs. apply (Hkeys 1 d kt lt Hd) in Hs as (out & Hout & Hh & _).
  cbn in Hout. apply elem_of_cons in Hout as [->|Hout]; [done|].
  by apply list_elem_of_singleton in Hout as ->.
Defined.

(** An output of the realization 7, which is not a realization of the
    association, ends the run. *)
Example scenario_risk_run_KeyError :
  scenario_risk (numpy := ex_numpy) [0; 1] [[ex_out1]; [ex_out4]] = Raise KeyError.
Proof.
  apply scenario_risk_KeyError. exists ex_out4. split.
  - cbn. apply list_elem_of_further, list_elem_of_here.
  - cbn. intros Hin. apply elem_of_cons in Hin as [?|Hin]; [done|].
    by apply list_elem_of_singleton in Hin.
Qed.

End ScenarioRiskTotalsFacts.

(** ** The core function of the classical calculator *)

Module ClassicalCoreFacts.
Import Classical ClassicalCore.

Lemma dict_of_from `{Countable K} {V : Type} (items : list (K * V)) :
  ∀ d : gmap K V,
    dom (foldl (λ d '(k, v), <[k := v]> d) d items) = dom d ∪ list_to_set items.*1
    ∧ (∀ k, k ∉ items.*1 →
         foldl (λ d '(k, v), <[k := v]> d) d items !! k = d !! k)
    ∧ (NoDup items.*1 → ∀ k v, (k, v) ∈ items →
         foldl (λ d '(k, v), <[k := v]> d) d items !! k = Some v).
Proof.
  induction items as [|[k0 v0] items IH]; intros d.
  - split; [|split]; [cbn; set_solver|done|]. by intros _ k v ?%elem_of_nil.
  - cbn [foldl fmap list_fmap fst list_to_set].
    destruct (IH (<[k0 := v0]> d)) as (Hdom & Hout & Hin).
    split; [|split].
    + rewrite Hdom, dom_insert_L. set_solver.
    + intros k Hk. apply not_elem_of_cons in Hk as [Hne Hk].
      rewrite Hout by done. by rewrite lookup_insert_ne.
    + intros Hnd k v Hkv. apply NoDup_cons in Hnd as [Hk0 Hnd].
      apply elem_of_cons in Hkv as [[= -> ->]|Hkv].
      * rewrite Hout by done. by rewrite lookup_insert_eq.
      * by apply Hin.
Qed.

Lemma dom_dict_of `{Countable K} {V : Type} (items : list (K * V)) :
  dom (dict_of items) = list_to_set items.*1.
Proof.
  unfold dict_of. rewrite (proj1 (dict_of_from items ∅)), dom_empty_L. set_solver.
Qed.

Lemma lookup_dict_of `{Countable K} {V : Type} (items : list (K * V)) (k : K) (v : V) :
  NoDup items.*1 → (k, v) ∈ items → dict_of items !! k = Some v.
Proof. intros Hnd Hkv. by apply (dict_of_from items ∅). Qed.

Section Core.
Context {Source Gsim Curves : Type} {hazardlib : Hazardlib Source Gsim Curves}
        {curves_agg : AggCurves Curves}.

Lemma classical_items_keys (id : nat) (gsims : list Gsim) (curves : list Curves) :
  ((λ '(gsim, c), ((id, gsim_str gsim), c)) <$> zip gsims curves).*1
  = (λ gsim, (id, gsim_str gsim)) <$> take (length curves) gsims.
Proof.
  revert curves. induction gsims as [|g gsims IH]; intros [|c curves]; try done.
  cbn. by rewrite IH.
Qed.

(** X6.  The keys of the dictionary returned by [classical] all carry
    the [trt_model_id] of the first source, whatever the other sources
    are: there is one key [(trt_model_id, str(gsim))] for each of the
    models of that id that has curves, and, when the names of the models
    differ, the curves under a key are those of its model. *)
Theorem classical_keys (sources : list Source) (gsims_assoc : gmap nat (list Gsim))
    (d : gmap Key Curves) :
  classical sources gsims_assoc = Ok d →
  ∃ src rest gsims,
    sources = src :: rest
    ∧ gsims_assoc !! trt_model_id src = Some gsims
    ∧ (∀ k, k ∈ dom d ↔
         ∃ i gsim, gsims !! i = Some gsim
                   ∧ i < length (hazard_curves_per_trt sources gsims)
                   ∧ k = (trt_model_id src, gsim_str gsim))
    ∧ (NoDup (gsim_str <$> gsims) →
       ∀ i gsim curves,
         gsims !! i = Some gsim →
         hazard_curves_per_trt sources gsims !! i = Some curves →
         d !! (trt_model_id src, gsim_str gsim) = Some curves).
Proof.
  unfold classical. destruct sources as [|src rest]; [done|].
  unfold getitem. destruct (gsims_assoc !! trt_model_id src) as [gsims|] eqn:Hg; [|done].
  cbn [mbind res_bind]. intros [= <-]. exists src, rest, gsims.
  split; [done|]. split; [done|]. split.
  - intros k. rewrite dom_dict_of, elem_of_list_to_set, classical_items_keys.
    rewrite list_elem_of_fmap. split.
    + intros (gsim & -> & Hin). apply list_elem_of_lookup in Hin as [i Hi].
      apply lookup_take_Some in Hi as [Hi Hlt]. by exists i, gsim.
    + intros (i & gsim & Hi & Hlt & ->). exists gsim. split; [done|].
      apply list_elem_of_lookup. exists i. by apply lookup_take_Some.
  - intros Hnd i gsim curves Hi Hc. apply lookup_dict_of.
    + rewrite classical_items_keys.
      change (λ gsim : Gsim, (trt_model_id src, gsim_str gsim))
        with (pair (trt_model_id src) ∘ gsim_str).
      rewrite (list_fmap_compose gsim_str (pair (trt_model_id src))).
      apply (NoDup_fmap_2 _). rewrite fmap_take.
      apply (sublist_NoDup _ (gsim_str <$> gsims) Hnd), sublist_take.
    + apply list_elem_of_fmap. exists (gsim, curves). split; [done|].
      apply list_elem_of_lookup. exists i. by apply lookup_zip_with_Some; eauto.
Qed.

Lemma classical_dom (sources : list Source) (gsims_assoc : gmap nat (list Gsim))
    (keys : gset Key) :
  (∀ trt_id gsims gsim, gsims_assoc !! trt_id = Some gsims → gsim ∈ gsims →
     (trt_id, gsim_str gsim) ∈ keys) →
  (∃ src rest, sources = src :: rest ∧ is_Some (gsims_assoc !! trt_model_id src)) →
  ∃ d, classical sources gsims_assoc = Ok d ∧ dom d ⊆ keys.
Proof.
  intros Hkeys (src & rest & -> & [gsims Hg]).
  unfold classical, getitem. rewrite Hg. cbn [mbind res_bind].
  eexists. split; [done|]. rewrite dom_dict_of, classical_items_keys.
  intros k Hk. apply elem_of_list_to_set, list_elem_of_fmap in Hk as (gsim & -> & Hin).
  apply (Hkeys _ gsims); [done|]. apply list_elem_of_lookup in Hin as [i Hi].
  apply lookup_take_Some in Hi as [Hi _]. by eapply list_elem_of_lookup_2.
Qed.

(** X7.  When the keys of [rlzs_assoc] hold the key
    [(trt_id, str(gsim))] of every model of [gsims_assoc] and every block
    of sources starts with a source whose [trt_model_id] is in
    [gsims_assoc], [execute] ends normally with exactly the keys of
    [rlzs_assoc]: the lookup [acc[key]] of [agg_dicts] never fails. *)
Theorem execute_keys (rlzs_assoc : list Key) (zc : Curves)
    (gsims_assoc : gmap nat (list Gsim)) (blocks : list (list Source)) :
  (∀ trt_id gsims gsim, gsims_assoc !! trt_id = Some gsims → gsim ∈ gsims →
     (trt_id, gsim_str gsim) ∈ rlzs_assoc) →
  (∀ block, block ∈ blocks →
     ∃ src rest, block = src :: rest ∧ is_Some (gsims_assoc !! trt_model_id src)) →
  ∃ acc, execute rlzs_assoc zc gsims_assoc blocks = Ok acc
    ∧ dom acc = list_to_set rlzs_assoc.
Proof.
  intros Hkeys Hblocks. unfold execute.
  set (zerodict := dict_of ((λ key, (key, zc)) <$> rlzs_assoc) : gmap Key Curves).
  assert (dom zerodict = list_to_set rlzs_assoc) as Hdom0.
  { unfold zerodict. rewrite dom_dict_of, <- list_fmap_compose. f_equal.
    by rewrite <- (list_fmap_id rlzs_assoc) at 2. }
  revert Hdom0. generalize zerodict. clear zerodict.
  induction blocks as [|block blocks IH]; intros acc Hdom.
  - by exists acc.
  - destruct (classical_dom block gsims_assoc (list_to_set rlzs_assoc))
      as (val & Hval & Hsub).
    { intros trt_id gsims gsim Hg Hin. apply elem_of_list_to_set. by eapply Hkeys. }
    { apply Hblocks. by left. }
    cbn [foldl mbind res_bind]. rewrite Hval. cbn [mbind res_bind].
    rewrite ClassicalFacts.agg_dicts_merged by (by rewrite Hdom).
    apply IH.
    + intros b Hb. apply Hblocks. by right.
    + rewrite ClassicalFacts.dom_merged, Hdom. set_solver.
Qed.

End Core.

Lemma ex_gsims_assoc_lookup (trt_id : nat) (gsims : list string) :
  ex_gsims_assoc !! trt_id = Some gsims →
  (trt_id = 0 ∧ gsims = ["a"; "b"]) ∨ (trt_id = 1 ∧ gsims = ["c"]).
Proof.
  unfold ex_gsims_assoc. intros Hg.
  apply lookup_insert_Some in Hg as [[<- <-]|[_ Hg]]; [by left|].
  apply lookup_singleton_Some in Hg as [<- <-]. by right.
Qed.

Lemma ex_classical_run :
  classical (hazardlib := ex_hazardlib) [0; 0; 1] ex_gsims_assoc = Ok ex_classical.
Proof.
  unfold ex_classical.
  destruct (classical (hazardlib := ex_hazardlib) [0; 0; 1] ex_gsims_assoc)
    as [d|e] eqn:Hrun; [done|].
  unfold classical, getitem, ex_gsims_assoc in Hrun. cbn [trt_model_id ex_hazardlib] in Hrun.
  by rewrite lookup_insert_eq in Hrun.
Qed.

(** X6 on a block of two sources of the model 0 followed by a source of
    the model 1: every key is a key of the model 0. *)
Lemma classical_keys_witness :
  (0, "b") ∈ dom ex_classical ∧ ∀ k, k ∈ dom ex_classical → k.1 = 0.
Proof.
  destruct (classical_keys (hazardlib := ex_hazardlib) [0; 0; 1] ex_gsims_assoc
              ex_classical ex_classical_run)
    as (src & rest & gsims & [= <- <-] & Hg & Hkeys & _).
  split.
  - apply Hkeys. cbn in Hg.
    apply ex_gsims_assoc_lookup in Hg as [[_ ->]|[? _]]; [|done].
    exists 1, "b". split; [done|]. split; [cbn; lia|done].
  - intros k Hk. by apply Hkeys in Hk as (i & gsim & _ & _ & ->).
Defined.

(** X7 on two blocks of sources. *)
Lemma execute_keys_witness :
  ∃ acc,
    execute (hazardlib := ex_hazardlib) (curves_agg := compose)
      [(0, "a"); (0, "b"); (1, "c")] 0%Z ex_gsims_assoc [[0; 0]; [1]] = Ok acc
    ∧ dom acc = list_to_set [(0, "a"); (0, "b"); (1, "c")].
Proof.
  apply (execute_keys (hazardlib := ex_hazardlib) (curves_agg := compose)).
  - intros trt_id gsims gsim Hg Hin.
    apply ex_gsims_assoc_lookup in Hg as [[-> ->]|[-> ->]].
    + apply elem_of_cons in Hin as [->|Hin]; [by left|].
      apply list_elem_of_singleton in Hin as ->. right. by left.
    + apply list_elem_of_singleton in Hin as ->. right. right. by left.
  - intros block Hin. apply elem_of_cons in Hin as [->|Hin].
    + exists 0, [0]. split; [done|]. unfold ex_gsims_assoc. cbn.
      rewrite lookup_insert_eq. by eexists.
    + apply list_elem_of_singleton in Hin as ->.
      exists 1, []. split; [done|]. unfold ex_gsims_assoc. cbn.
      rewrite lookup_insert_ne by done. rewrite lookup_singleton_eq. by eexists.
Defined.

End ClassicalCoreFacts.

(** ** The statistics of a calculator that is not persistent *)

Module StatisticsStoreFacts.
Import Statistics StatisticsStore.


Section PostExecute.
Context {HMaps UHS : Type} {services : Services HMaps UHS}.
#[local] Abbreviation Calculator := (@Statistics.Calculator HMaps UHS).

(** The calculator [self'] has the datastore of [self]. *)
#[local] Abbreviation same_store self self' :=
  (persistent self' = persistent self ∧ hdf5 self' = hdf5 self).






End PostExecute.



End StatisticsStoreFacts.

(** ** The source models of [readinput] *)

Module SourceModelsFacts.
Import SourceModels SourceModelsExample.

Section Models.
Context {Gsim GsimLt : Type} {reader : @SourceReader Gsim GsimLt}.
#[local] Abbreviation TrtModel := (@SourceModels.TrtModel Gsim).
#[local] Abbreviation SourceModel := (@SourceModels.SourceModel Gsim GsimLt).
#[local] Abbreviation CompositeSourceModel :=
  (@SourceModels.CompositeSourceModel Gsim GsimLt).

Lemma numbered_from_app (n : nat) (l1 l2 : list TrtModel) :
  numbered_from n l1 → numbered_from (n + length l1) l2 →
  numbered_from n (l1 ++ l2).
Proof.
  intros H1 H2 j tm Hj. apply lookup_app_Some in Hj as [Hj|[Hge Hj]].
  - by apply H1.
  - destruct (H2 _ _ Hj) as [Hid Hsrc].
    split; [lia|]. intros src Hin. rewrite (Hsrc src Hin). lia.
Qed.

Lemma number_trt_models_spec (trt_models : list TrtModel) :
  ∀ trt_id,
    (number_trt_models trt_models trt_id).2 = trt_id + length trt_models
    ∧ length (number_trt_models trt_models trt_id).1 = length trt_models
    ∧ numbered_from trt_id (number_trt_models trt_models trt_id).1.
Proof.
  induction trt_models as [|tm tms IH]; intros trt_id; cbn [number_trt_models].
  - split; [cbn; lia|]. split; [done|]. by intros j tm' ?.
  - destruct (IH (S trt_id)) as (Hnext & Hlen & Hnum).
    destruct (number_trt_models tms (S trt_id)) as [rest next]. cbn in *.
    split; [lia|]. split; [by rewrite Hlen|].
    intros [|j] tm' Hj; cbn in Hj.
    + injection Hj as <-. cbn. split; [lia|].
      intros src Hin. apply list_elem_of_fmap in Hin as (src0 & -> & _). cbn. lia.
    + destruct (Hnum j tm' Hj) as [Hid Hsrc]. split; [lia|].
      intros src Hin. rewrite (Hsrc src Hin). lia.
Qed.

Lemma source_model_of_spec (in_memory : bool) (trt_id : nat) (types types' : gset string)
    (i : nat) (rlz : LtRlz) (next : nat) (source_model : SourceModel) :
  source_model_of in_memory trt_id types i rlz = (types', Return (next, source_model)) →
  next = trt_id + length (trt_models source_model)
  ∧ numbered_from trt_id (trt_models source_model)
  ∧ ordinal source_model = i.
Proof.
  unfold source_model_of. intros Hrun.
  destruct (samples_by_lt_path _ ≫= _) as [[[num_samples fname] tms]|e]; [|done].
  injection Hrun as _ Hrun.
  destruct (if has_gsim_logic_tree then _ else _) as [[tms' gsim_lt]|e]; [|done].
  cbn [mbind outcome_bind] in Hrun.
  destruct (divide _ _) as [w|e]; [|done]. cbn [mbind outcome_bind] in Hrun.
  destruct (number_trt_models_spec tms' trt_id) as (Hnext & Hlen & Hnum).
  destruct (number_trt_models tms' trt_id) as [numbered n']. cbn in *.
  injection Hrun as <- <-. cbn. split; [|done].
  by rewrite Hnext, Hlen.
Qed.

Lemma source_models_from_spec (in_memory : bool) (rlzs : list LtRlz) :
  ∀ trt_id types start,
    numbered_from trt_id
      (all_trt_models
         (source_models_from in_memory trt_id types
            (Tiling.enumerate_from start rlzs)).1.1)
    ∧ (∀ j source_model,
         (source_models_from in_memory trt_id types
            (Tiling.enumerate_from start rlzs)).1.1 !! j = Some source_model →
         ordinal source_model = start + j).
Proof.
  induction rlzs as [|rlz rlzs IH]; intros trt_id types start;
    cbn [Tiling.enumerate_from source_models_from].
  - split; by intros j x ?.
  - destruct (source_model_of in_memory trt_id types start rlz)
      as [types' [[next sm]|e]] eqn:Hstep; [|split; by intros j x ?].
    apply source_model_of_spec in Hstep as (-> & Hnum & Hord).
    destruct (IH (trt_id + length (trt_models sm)) types' (S start)) as [Hrest Hords].
    destruct (source_models_from in_memory _ types' _) as [[rest types''] err].
    cbn in *. split.
    + by apply numbered_from_app.
    + intros [|j] x Hj; cbn in Hj.
      * injection Hj as <-. lia.
      * rewrite (Hords j x Hj). lia.
Qed.

(** X9.  The source models that [get_source_models] yields, also those
    that it yields before an exception, are numbered in one sequence:
    the j-th tectonic region type model, counting through all the source
    models, has the id j, and every source of it has the
    [trt_model_id] j, whatever number the parser gave it; the source
    models themselves carry their position as ordinal. *)
Theorem get_source_models_numbering (in_memory : bool) (types : gset string)
    (j : nat) (trt_model : TrtModel) :
  all_trt_models (get_source_models in_memory types).1.1 !! j = Some trt_model →
  id trt_model = j
  ∧ (∀ src, src ∈ sources trt_model → trt_model_id src = j)
  ∧ ∀ i source_model,
      (get_source_models in_memory types).1.1 !! i = Some source_model →
      ordinal source_model = i.
Proof.
  intros Hj. unfold get_source_models, Tiling.enumerate in *.
  destruct (source_models_from_spec in_memory get_effective_rlzs 0 types 0)
    as [Hnum Hord].
  destruct (Hnum j trt_model Hj) as [Hid Hsrc]. split; [done|]. split; [done|].
  intros i sm Hi. by rewrite (Hord i sm Hi).
Qed.

Lemma renumber_trt_models_id (trt_models : list TrtModel) :
  ∀ trt_id, numbered_from trt_id trt_models →
    renumber_trt_models trt_models trt_id = (trt_models, trt_id + length trt_models).
Proof.
  induction trt_models as [|tm tms IH]; intros trt_id Hnum; cbn [renumber_trt_models].
  - cbn. f_equal. lia.
  - rewrite (IH (S trt_id)).
    + cbn [length]. f_equal; [|lia]. f_equal.
      destruct (Hnum 0 tm eq_refl) as [Hid _]. destruct tm as [t s i g].
      cbn in *. f_equal. lia.
    + intros j tm' Hj. destruct (Hnum (S j) tm' Hj) as [Hid Hsrc].
      split; [lia|]. intros src Hin. rewrite (Hsrc src Hin). lia.
Qed.

Lemma renumber_id (source_models : list SourceModel) :
  ∀ trt_id, numbered_from trt_id (all_trt_models source_models) →
    renumber source_models trt_id = source_models.
Proof.
  induction source_models as [|sm sms IH]; intros trt_id Hnum; [done|].
  cbn [renumber]. unfold all_trt_models in Hnum. cbn [flat_map] in Hnum.
  rewrite renumber_trt_models_id.
  - rewrite IH; [by destruct sm|].
    intros j tm Hj.
    destruct (Hnum (length (trt_models sm) + j) tm) as [Hid Hsrc].
    { rewrite lookup_app_r by lia. rewrite <- Hj. f_equal. lia. }
    split; [lia|]. intros src Hin. rewrite (Hsrc src Hin). lia.
  - intros j tm Hj. apply (Hnum j tm). by apply lookup_app_l_Some.
Qed.

(** X10.  Without the prefilter, the second numbering of
    [get_composite_source_model] changes nothing: the composite source
    model holds the source models exactly as [get_source_models] yielded
    them, so that after both numberings every source still carries the
    id of its tectonic region type model. *)
Theorem get_composite_source_model_numbering (in_memory : bool) (types : gset string)
    (csm : CompositeSourceModel) :
  get_composite_source_model false in_memory types = Return csm →
  smodels csm = (get_source_models in_memory types).1.1
  ∧ tectonic_region_types csm = (get_source_models in_memory types).1.2
  ∧ ∀ j trt_model, all_trt_models (smodels csm) !! j = Some trt_model →
      id trt_model = j ∧ ∀ src, src ∈ sources trt_model → trt_model_id src = j.
Proof.
  unfold get_composite_source_model. cbn [andb].
  assert (numbered_from 0 (all_trt_models (get_source_models in_memory types).1.1))
    as Hnum.
  { unfold get_source_models, Tiling.enumerate.
    apply (source_models_from_spec in_memory get_effective_rlzs 0 types 0). }
  destruct (get_source_models in_memory types) as [[sms types'] [e|]]; [done|].
  cbn in Hnum. rewrite (renumber_id sms 0 Hnum). intros [= <-]. cbn.
  split; [done|]. split; [done|]. exact Hnum.
Qed.


End Models.

Section FilterSources.
Context {Sites : Type} {site_filter : @SiteFilter Sites}.

Lemma filter_sources_from (sources : list Source) :
  ∀ (srcs : gmap nat (list Source)) (k : nat),
    default []
      (foldl (λ srcs src,
                match filter_sites_by_distance_to_source src with
                | Some _ =>
                    <[trt_model_id src := default [] (srcs !! trt_model_id src) ++ [src]]>
                      srcs
                | None => srcs
                end) srcs sources !! k)
    = default [] (srcs !! k)
      ++ filter (λ src, is_Some (filter_sites_by_distance_to_source src)
                        ∧ trt_model_id src = k) sources
    ∧ ((∀ k l, srcs !! k = Some l → l ≠ []) →
       ∀ l, foldl (λ srcs src,
                match filter_sites_by_distance_to_source src with
                | Some _ =>
                    <[trt_model_id src := default [] (srcs !! trt_model_id src) ++ [src]]>
                      srcs
                | None => srcs
                end) srcs sources !! k = Some l → l ≠ []).
Proof.
  induction sources as [|src sources IH]; intros srcs k.
  - cbn. rewrite app_nil_r. split; [done|]. intros Hne l. apply Hne.
  - cbn [foldl]. rewrite filter_cons.
    destruct (filter_sites_by_distance_to_source src) as [sites|] eqn:Hs.
    + destruct (IH (<[trt_model_id src := default [] (srcs !! trt_model_id src) ++ [src]]>
                      srcs) k) as [Hval Hne].
      split.
      * rewrite Hval. destruct (decide (trt_model_id src = k)) as [<-|Hk].
        -- rewrite lookup_insert_eq, decide_True by (split; [by eexists|done]).
           cbn. by rewrite <- app_assoc.
        -- rewrite lookup_insert_ne by done.
           by rewrite decide_False by (intros [_ ?]; done).
      * intros Hsrcs. apply Hne. intros k' l' Hl'.
        apply lookup_insert_Some in Hl' as [[_ <-]|[_ Hl']]; [|by eapply Hsrcs].
        intros Hnil. by apply app_eq_nil in Hnil as [_ ?].
    + destruct (IH srcs k) as [Hval Hne]. split; [|done].
      rewrite Hval. by rewrite decide_False by (by intros [[? ?] _]).
Qed.

(** X12.  [filter_sources] groups the sources that are close to the
    sites by [trt_model_id], keeping their order, and has no empty
    group: a model without close sources is not a key of the
    dictionary. *)
Theorem filter_sources_groups (sources : list Source) (k : nat) :
  filter_sources sources !! k
  = match filter (λ src, is_Some (filter_sites_by_distance_to_source src)
                         ∧ trt_model_id src = k) sources with
    | [] => None
    | group => Some group
    end.
Proof.
  unfold filter_sources.
  destruct (filter_sources_from sources ∅ k) as [Hval Hne].
  rewrite lookup_empty in Hval. cbn [default app] in Hval.
  destruct (foldl _ ∅ sources !! k) as [l|] eqn:Hl.
  - cbn in Hval. rewrite <- Hval.
    assert (l ≠ []) by (apply Hne; [by intros ? ? ?|done]). by destruct l.
  - cbn in Hval. by rewrite <- Hval.
Qed.

End FilterSources.

(** X9 on the logic tree of two source models: the only model of the
    second source model is the third one. *)
Lemma get_source_models_numbering_witness :
  ∃ trt_model,
    all_trt_models ex_source_models !! 2 = Some trt_model
    ∧ trt trt_model = "Subduction"
    ∧ id trt_model = 2
    ∧ ∀ src, src ∈ sources trt_model → trt_model_id src = 2.
Proof.
  eexists. split; [vm_compute; reflexivity|]. split; [done|].
  destruct (get_source_models_numbering (reader := ex_reader) true ∅ 2 _
              ltac:(vm_compute; reflexivity)) as (Hid & Hsrc & _).
  split; [exact Hid|exact Hsrc].
Defined.

(** X10 on the same logic tree. *)
Lemma get_composite_source_model_numbering_witness :
  ∃ csm, get_composite_source_model (reader := ex_reader) false true ∅ = Return csm
    ∧ smodels csm = ex_source_models.
Proof.
  eexists. split; [vm_compute; reflexivity|].
  apply (get_composite_source_model_numbering (reader := ex_reader) true ∅).
  vm_compute. reflexivity.
Defined.


Example filter_sources_run :
  filter_sources (site_filter := ex_site_filter)
    (flat_map sources (all_trt_models ex_source_models)) !! 0 = None
  ∧ source_id <$> default [] (filter_sources (site_filter := ex_site_filter)
      (flat_map sources (all_trt_models ex_source_models)) !! 2) = ["4"].
Proof. split; vm_compute; reflexivity. Qed.

End SourceModelsFacts.

(** ** The CSV data of [readinput] *)

Module CsvDataFacts.
Import ClassicalCore CsvData.

Lemma dict_of_lookup_elem `{Countable K} {A : Type} (items : list (K * A))
    (k : K) (a : A) :
  dict_of items !! k = Some a → (k, a) ∈ items.
Proof.
  unfold dict_of.
  assert (∀ (l : list (K * A)) (m : gmap K A),
            foldl (λ d '(k, v), <[k := v]> d) m l !! k = Some a →
            (k, a) ∈ l ∨ m !! k = Some a) as Hgen.
  { induction l as [|[k' v] l IHl]; intros m Hm; [by right|].
    cbn [foldl] in Hm. apply IHl in Hm as [?|Hm]; [left; by right|].
    apply lookup_insert_Some in Hm as [[-> ->]|[_ Hm]]; [left; by left|by right]. }
  intros Hk. by apply Hgen in Hk as [?|?].
Qed.

Section Csv.
Context {Coord V : Type} `{Countable Coord} {validators : @Validators Coord V}.
#[local] Abbreviation Exc := (@CsvData.Exc Coord).
#[local] Abbreviation Mesh := (@CsvData.Mesh Coord).
#[local] Abbreviation State :=
  (gmap string (gset (Coord * Coord)) * gmap string (list (list V)))%type.

Lemma read_row_inv (imts : list string) (number_of_values : gmap string nat)
    (st st' : State) (line : nat) (row : list string) :
  rows_inv imts number_of_values st →
  read_row imts number_of_values st line row = Success st' →
  rows_inv imts number_of_values st'.
Proof.
  destruct st as [lon_lats data]. unfold rows_inv.
  intros (Hdom & Hlen & Hval). cbn [fst snd] in *.
  unfold read_row.
  destruct (column row 0) as [s0|]; [|done]. cbn [mbind result_bind].
  destruct (validated line (check_imt imts s0)) as [imt|]; [|done].
  cbn [mbind result_bind].
  destruct (column row 1) as [s1|]; [|done]. cbn [mbind result_bind].
  destruct (validated line (longitude s1)) as [lon|]; [|done].
  cbn [mbind result_bind].
  destruct (column row 2) as [s2|]; [|done]. cbn [mbind result_bind].
  destruct (validated line (latitude s2)) as [lat|]; [|done].
  cbn [mbind result_bind]. unfold lookup_key.
  destruct (lon_lats !! imt) as [points|] eqn:Hpoints; [|done].
  cbn [mbind result_bind]. case_decide as Hin; [done|].
  destruct (validated line (validvalues _)) as [values|]; [|done].
  cbn [mbind result_bind].
  destruct (number_of_values !! imt) as [expected|] eqn:Hexp; [|done].
  cbn [mbind result_bind]. case_decide as Hn; [done|].
  intros [= <-]. cbn [fst snd]. split; [|split].
  - rewrite dom_insert_L, <- Hdom. apply elem_of_dom_2 in Hpoints. set_solver.
  - intros imt'. destruct (decide (imt' = imt)) as [->|Hne].
    + rewrite !lookup_insert_eq. cbn [default]. unfold id.
      rewrite length_app, size_union, size_singleton by set_solver.
      specialize (Hlen imt). rewrite Hpoints in Hlen. cbn [default length] in *.
      f_equal. exact Hlen.
    + rewrite !lookup_insert_ne by done. apply Hlen.
  - intros imt' curves n Hc Hnv. destruct (decide (imt' = imt)) as [->|Hne].
    + rewrite lookup_insert_eq in Hc. injection Hc as <-.
      apply Forall_app. split.
      * destruct (data !! imt) as [l|] eqn:Hl; [by eapply Hval|by constructor].
      * constructor; [|done]. rewrite Hexp in Hnv. injection Hnv as <-.
        done.
    + rewrite lookup_insert_ne in Hc by done. by eapply Hval.
Qed.

Lemma rows_loop_inv (imts : list string) (number_of_values : gmap string nat)
    (rows : list (nat * list string)) :
  ∀ st st' : State,
    rows_inv imts number_of_values st →
    foldl (λ st '(line, row), st ≫= λ st, read_row imts number_of_values st line row)
          (Success st) rows = Success st' →
    rows_inv imts number_of_values st'.
Proof.
  assert (∀ (l : list (nat * list string)) (e : Exc),
            foldl (λ st '(line, row),
                     st ≫= λ st : State, read_row imts number_of_values st line row)
                  (Failure e) l = Failure e) as Hfail.
  { induction l as [|[line row] l IHl]; intros e; [done|]. apply IHl. }
  induction rows as [|[line row] rows IH]; intros st st' Hinv Hrun.
  - by injection Hrun as <-.
  - cbn [foldl mbind result_bind] in Hrun.
    destruct (read_row imts number_of_values st line row) as [st1|e] eqn:Hrow.
    + apply (IH st1 st'); [|done]. by eapply read_row_inv.
    + by rewrite Hfail in Hrun.
Qed.

Lemma check_points_ok (imt : string) (points : gset (Coord * Coord))
    (others : list (string * gset (Coord * Coord))) :
  check_points imt points others = Success () →
  ∀ other_imt other_points, (other_imt, other_points) ∈ others → other_points = points.
Proof.
  unfold check_points.
  assert (∀ (l : list (string * gset (Coord * Coord))) e,
            foldl (λ st '(other_imt, other_points),
                     st ≫= λ _ : (),
                       if decide (points ≠ other_points)
                       then Failure (ValueError_inconsistent imt other_imt : Exc)
                       else Success ())
                  (Failure e) l = Failure e) as Hfail.
  { induction l as [|[o p] l IHl]; intros e; [done|]. apply IHl. }
  induction others as [|[o p] others IH]; intros Hrun o' p' Hin.
  - by apply elem_of_nil in Hin.
  - cbn [foldl mbind result_bind] in Hrun.
    destruct (decide (points ≠ p)) as [Hne|Heq].
    + by rewrite Hfail in Hrun.
    + apply elem_of_cons in Hin as [[= -> ->]|Hin].
      * by destruct (decide (points = p)) as [->|].
      * by eapply IH.
Qed.

(** X13.  When [get_mesh_csvdata] returns a mesh and the data, the mesh
    has at least one point and no point twice, and every intensity
    measure type of the call has data: as many arrays as the mesh has
    points, each with the number of values expected for the type. *)
Theorem get_mesh_csvdata_shape (rows : list (list string)) (imts : list string)
    (num_values : list nat) (mesh : Mesh) (data : gmap string (list (list V))) :
  sorted_permutes →
  get_mesh_csvdata rows imts num_values = Success (mesh, data) →
  0 < length (lons mesh)
  ∧ length (lats mesh) = length (lons mesh)
  ∧ NoDup (zip (lons mesh) (lats mesh))
  ∧ ∀ imt, imt ∈ imts →
      ∃ curves, data !! imt = Some curves
        ∧ length curves = length (lons mesh)
        ∧ ∀ n, dict_of (zip imts num_values) !! imt = Some n →
            Forall (λ c, length c = n) curves.
Proof.
  intros Hsorted. unfold get_mesh_csvdata.
  set (number_of_values := dict_of (zip imts num_values) : gmap string nat).
  set (lon_lats0 := dict_of ((λ imt, (imt, ∅)) <$> imts)
                    : gmap string (gset (Coord * Coord))).
  destruct (foldl _ _ _) as [[lon_lats data']|e] eqn:Hloop; [|done].
  cbn [mbind result_bind].
  apply rows_loop_inv in Hloop.
  2: { unfold rows_inv. cbn [fst snd]. split; [done|]. split.
       - intros imt. rewrite lookup_empty. cbn.
         destruct (lon_lats0 !! imt) as [s|] eqn:Hs; [|done]. cbn.
         assert (s = ∅) as ->; [|done].
         apply dict_of_lookup_elem in Hs.
         by apply list_elem_of_fmap in Hs as (? & [= _ ->] & _).
       - intros imt curves n Hc. by rewrite lookup_empty in Hc. }
  destruct Hloop as (Hdom & Hlen & Hval). cbn [fst snd] in *.
  destruct imts as [|imt0 imts']; [done|]. cbn [mbind result_bind].
  unfold lookup_key. destruct (lon_lats !! imt0) as [points|] eqn:Hp0; [|done].
  cbn [mbind result_bind].
  destruct (check_points _ _ _) as [[]|] eqn:Hcheck; [|done].
  cbn [mbind result_bind].
  destruct (sorted (elements points)) as [|p pts] eqn:Hsort; [done|].
  intros Heq.
  assert (mesh = {| lons := (p :: pts).*1; lats := (p :: pts).*2 |} ∧ data = data')
    as [-> ->] by (by injection Heq).
  clear Heq. cbn [lons lats].
  assert (p :: pts ≡ₚ elements points) as Hperm by (by rewrite <- Hsort).
  rewrite !length_fmap. split; [cbn; lia|]. split; [done|]. split.
  { rewrite zip_fst_snd. rewrite Hperm. apply NoDup_elements. }
  intros imt Himt.
  assert (lon_lats !! imt = Some points) as Hp.
  { assert (is_Some (lon_lats !! imt)) as [q Hq].
    { apply elem_of_dom. rewrite Hdom, ClassicalCoreFacts.dom_dict_of.
      apply elem_of_list_to_set. rewrite <- list_fmap_compose.
      apply list_elem_of_fmap. by exists imt. }
    destruct (decide (imt = imt0)) as [->|Hne]; [done|].
    rewrite Hq. f_equal. eapply (check_points_ok _ _ _ Hcheck imt).
    apply elem_of_map_to_list. by rewrite lookup_delete_ne. }
  specialize (Hlen imt). rewrite Hp in Hlen. cbn [default] in Hlen.
  assert (size points = length (p :: pts)) as Hsize.
  { rewrite Hperm. done. }
  destruct (data' !! imt) as [curves|] eqn:Hc.
  - exists curves. split; [done|]. split; [cbn in *; lia|].
    intros n Hn. by eapply Hval.
  - cbn in *. lia.
Qed.

(** X14.  A file without rows is an error, not a mesh without points:
    with no intensity measure type the call fails on [imts[0]], else on
    the unpacking of the coordinates of no point. *)
Theorem get_mesh_csvdata_no_rows (imts : list string) (num_values : list nat) :
  sorted_permutes →
  get_mesh_csvdata [] imts num_values
  = match imts with
    | [] => Failure IndexError
    | _ :: _ => Failure ValueError_unpack
    end.
Proof.
  intros Hsorted. unfold get_mesh_csvdata. cbn [Tiling.enumerate_from foldl].
  cbn [mbind result_bind]. destruct imts as [|imt0 imts']; [done|].
  cbn [mbind result_bind].
  set (lon_lats0 := dict_of ((λ imt, (imt, ∅)) <$> imt0 :: imts')
                    : gmap string (gset (Coord * Coord))).
  assert (∀ imt s, lon_lats0 !! imt = Some s → s = ∅) as Hempty.
  { intros imt s Hs. apply dict_of_lookup_elem in Hs.
    by apply list_elem_of_fmap in Hs as (? & [= _ ->] & _). }
  assert (is_Some (lon_lats0 !! imt0)) as [s Hs].
  { apply elem_of_dom. unfold lon_lats0.
    rewrite ClassicalCoreFacts.dom_dict_of, <- list_fmap_compose.
    apply elem_of_list_to_set, list_elem_of_fmap. exists imt0. split; [done|by left]. }
  unfold lookup_key. rewrite Hs. cbn [mbind result_bind].
  rewrite (Hempty _ _ Hs).
  assert (check_points imt0 (∅ : gset (Coord * Coord))
            (map_to_list (delete imt0 lon_lats0)) = Success ()) as ->.
  { assert (Forall (λ o : string * gset (Coord * Coord), o.2 = ∅)
              (map_to_list (delete imt0 lon_lats0))) as Hall.
    { apply Forall_forall. intros [o q] Hin. apply elem_of_map_to_list in Hin.
      apply lookup_delete_Some in Hin as [_ Hin]. by eapply Hempty. }
    unfold check_points.
    induction Hall as [|[o q] l Hq _ IH]; [done|]. cbn in Hq. subst q.
    cbn [foldl mbind result_bind]. by rewrite decide_False by (by intros ?). }
  cbn [mbind result_bind]. rewrite elements_empty.
  by rewrite (proj1 (Permutation_nil_r _) (Hsorted [])).
Qed.

End Csv.

Lemma ex_csvdata_run : ex_csvdata = Success (ex_mesh, ex_data).
Proof. vm_compute. reflexivity. Qed.

(** X13 on a file of two points for two types. *)
Lemma get_mesh_csvdata_shape_witness :
  length (lons ex_mesh) = 2
  ∧ ∃ curves, ex_data !! "PGV" = Some curves ∧ length curves = length (lons ex_mesh).
Proof.
  destruct (get_mesh_csvdata_shape (validators := ex_validators) ex_rows
              ["PGA"; "PGV"] [1; 1] ex_mesh ex_data (λ _, reflexivity _)
              ex_csvdata_run) as (_ & _ & _ & Hdata).
  split; [vm_compute; reflexivity|].
  destruct (Hdata "PGV") as (curves & Hc & Hl & _).
  - right. by left.
  - exists curves. split; [exact Hc|exact Hl].
Defined.

(** X14 for the same types. *)
Lemma get_mesh_csvdata_no_rows_witness :
  get_mesh_csvdata (validators := ex_validators) [] ["PGA"; "PGV"] [1; 1]
  = Failure ValueError_unpack.
Proof.
  exact (get_mesh_csvdata_no_rows (validators := ex_validators)
           ["PGA"; "PGV"] [1; 1] (λ _, reflexivity _)).
Defined.

End CsvDataFacts.

(** ** The exposure of [readinput] *)

Module ExposureFacts.
Import CsvData Exposure.

Lemma foldl_Failure {E S B : Type} (f : S → B → result E S) (e : E) (l : list B) :
  foldl (λ st b, st ≫= λ s, f s b) (Failure e) l = Failure e.
Proof. induction l as [|b l IH]; [done|]. exact IH. Qed.

Lemma dom_set_fold_None (missing : gset string) (values : gmap string (option Q)) :
  dom (set_fold (λ cost_type values, <[cost_type := None]> values) values missing)
  = dom values ∪ missing.
Proof.
  unfold set_fold. cbn.
  assert (∀ l : list string,
            dom (foldr (λ cost_type values, <[cost_type := None]> values) values l)
            = dom values ∪ list_to_set l) as Hgen.
  { induction l as [|k l IH]; cbn; [set_solver|]. rewrite dom_insert_L, IH. set_solver. }
  rewrite Hgen. f_equal. apply set_eq. intros k.
  by rewrite elem_of_list_to_set, elem_of_elements.
Qed.

Lemma dom_read_occupancies (time_event : string) (occupancies : list OccupancyNode)
    (values : gmap string (option Q)) :
  dom values ⊆ dom (read_occupancies time_event occupancies values).
Proof.
  induction occupancies as [|o occupancies IH]; cbn [read_occupancies]; [done|].
  destruct (String.eqb _ _); [|done]. rewrite dom_insert_L. set_solver.
Qed.

Section GetExposure.
Context {Region : Type} {geometry : @Geometry Region}.

(** What one turn of the loop on the assets does, when it ends
    normally. *)
Lemma read_asset_spec (oqparam : ExposureParams) (region : option Region)
    (relevant_cost_types : gset string) (st st' : State) (asset : AssetNode) :
  read_asset oqparam region relevant_cost_types st asset = Success st' →
  (node_id asset ∉ asset_refs st)
  ∧ asset_refs st' = asset_refs st ∪ {[node_id asset]}
  ∧ if inside region asset
    then out_of_region st' = out_of_region st
         ∧ taxonomies st' = taxonomies st ∪ {[node_taxonomy asset]}
         ∧ ∃ ass, assets st' = assets st ++ [ass]
             ∧ asset_id ass = node_id asset
             ∧ taxonomy ass = node_taxonomy asset
             ∧ location ass = node_location asset
             ∧ relevant_cost_types ⊆ dom (values ass)
    else out_of_region st' = S (out_of_region st)
         ∧ taxonomies st' = taxonomies st
         ∧ assets st' = assets st.
Proof.
  unfold read_asset. case_decide as Hdup; [done|].
  destruct (if contains "damage" (calculation_mode oqparam) then _ else _)
    as [[num values0]|e]; [|done].
  cbn [mbind result_bind].
  assert (inside region asset
          = negb match region with
                 | Some region => negb (within (node_location asset) region)
                 | None => false
                 end) as Hin.
  { unfold inside. destruct region; [|done]. by rewrite negb_involutive. }
  destruct (match region with Some _ => _ | None => false end).
  - rewrite Hin. cbn [negb]. by intros [= <-].
  - rewrite Hin. cbn [negb].
    destruct (read_costs _ _ _) as [[values1 deductibles1] limits1].
    set (missing := relevant_cost_types ∖ dom values1).
    destruct (if decide (missing ≠ ∅ ∧ _) then _ else _) as [values2|e] eqn:Hm;
      [|done].
    assert (relevant_cost_types ⊆ dom values2) as Hsub.
    { revert Hm. repeat case_decide; try done; intros [= <-].
      - rewrite dom_set_fold_None. unfold missing.
        intros k Hk. destruct (decide (k ∈ dom values1)); set_solver.
      - intros k Hk. destruct (decide (k ∈ dom values1)) as [|Hn]; [done|].
        exfalso. assert (k ∈ missing) by set_solver. set_solver. }
    cbn [mbind result_bind].
    destruct (match time_event oqparam with Some _ => _ | None => _ end)
      as [values3|e] eqn:Ho; [|done].
    assert (relevant_cost_types ⊆ dom values3) as Hsub3.
    { revert Ho. destruct (time_event oqparam) as [te|]; [|by intros [= <-]].
      destruct (String.eqb te ""); [by intros [= <-]|].
      destruct (node_occupancies asset) as [occupancies|]; [|done].
      intros [= <-]. etrans; [exact Hsub|apply dom_read_occupancies]. }
    cbn [mbind result_bind]. intros [= <-]. cbn.
    split; [done|]. split; [done|]. split; [done|]. split; [done|].
    eexists. split; [done|]. by cbn.
Qed.

Lemma read_loop_inv (oqparam : ExposureParams) (region : option Region)
    (relevant_cost_types : gset string) (nodes : list AssetNode) :
  ∀ pre st st',
    read_inv region relevant_cost_types pre st →
    foldl (λ st asset, st ≫= λ st, read_asset oqparam region relevant_cost_types st asset)
          (Success st) nodes = Success st' →
    read_inv region relevant_cost_types (pre ++ nodes) st'.
Proof.
  induction nodes as [|node nodes IH]; intros pre st st' Hinv Hrun.
  - injection Hrun as <-. by rewrite app_nil_r.
  - cbn [foldl mbind result_bind] in Hrun.
    destruct (read_asset oqparam region relevant_cost_types st node) as [st1|e] eqn:Hstep;
      [|by rewrite foldl_Failure in Hrun].
    rewrite (cons_middle node pre nodes), app_assoc. apply (IH _ st1 st'); [|done].
    apply read_asset_spec in Hstep as (Hnew & Hrefs & Hcase).
    destruct Hinv as (Hr & Hnd & Hids & Hlocs & Hout & Htax & Hvals).
    unfold read_inv. rewrite !filter_app, !filter_cons, !filter_nil, !fmap_app.
    split; [|split].
    { rewrite Hrefs, Hr. cbn. set_solver. }
    { apply NoDup_app. split; [done|]. split; [|apply NoDup_singleton].
      intros x Hx Hx'. apply list_elem_of_singleton in Hx' as ->.
      apply Hnew. rewrite Hr. by apply elem_of_list_to_set. }
    destruct (inside region node) eqn:Hin.
    + destruct Hcase as (Hout' & Htax' & ass & Hass & Hid & Htx & Hloc & Hv).
      rewrite decide_True, decide_False by done.
      rewrite Hass, !fmap_app, Hids, Hlocs, Hout', Hout, Htax', Htax. cbn.
      rewrite Hid, Htx, Hloc, length_app. cbn. repeat split; try done; try lia.
      * rewrite list_to_set_app_L. cbn. set_solver.
      * intros a [Ha|Ha%list_elem_of_singleton]%elem_of_app; [by apply Hvals|by subst].
    + destruct Hcase as (Hout' & Htax' & Hass).
      rewrite decide_False, decide_True by done.
      rewrite Hass, Hids, Hlocs, Hout', Hout, Htax', Htax, length_app. cbn.
      rewrite !app_nil_r. repeat split; try done; try lia.
Qed.

(** X15.  When [get_exposure] returns, the ids of all the assets of the
    file are distinct, also those of the assets outside the region; the
    assets of the exposure are the assets of the file that are inside
    the region (all of them when there is no region), in the order of
    the file and at their locations; the others are counted; the
    taxonomies are those of the assets kept; and every asset kept has a
    value, possibly [None], for every relevant cost type. *)
Theorem get_exposure_assets (oqparam : ExposureParams) (region : option Region)
    (assets_node : list AssetNode) (st : State) :
  get_exposure oqparam region assets_node = Success st →
  NoDup (node_id <$> assets_node)
  ∧ asset_id <$> assets st
    = node_id <$> filter (λ a, inside region a = true) assets_node
  ∧ location <$> assets st
    = node_location <$> filter (λ a, inside region a = true) assets_node
  ∧ out_of_region st = length (filter (λ a, inside region a = false) assets_node)
  ∧ taxonomies st = list_to_set (taxonomy <$> assets st)
  ∧ ∀ ass cost_type, ass ∈ assets st →
      cost_type ∈ vulnerability_files oqparam → cost_type ≠ "occupants" →
      is_Some (values ass !! cost_type).
Proof.
  unfold get_exposure. intros Hrun.
  apply (read_loop_inv _ _ _ _ []) in Hrun as (_ & Hnd & Hids & Hlocs & Hout & Htax & Hv).
  - cbn [app] in *. repeat split; try done.
    intros ass cost_type Hass Hin Hne. apply elem_of_dom, (Hv ass Hass).
    apply elem_of_difference. split; [by apply elem_of_list_to_set|].
    by intros ?%elem_of_singleton.
  - unfold read_inv. cbn. repeat split; try done; [apply NoDup_nil_2|].
    by intros ass ?%elem_of_nil.
Qed.

End GetExposure.

Lemma ex_exposure_run :
  get_exposure (geometry := ex_geometry) ex_exposure_params (Some 10%Q) ex_assets_node
  = Success ex_exposure.
Proof. vm_compute. reflexivity. Qed.

(** X15 on three assets, the second one outside the region. *)
Lemma get_exposure_assets_witness :
  asset_id <$> assets ex_exposure = ["a1"; "a3"] ∧ out_of_region ex_exposure = 1.
Proof.
  destruct (get_exposure_assets (geometry := ex_geometry) ex_exposure_params
              (Some 10%Q) ex_assets_node ex_exposure ex_exposure_run)
    as (_ & Hids & _ & Hout & _).
  split; [exact Hids|exact Hout].
Defined.

(** The second asset of a file with the id of the first one ends the
    reading, also when the first one is outside the region. *)
Example get_exposure_duplicated_id :
  get_exposure (geometry := ex_geometry) ex_exposure_params (Some 10%Q)
    [ex_asset_node "a1" 20%Q; ex_asset_node "a1" 1%Q]
  = Failure (DuplicatedID "a1").
Proof. vm_compute. reflexivity. Qed.

End ExposureFacts.

(** ** The configuration files of an archive *)

Module ReadInputArchiveFacts.
Import ReadInput ReadInputArchive.

Lemma filter_all {A : Type} (P : A → Prop) `{∀ x, Decision (P x)} (l : list A) :
  Forall P l → filter P l = l.
Proof.
  induction 1 as [|x l Hx _ IH]; [done|]. by rewrite filter_cons, decide_True, IH.
Qed.

Lemma filter_no_match {A : Type} (P : A → Prop) `{∀ x, Decision (P x)} (l : list A) :
  Forall (λ x, ¬ P x) l → filter P l = [].
Proof.
  induction 1 as [|x l Hx _ IH]; [done|]. by rewrite filter_cons, decide_False, IH.
Qed.

Section GetParams.
Context {Params : Type} {populate_params : Populate Params}.

(** X16.  For an archive, [get_params] reads the configuration files of
    the archive at any depth: when the archive unpacks to a tree whose
    files exist and some file of the tree has one of the four expected
    names, the parsing goes on with exactly the files of the tree that
    have one of these names, in whatever directory they are, and all of
    them are read. *)
Theorem get_params_archive (fs : FileSystem) (path temp_dir : string)
    (entries : list Entry) :
  endswith path ".zip" = true →
  fs_unzip fs path = Ok (temp_dir, entries) →
  (∀ f, file_below temp_dir entries f → fs_exists fs f = true) →
  (∃ f, file_below temp_dir entries f ∧ basename f ∈ job_ini_names) →
  ∃ job_inis,
    get_params fs [path] = populate job_inis job_inis
    ∧ job_inis ≠ []
    ∧ ∀ f, f ∈ job_inis ↔ file_below temp_dir entries f ∧ basename f ∈ job_ini_names.
Proof.
  intros Hzip Hunzip Hexists (f0 & Hf0 & Hname0).
  unfold get_params, extract_from_zip. rewrite Hzip, Hunzip. cbn [mbind res_bind].
  fold job_ini_names.
  set (job_inis := filter (λ f, basename f ∈ job_ini_names)
                          (collect_files temp_dir accept_all entries)).
  assert (∀ f, f ∈ job_inis ↔ file_below temp_dir entries f ∧ basename f ∈ job_ini_names)
    as Hmem.
  { intros f. unfold job_inis.
    rewrite list_elem_of_filter, ReadInputFacts.collect_files_all. tauto. }
  assert (Forall (λ ini, fs_exists fs ini = true) job_inis) as Hall.
  { apply Forall_forall. intros f Hf. apply Hexists. by apply Hmem. }
  assert (job_inis ≠ []) as Hne.
  { intros Hnil. assert (f0 ∈ job_inis) as Hin by (by apply Hmem).
    rewrite Hnil in Hin. by apply elem_of_nil in Hin. }
  exists job_inis. split; [|done].
  rewrite (filter_no_match (λ ini, fs_exists fs ini = false)).
  - rewrite decide_False by (by destruct job_inis).
    by rewrite (filter_all (λ ini, fs_exists fs ini = true)).
  - eapply Forall_impl; [exact Hall|]. cbn. intros f ->. done.
Qed.

End GetParams.

(** X16 on an archive with two configuration files in a directory. *)
Lemma get_params_archive_witness :
  ∃ job_inis,
    get_params (populate_params := ex_populate) ex_fs ["demo.zip"] = Ok job_inis
    ∧ "/tmp/x/demo/job_risk.ini" ∈ job_inis.
Proof.
  assert (file_below "/tmp/x"
            [File "README";
             Dir "demo" [File "job_hazard.ini"; File "exposure.xml";
                         File "job_risk.ini"]]
            "/tmp/x/demo/job_risk.ini"
          ∧ basename "/tmp/x/demo/job_risk.ini" ∈ job_ini_names) as Hfile.
  { split.
    - apply (file_deeper "/tmp/x" _ "demo"
               [File "job_hazard.ini"; File "exposure.xml"; File "job_risk.ini"]).
      + apply list_elem_of_further, list_elem_of_here.
      + apply (file_here "/tmp/x/demo" _ "job_risk.ini").
        do 2 apply list_elem_of_further. apply list_elem_of_here.
    - vm_compute. do 3 apply list_elem_of_further. apply list_elem_of_here. }
  destruct (get_params_archive (populate_params := ex_populate) ex_fs "demo.zip"
              "/tmp/x"
              [File "README";
               Dir "demo" [File "job_hazard.ini"; File "exposure.xml";
                           File "job_risk.ini"]])
    as (job_inis & Hrun & _ & Hmem); [done..| |].
  - by exists "/tmp/x/demo/job_risk.ini".
  - exists job_inis. split; [exact Hrun|]. by apply Hmem.
Defined.

End ReadInputArchiveFacts.

(** ** The ground motion fields of [readinput] *)

Module GmfDataFacts.
Import ClassicalCore CsvData GmfData.

Lemma lookup_dict_of_fmap {A : Type} (f : string → A) (imts : list string)
    (imt : string) :
  NoDup imts → imt ∈ imts →
  (dict_of ((λ imt, (imt, f imt)) <$> imts) : gmap string A) !! imt = Some (f imt).
Proof.
  intros Hnd Hin. apply ClassicalCoreFacts.lookup_dict_of.
  - rewrite <- list_fmap_compose. by rewrite list_fmap_id.
  - apply list_elem_of_fmap. by exists imt.
Qed.

Section Gmfs.
Context {Array : Type} {gmf_reader : @GmfReader Array}.

Lemma read_fields_inv (imts row : list string) (r_sites : RowSites) (n : nat)
    (gmf_by_imt : gmap string (list Array)) :
  NoDup imts →
  fields_inv imts n 0 gmf_by_imt →
  ∀ k gmf_by_imt',
    k ≤ length imts →
    foldl (λ st i, st ≫= λ gmf_by_imt,
             text ← field row (i + 2);
             array ← match positivefloats text with
                     | Some array => Success array
                     | None => Failure (InvalidFile_floats (i + 3) text)
                     end;
             imt ← match imts !! i with
                   | Some imt => Success imt
                   | None => Failure IndexError
                   end;
             gmfs ← item gmf_by_imt imt;
             expanded ← match expand r_sites array with
                        | Some expanded => Success expanded
                        | None => Failure ExpandError
                        end;
             Success (<[imt := gmfs ++ [expanded]]> gmf_by_imt))
          (Success gmf_by_imt) (seq 0 k) = Success gmf_by_imt' →
    fields_inv imts n k gmf_by_imt'.
Proof.
  intros Hnd Hinv. induction k as [|k IH]; intros g' Hk Hrun.
  - by injection Hrun as <-.
  - rewrite seq_S, foldl_app in Hrun. cbn [foldl plus] in Hrun.
    destruct (foldl _ _ (seq 0 k)) as [g1|e] eqn:Hfold; [|done].
    specialize (IH g1 ltac:(lia) eq_refl). cbn [mbind result_bind] in Hrun.
    destruct (field row (k + 2)) as [text|]; [|done]. cbn [mbind result_bind] in Hrun.
    destruct (positivefloats text) as [array|]; [|done].
    cbn [mbind result_bind] in Hrun.
    destruct (imts !! k) as [imt|] eqn:Himt; [|done]. cbn [mbind result_bind] in Hrun.
    unfold item in Hrun. destruct (g1 !! imt) as [gmfs|] eqn:Hg; [|done].
    cbn [mbind result_bind] in Hrun.
    destruct (expand r_sites array) as [expanded|]; [|done].
    cbn [mbind result_bind] in Hrun. injection Hrun as <-.
    intros j imt' Hj. destruct (decide (imt' = imt)) as [->|Hne].
    + assert (j = k) as -> by (by eapply NoDup_lookup).
      rewrite lookup_insert_eq. eexists. split; [done|].
      rewrite decide_True by lia. rewrite length_app. cbn.
      destruct (IH k imt Himt) as (gmfs' & Hg' & Hlen). rewrite Hg in Hg'.
      injection Hg' as <-. rewrite decide_False in Hlen by lia. lia.
    + rewrite lookup_insert_ne by done.
      destruct (IH j imt' Hj) as (gmfs' & Hg' & Hlen). exists gmfs'. split; [done|].
      rewrite Hlen. assert (j ≠ k) by (intros ->; congruence).
      destruct (decide (j < k)), (decide (j < S k)); try done; lia.
Qed.

Lemma read_line_inv (imts : list string) (n : nat)
    (st st' : gmap string (list Array) * list string) (line : string) :
  NoDup imts →
  lines_inv imts n st → read_line imts st line = Success st' →
  lines_inv imts (S n) st'.
Proof.
  intros Hnd. destruct st as [gmf_by_imt tags]. intros [Htags Hinv]. cbn [fst snd] in *.
  unfold read_line.
  destruct (field (split_commas line) 1) as [text|]; [|done].
  cbn [mbind result_bind].
  destruct (positiveints text) as [indices|]; [|done]. cbn [mbind result_bind].
  destruct (read_fields _ _ _ _) as [g'|] eqn:Hfields; [|done].
  cbn [mbind result_bind].
  destruct (field (split_commas line) 0) as [tag|]; [|done].
  cbn [mbind result_bind]. intros [= <-]. split; cbn [fst snd].
  - rewrite length_app. cbn. lia.
  - intros imt Himt. apply list_elem_of_lookup in Himt as [j Hj].
    unfold read_fields in Hfields.
    eapply (read_fields_inv imts _ _ n gmf_by_imt Hnd) in Hfields; [| |done].
    + destruct (Hfields j imt Hj) as (gmfs & Hg & Hlen). exists gmfs. split; [done|].
      apply lookup_lt_Some in Hj. by rewrite decide_True in Hlen.
    + intros j' imt' Hj'. apply Hinv. by eapply list_elem_of_lookup_2.
Qed.

Lemma read_lines_inv (imts : list string) (lines : list string) :
  NoDup imts →
  ∀ n st st',
    lines_inv imts n st →
    foldl (λ st line, st ≫= λ st, read_line imts st line) (Success st) lines
    = Success st' →
    lines_inv imts (n + length lines) st'.
Proof.
  intros Hnd. induction lines as [|line lines IH]; intros n st st' Hinv Hrun.
  - injection Hrun as <-. by rewrite Nat.add_0_r.
  - cbn [foldl mbind result_bind] in Hrun.
    destruct (read_line imts st line) as [st1|e] eqn:Hline.
    + cbn [length]. rewrite <- Nat.add_succ_comm. apply (IH _ st1); [|done].
      by eapply read_line_inv.
    + exfalso. clear -Hrun. induction lines as [|l lines IHl]; [done|]. by apply IHl.
Qed.

(** X17.  When [get_sitecol_gmfs] returns, the file has exactly
    [number_of_ground_motion_fields] lines, there is at least one
    intensity measure type, and the array of every type is the
    transposed of one array for every line of the file. *)
Theorem get_sitecol_gmfs_shape (imts : list string) (num_gmfs : nat)
    (lines : list string) (gmfs : gmap string (list Array)) :
  NoDup imts →
  get_sitecol_gmfs imts num_gmfs lines = Success gmfs →
  imts ≠ []
  ∧ length lines = num_gmfs
  ∧ ∀ imt, imt ∈ imts →
      ∃ arrays, gmfs !! imt = Some (transposed arrays) ∧ length arrays = length lines.
Proof.
  intros Hnd. unfold get_sitecol_gmfs.
  destruct (foldl _ _ lines) as [[gmf_by_imt tags]|e] eqn:Hloop; [|done].
  cbn [mbind result_bind].
  apply (read_lines_inv imts lines Hnd 0) in Hloop as [_ Hinv].
  2: { split; [done|]. intros imt Himt. exists []. split; [|done].
       by apply (lookup_dict_of_fmap (λ _, [])). }
  cbn [fst snd] in Hinv. destruct imts as [|imt0 imts']; [done|].
  cbn [mbind result_bind]. unfold item.
  destruct (Hinv imt0) as (data & Hdata & Hlen); [by left|]. rewrite Hdata.
  cbn [mbind result_bind]. case_decide as Hn; [done|]. case_decide as Hs; [done|].
  intros Heq.
  assert (gmfs = dict_of ((λ imt, (imt, transposed (default [] (gmf_by_imt !! imt))))
                            <$> imt0 :: imts')) as -> by (by injection Heq).
  clear Heq. split; [done|]. split; [lia|].
  intros imt Himt. destruct (Hinv imt Himt) as (arrays & Ha & Hla).
  exists arrays. split; [|done].
  rewrite (lookup_dict_of_fmap (λ imt, transposed (default [] (gmf_by_imt !! imt))))
    by done.
  by rewrite Ha.
Qed.

(** X18.  A line with a single column ends the reading with
    [IndexError], not with [InvalidFile]: the message of the
    [InvalidFile] takes the column that is missing. *)
Theorem get_sitecol_gmfs_short_line (imts : list string) (num_gmfs : nat)
    (line : string) (lines : list string) :
  length (split_commas line) = 1 →
  get_sitecol_gmfs imts num_gmfs (line :: lines) = Failure IndexError.
Proof.
  intros Hlen. unfold get_sitecol_gmfs. cbn [foldl mbind result_bind].
  assert (read_line imts (dict_of ((λ imt, (imt, [])) <$> imts), []) line
          = Failure IndexError) as ->.
  { unfold read_line, field.
    destruct (split_commas line) as [|first [|second rest]]; done. }
  assert (foldl (λ st line, st ≫= λ st, read_line imts st line)
            (Failure IndexError) lines = Failure IndexError) as ->; [|done].
  induction lines as [|l lines IH]; [done|]. exact IH.
Qed.

End Gmfs.

Lemma ex_gmfs_run :
  get_sitecol_gmfs (gmf_reader := ex_gmf_reader) ["PGA"; "PGV"] 2 ex_lines
  = Success ex_gmfs.
Proof. vm_compute. reflexivity. Qed.

(** X17 on a file of two lines for two types. *)
Lemma get_sitecol_gmfs_shape_witness :
  length ex_lines = 2
  ∧ ∃ arrays, ex_gmfs !! "PGV" = Some arrays ∧ length arrays = 2.
Proof.
  destruct (get_sitecol_gmfs_shape (gmf_reader := ex_gmf_reader) ["PGA"; "PGV"] 2
              ex_lines ex_gmfs) as (_ & Hlines & Hgmfs).
  - apply NoDup_cons. split; [by intros ?%list_elem_of_singleton|].
    apply NoDup_singleton.
  - exact ex_gmfs_run.
  - split; [exact Hlines|].
    destruct (Hgmfs "PGV") as (arrays & Ha & Hl); [right; by left|].
    exists arrays. split; [exact Ha|exact Hl].
Defined.

(** X18 on a line without a comma. *)
Lemma get_sitecol_gmfs_short_line_witness :
  get_sitecol_gmfs (gmf_reader := ex_gmf_reader) ["PGA"] 1 ["tag1 1.5"]
  = Failure IndexError.
Proof.
  exact (get_sitecol_gmfs_short_line (gmf_reader := ex_gmf_reader) ["PGA"] 1
           "tag1 1.5" [] eq_refl).
Defined.

End GmfDataFacts.

(** ** The quantile curves *)

Module StatisticsQuantileFacts.
Import Statistics StatisticsStore StatisticsQuantile.

Lemma dict_get_set {A : Type} (d : list (Q * A)) (q q' : Q) (x : A) :
  dict_get (dict_set d q x) q' = if Qeq_bool q q' then Some x else dict_get d q'.
Proof.
  induction d as [|[q0 x0] d IH]; cbn [dict_set dict_get]; [done|].
  destruct (Qeq_bool q0 q) eqn:H0; cbn [dict_get].
  - apply Qeq_bool_iff in H0.
    destruct (Qeq_bool q0 q') eqn:H1, (Qeq_bool q q') eqn:H2; try done.
    + exfalso. apply Qeq_bool_iff in H1. apply Qeq_bool_neq in H2. apply H2.
      by rewrite <- H0.
    + exfalso. apply Qeq_bool_iff in H2. apply Qeq_bool_neq in H1. apply H1.
      by rewrite H0.
  - rewrite IH. destruct (Qeq_bool q0 q') eqn:H1, (Qeq_bool q q') eqn:H2; try done.
    exfalso. apply Qeq_bool_iff in H1, H2. apply Qeq_bool_neq in H0. apply H0.
    by rewrite H1, H2.
Qed.

Section PostExecute.
Context {HMaps UHS : Type} {services : Services HMaps UHS}.
#[local] Abbreviation Calculator := (@Statistics.Calculator HMaps UHS).

(** The loop on the intensity measure types for the quantile [q]. *)
Lemma quantile_inner_spec (curves_by_rlz : gmap nat Curves) (rlzs : list Rlz)
    (weights : option (list Q)) (q : Q) (g0 : Q → option Curves) (l : list string) :
  ∀ st : Calculator * Curves,
    (∀ imt, imt ∈ l → is_Some (st.2 !! imt)
       ∧ ∃ values, curves_of curves_by_rlz imt rlzs = Ok values) →
    (∀ q', dict_get (default [] (quantile st.1)) q'
           = if Qeq_bool q q' then Some st.2 else g0 q') →
    ∃ st', foldl (λ st imt, st ≫= λ st,
                    quantile_step curves_by_rlz rlzs weights q st imt)
                 (Ok st) l = Ok st'
      ∧ oqparam st'.1 = oqparam st.1
      ∧ mean_curves st'.1 = mean_curves st.1
      ∧ (∀ q', dict_get (default [] (quantile st'.1)) q'
               = if Qeq_bool q q' then Some st'.2 else g0 q')
      ∧ (∀ imt, imt ∉ l → st'.2 !! imt = st.2 !! imt)
      ∧ (∀ imt values, imt ∈ l → curves_of curves_by_rlz imt rlzs = Ok values →
           st'.2 !! imt = Some (quantile_curve values q weights)).
Proof.
  induction l as [|imt0 l IH]; intros st Hall Hget.
  - exists st. repeat split; try done. by intros imt values ?%elem_of_nil.
  - destruct (Hall imt0) as ([old Hold] & values0 & Hvalues0); [by left|].
    cbn [foldl mbind res_bind]. unfold quantile_step at 2, setfield.
    rewrite Hvalues0. cbn [mbind res_bind]. rewrite Hold. cbn [mbind res_bind].
    match goal with |- context [foldl _ (Ok ?x) l] => destruct (IH x) as
      (st' & Hrun & Hoq & Hmc & Hget' & Hout & Hin) end.
    { intros imt Himt. destruct (Hall imt) as [Hs Hv]; [by right|]. split; [|done].
      cbn [snd]. by apply lookup_insert_is_Some'; right. }
    { intros q'. cbn [fst snd quantile set_quantile called default]. unfold id.
      rewrite dict_get_set. destruct (Qeq_bool q q') eqn:Hq; [done|].
      specialize (Hget q'). by rewrite Hq in Hget. }
    exists st'. split; [exact Hrun|]. split; [by rewrite Hoq|].
    split; [by rewrite Hmc|]. split; [exact Hget'|]. split.
    + intros imt Himt. apply not_elem_of_cons in Himt as [Hne Himt].
      rewrite (Hout imt Himt). cbn [snd]. by rewrite lookup_insert_ne.
    + intros imt values Himt Hvalues.
      destruct (decide (imt ∈ l)) as [Hl|Hl]; [by apply Hin|].
      apply elem_of_cons in Himt as [->|?]; [|done].
      rewrite (Hout imt0 Hl). cbn [snd]. rewrite lookup_insert_eq.
      rewrite Hvalues0 in Hvalues. by injection Hvalues as <-.
Qed.

(** The loop on the quantiles: the quantiles [seen] have their curves
    before the loop, and so have the quantiles [qs] after it. *)
Lemma quantile_outer_spec (curves_by_rlz : gmap nat Curves) (rlzs : list Rlz)
    (weights : option (list Q)) (zc : Curves) (oq : OqParam) (all qs : list Q) :
  canonical all →
  (∀ imt, imt ∈ (imtls oq).*1 → is_Some (zc !! imt)
     ∧ ∃ values, curves_of curves_by_rlz imt rlzs = Ok values) →
  ∀ (seen : list Q) (self : Calculator),
    oqparam self = oq → is_Some (quantile self) →
    (∀ q, q ∈ seen ++ qs → q ∈ all) →
    (∀ q, q ∈ seen →
       ∃ qc, dict_get (default [] (quantile self)) q = Some qc
         ∧ ∀ imt values, imt ∈ (imtls oq).*1 →
             curves_of curves_by_rlz imt rlzs = Ok values →
             qc !! imt = Some (quantile_curve values q weights)) →
    ∃ self',
      foldl (λ st q, st ≫= λ self,
               fst <$> foldl (λ st imt, st ≫= λ st,
                                quantile_step curves_by_rlz rlzs weights q st imt)
                             (Ok (set_quantile self
                                    (dict_set (default [] (quantile self)) q zc), zc))
                             (oqparam self).(imtls).*1)
            (Ok self) qs = Ok self'
      ∧ oqparam self' = oq
      ∧ mean_curves self' = mean_curves self
      ∧ is_Some (quantile self')
      ∧ ∀ q, q ∈ seen ++ qs →
          ∃ qc, dict_get (default [] (quantile self')) q = Some qc
            ∧ ∀ imt values, imt ∈ (imtls oq).*1 →
                curves_of curves_by_rlz imt rlzs = Ok values →
                qc !! imt = Some (quantile_curve values q weights).
Proof.
  intros Hcanon Hall. induction qs as [|q0 qs IH]; intros seen self Hoq Hsome Hsub Hdone.
  - exists self. rewrite app_nil_r. by repeat split.
  - cbn [foldl mbind res_bind]. rewrite Hoq.
    destruct (quantile_inner_spec curves_by_rlz rlzs weights q0
                (dict_get (default [] (quantile self))) (imtls oq).*1
                (set_quantile self (dict_set (default [] (quantile self)) q0 zc), zc))
      as (st' & Hrun & Hoq' & Hmc' & Hget' & _ & Hin); [exact Hall| |].
    { intros q'. cbn [fst snd quantile set_quantile default]. unfold id.
      apply dict_get_set. }
    rewrite Hrun. cbn [fmap res_fmap].
    destruct (IH (seen ++ [q0]) st'.1) as (self' & Hrun' & Hoq'' & Hmc'' & Hs'' & Hqs).
    { by rewrite Hoq'. }
    { specialize (Hget' q0). rewrite (proj2 (Qeq_bool_iff q0 q0)) in Hget' by reflexivity.
      destruct (quantile st'.1); [by eexists|done]. }
    { intros q Hq. apply Hsub. rewrite <- app_assoc in Hq. exact Hq. }
    { intros q Hq. rewrite Hget'. destruct (Qeq_bool q0 q) eqn:Heq.
      - assert (q0 = q) as <-.
        { apply Hcanon; [apply Hsub; set_solver| |done].
          apply Hsub. apply elem_of_app in Hq as [?|?%list_elem_of_singleton];
            set_solver. }
        exists st'.2. split; [done|]. exact Hin.
      - apply elem_of_app in Hq as [Hq|Hq%list_elem_of_singleton].
        + by apply Hdone.
        + subst q. by rewrite (proj2 (Qeq_bool_iff q0 q0)) in Heq by reflexivity. }
    exists self'. split; [exact Hrun'|]. split; [done|].
    split; [by rewrite Hmc'', Hmc'|]. split; [done|].
    intros q Hq. apply Hqs. by rewrite <- app_assoc.
Qed.

(** X19.  With more than one realization, [post_execute] ends normally
    and leaves in [self.quantile], for every quantile [q] of
    [quantile_hazard_curves], a composite array whose field of every
    intensity measure type is
    [quantile_curve(curves of the realizations, q, weights)], with the
    weights of the mean curves: [None] when
    [number_of_logic_tree_samples] is not zero, the weights of the
    realizations otherwise. *)
Theorem quantile_curves_computed (self : Calculator) (result : gmap Key Curves) :
  1 < length (realizations self) →
  canonical (quantile_hazard_curves (oqparam self)) →
  (∀ rlz imt, rlz ∈ realizations self → imt ∈ (imtls (oqparam self)).*1 →
     ∃ c a,
       combine_curves result
         (zero_curves (length (sitecol_complete self)) (imtls (oqparam self)))
         !! ordinal rlz = Some c
       ∧ c !! imt = Some a) →
  ∃ self' d, post_execute self result = Ok self'
    ∧ quantile self' = Some d
    ∧ ∀ q, q ∈ quantile_hazard_curves (oqparam self) →
        ∃ qc, dict_get d q = Some qc
          ∧ ∀ imt, imt ∈ (imtls (oqparam self)).*1 →
              qc !! imt
              = Some (quantile_curve
                        (rlz_curve (combine_curves result
                           (zero_curves (length (sitecol_complete self))
                              (imtls (oqparam self)))) imt <$> realizations self)
                        q (statistics_weights (oqparam self) (realizations self))).
Proof.
  intros Hlen Hcanon Hcurves. unfold post_execute.
  cbn [set_curves_by_trt_gsim oqparam sitecol_complete realizations].
  set (oq := oqparam self) in *.
  set (zc := zero_curves (length (sitecol_complete self)) (imtls oq)) in *.
  set (cbr := combine_curves result zc) in *.
  set (rlzs := realizations self) in *.
  match goal with |- context [mean_loop _ _ _ ?x _] => set (self1 := x) end.
  assert (oqparam self1 = oq) as Hoq1.
  { subst self1. destruct (individual_curves oq); [|done].
    apply (StatisticsFacts.store_all_frame (λ rlz : nat, "rlz-" +:+ pretty rlz)). }
  rewrite decide_False by lia.
  assert (∀ imt, imt ∈ (imtls oq).*1 →
            is_Some (zc !! imt)
            ∧ ∃ values, curves_of cbr imt rlzs = Ok values) as Hall.
  { intros imt Himt. split; [by apply StatisticsFacts.zero_curves_field|].
    eexists. apply StatisticsFacts.curves_of_ok. intros rlz Hrlz. by apply Hcurves. }
  assert (∃ self1', (if mean_hazard_curves oq
                     then mean_loop cbr rlzs (statistics_weights oq rlzs) self1 zc
                     else Ok self1) = Ok self1'
                    ∧ oqparam self1' = oq) as (self1' & -> & Hoq1').
  { destruct (mean_hazard_curves oq); [|by exists self1].
    unfold mean_loop. rewrite Hoq1.
    destruct (StatisticsFacts.mean_fold_spec cbr rlzs (statistics_weights oq rlzs)
                (imtls oq).*1 (set_mean_curves self1 zc, zc))
      as (st' & Hrun & Hoq' & _); [done|exact Hall|].
    rewrite Hrun. exists st'.1. split; [done|]. by rewrite Hoq'. }
  cbn [mbind res_bind]. unfold quantile_loop.
  destruct (quantile_outer_spec cbr rlzs (statistics_weights oq rlzs) zc oq
              (quantile_hazard_curves oq) (quantile_hazard_curves (oqparam self1'))
              Hcanon Hall [] (set_quantile self1' []))
    as (self2 & Hrun2 & Hoq2 & _ & [d Hd] & Hqs).
  { done. }
  { by eexists. }
  { intros q Hq. cbn [app] in Hq. by rewrite Hoq1' in Hq. }
  { by intros q ?%elem_of_nil. }
  rewrite Hrun2. cbn [mbind res_bind]. eexists _, d. split; [reflexivity|].
  assert (∀ (l : list (Q * Curves)) (s : Calculator), quantile s = Some d →
            quantile (foldl (λ self '(q, qc),
                               store_curves self ("quantile-" +:+ format_float q) qc)
                            s l) = Some d) as Hstore.
  { intros l s Hs.
    destruct (StatisticsFacts.store_all_frame (λ q, "quantile-" +:+ format_float q)
                l s) as (_ & _ & -> & _). done. }
  split.
  - apply Hstore. destruct (mean_hazard_curves oq); [|done].
    by destruct (StatisticsFacts.store_curves_frame self2 "mean"
                   (default ∅ (mean_curves self2))) as (_ & _ & -> & _).
  - intros q Hq. destruct (Hqs q) as (qc & Hqc & Hfields).
    { cbn [app]. by rewrite Hoq1'. }
    rewrite Hd in Hqc. exists qc. split; [exact Hqc|].
    intros imt Himt. apply Hfields; [done|].
    apply StatisticsFacts.curves_of_ok. intros rlz Hrlz. by apply Hcurves.
Qed.

End PostExecute.

(** X19 on two realizations and the quantile 1/2. *)
Lemma quantile_curves_computed_witness :
  ∃ self' d qc, ex_tile_post_execute = Ok self'
    ∧ quantile self' = Some d
    ∧ dict_get d (1 # 2)%Q = Some qc
    ∧ qc !! "PGA" = Some [1%Q].
Proof.
  destruct (quantile_curves_computed (services := ex_services ex_combine_two)
              ex_tile_calculator ∅) as (self' & d & Hrun & Hd & Hqs).
  - cbn. lia.
  - intros q q' Hq Hq' _. cbn in Hq, Hq'.
    apply list_elem_of_singleton in Hq as ->.
    by apply list_elem_of_singleton in Hq' as ->.
  - intros rlz imt Hrlz Himt. cbn in Hrlz, Himt.
    apply list_elem_of_singleton in Himt as ->.
    cbn [combine_curves ex_services]. unfold ex_combine_two.
    apply elem_of_cons in Hrlz as [->|Hrlz].
    + cbn. rewrite lookup_insert_eq. eexists _, _. split; [done|].
      by rewrite lookup_singleton_eq.
    + apply list_elem_of_singleton in Hrlz as ->. cbn.
      rewrite lookup_insert_ne by done. rewrite lookup_singleton_eq.
      eexists _, _. split; [done|]. by rewrite lookup_singleton_eq.
  - destruct (Hqs (1 # 2)%Q) as (qc & Hqc & Hfields); [by left|].
    exists self', d, qc. split; [exact Hrun|]. split; [exact Hd|].
    split; [exact Hqc|]. rewrite (Hfields "PGA") by (by left).
    vm_compute. reflexivity.
Defined.

End StatisticsQuantileFacts.
